(** * Freezer: a shallow embedding of [freezer.py] (the self-extracting
    bundle builder) and proofs about its behaviour.

    Data model:
    - bytes are [list byte] (Stdlib [Byte.byte]);
    - a file-system path is the list of its components, the drive first
      ([["C:"; "tmp"; "payload"]]); Windows path strings are parsed the way
      [ntpath]/[pathlib.PureWindowsPath] parse them;
    - the file system is a [gmap path node] keyed by resolved paths;
    - code that touches the file system runs in a state and exception monad
      [M] over the file system, which keeps the state reached when an
      exception is raised (Python does not roll back file writes). *)

From Stdlib Require Import ZArith Lia Ascii Strings.Byte.
From stdpp Require Import base gmap list strings.
From Stdlib Require Import Sorting.Sorted.

Open Scope Z_scope.

(** ** Bytes and the footer constants *)

Definition bytes := list byte.

Definition byte_of_Z (z : Z) : byte :=
  match Byte.of_N (Z.to_N (Z.land z 255)) with Some b => b | None => x00 end.

Definition Z_of_byte (b : byte) : Z := Z.of_N (Byte.to_N b).

(** [MARKER = b"PREFIXSFX1"] *)
Definition MARKER : bytes := String.list_byte_of_string "PREFIXSFX1".

(** [FOOTER_LEN = len(MARKER) + 8 + 32] *)
Definition FOOTER_LEN : nat := (length MARKER + 8 + 32)%nat.

(** [struct.pack("<Q", n)]: eight little-endian bytes; [struct.error] when
    [n] is outside [0, 2^64). *)
Definition le64 (n : Z) : bytes :=
  map (fun i : nat => byte_of_Z (Z.shiftr n (8 * Z.of_nat i))) (seq 0 8).

Definition pack_Q (n : Z) : option bytes :=
  if (0 <=? n) && (n <? 2 ^ 64) then Some (le64 n) else None.

(** ** SHA-256 ([hashlib.sha256(data).digest()]), FIPS 180-4 *)
Module SHA256.

Definition w32 (x : Z) : Z := Z.land x (Z.ones 32).
Definition add32 (x y : Z) : Z := w32 (x + y).
Definition rotr (x : Z) (n : Z) : Z :=
  w32 (Z.lor (Z.shiftr x n) (Z.shiftl x (32 - n))).
Definition shr (x : Z) (n : Z) : Z := Z.shiftr x n.
Definition lnot32 (x : Z) : Z := Z.lxor x (Z.ones 32).

Definition Ch (e f g : Z) : Z := Z.lxor (Z.land e f) (Z.land (lnot32 e) g).
Definition Maj (a b c : Z) : Z :=
  Z.lxor (Z.lxor (Z.land a b) (Z.land a c)) (Z.land b c).
Definition Sigma0 (a : Z) : Z := Z.lxor (Z.lxor (rotr a 2) (rotr a 13)) (rotr a 22).
Definition Sigma1 (e : Z) : Z := Z.lxor (Z.lxor (rotr e 6) (rotr e 11)) (rotr e 25).
Definition sigma0 (w : Z) : Z := Z.lxor (Z.lxor (rotr w 7) (rotr w 18)) (shr w 3).
Definition sigma1 (w : Z) : Z := Z.lxor (Z.lxor (rotr w 17) (rotr w 19)) (shr w 10).

(** The constants of FIPS 180-4, 4.2.2 and 5.3.3: the first 32 bits of the
    fractional parts of the cube roots (for [K]) and of the square roots (for
    [H0]) of the first primes, computed here with integer roots. *)
Definition is_prime (n : nat) : bool :=
  (1 <? n)%nat && forallb (fun d => negb (n mod d =? 0)%nat) (seq 2 (n - 2)).

Definition primes (bound : nat) : list Z :=
  map Z.of_nat (filter is_prime (seq 0 bound)).

(** Largest [r < 2 ^ (bit + 1)] above [acc] with [r ^ 3 <= n], bit by bit. *)
Fixpoint cbrt_from (n acc : Z) (bit : nat) : Z :=
  let c := acc + 2 ^ Z.of_nat bit in
  let acc' := if c ^ 3 <=? n then c else acc in
  match bit with
  | O => acc'
  | S b => cbrt_from n acc' b
  end.

Definition frac_cbrt32 (p : Z) : Z := w32 (cbrt_from (p * 2 ^ 96) 0 40).
Definition frac_sqrt32 (p : Z) : Z := w32 (Z.sqrt (p * 2 ^ 64)).

Definition K : list Z := Eval vm_compute in map frac_cbrt32 (primes 312).

Record hstate := HS { ha : Z; hb : Z; hc : Z; hd : Z; he : Z; hf : Z; hg : Z; hh : Z }.

Definition H0 : hstate :=
  Eval vm_compute in
  match map frac_sqrt32 (primes 20) with
  | [a; b; c; d; e; f; g; h] => HS a b c d e f g h
  | _ => HS 0 0 0 0 0 0 0 0
  end.

(** Big-endian 32-bit words of a 64-byte block. *)
Fixpoint words_of (bs : list Z) (fuel : nat) : list Z :=
  match fuel, bs with
  | S f, b0 :: b1 :: b2 :: b3 :: rest =>
      (b0 * 2 ^ 24 + b1 * 2 ^ 16 + b2 * 2 ^ 8 + b3) :: words_of rest f
  | _, _ => []
  end.

(** Message schedule: [W_t] for [t = 16 .. 63], appended to the block words. *)
Fixpoint schedule (ws : list Z) (n : nat) : list Z :=
  match n with
  | O => ws
  | S n' =>
      let t := length ws in
      let w := add32 (add32 (sigma1 (nth (t - 2) ws 0)) (nth (t - 7) ws 0))
                     (add32 (sigma0 (nth (t - 15) ws 0)) (nth (t - 16) ws 0)) in
      schedule (ws ++ [w]) n'
  end.

Definition round (s : hstate) (kw : Z * Z) : hstate :=
  let '(k, w) := kw in
  let t1 := add32 (add32 (add32 (hh s) (Sigma1 (he s))) (add32 (Ch (he s) (hf s) (hg s)) k)) w in
  let t2 := add32 (Sigma0 (ha s)) (Maj (ha s) (hb s) (hc s)) in
  HS (add32 t1 t2) (ha s) (hb s) (hc s) (add32 (hd s) t1) (he s) (hf s) (hg s).

Definition compress (s : hstate) (block : list Z) : hstate :=
  let ws := schedule (words_of block 16) 48 in
  let s' := fold_left round (combine K ws) s in
  HS (add32 (ha s) (ha s')) (add32 (hb s) (hb s')) (add32 (hc s) (hc s'))
     (add32 (hd s) (hd s')) (add32 (he s) (he s')) (add32 (hf s) (hf s'))
     (add32 (hg s) (hg s')) (add32 (hh s) (hh s')).

Fixpoint process (s : hstate) (msg : list Z) (fuel : nat) : hstate :=
  match fuel with
  | O => s
  | S f =>
      match msg with
      | [] => s
      | _ => process (compress s (firstn 64 msg)) (skipn 64 msg) f
      end
  end.

(** Padding: [0x80], zeros up to 56 mod 64, then the bit length (64-bit BE). *)
Definition pad (msg : list Z) : list Z :=
  let l := length msg in
  let zeros := ((119 - l mod 64) mod 64)%nat in
  let bitlen := Z.of_nat l * 8 in
  msg ++ [0x80] ++ repeat 0 zeros ++
      map (fun i : nat => Z.land (Z.shiftr bitlen (8 * (7 - Z.of_nat i))) 255) (seq 0 8).

Definition be32 (x : Z) : bytes :=
  [byte_of_Z (Z.shiftr x 24); byte_of_Z (Z.shiftr x 16);
   byte_of_Z (Z.shiftr x 8); byte_of_Z x].

Definition digest (data : bytes) : bytes :=
  let m := pad (map Z_of_byte data) in
  let s := process H0 m (length m) in
  be32 (ha s) ++ be32 (hb s) ++ be32 (hc s) ++ be32 (hd s) ++
  be32 (he s) ++ be32 (hf s) ++ be32 (hg s) ++ be32 (hh s).

End SHA256.

Definition hex_of (bs : bytes) : list Z := map Z_of_byte bs.

(** ** Windows paths ([pathlib.PureWindowsPath], [ntpath]) *)

Abbreviation path := (list string).

Definition is_sep (c : ascii) : bool := Ascii.eqb c "/"%char || Ascii.eqb c "\"%char.

Fixpoint split_seps (s : string) (cur : string) : list string :=
  match s with
  | EmptyString => [cur]
  | String c s' =>
      if is_sep c then cur :: split_seps s' EmptyString
      else split_seps s' (cur +:+ String c EmptyString)
  end.

(** The components of a path string: empty and ["."] components are dropped,
    [".."] is kept (pathlib is purely lexical). *)
Definition parts_of (s : string) : list string :=
  filter (fun c => negb (String.eqb c "") && negb (String.eqb c ".")) (split_seps s "").

Definition is_letter (c : ascii) : bool :=
  let n := nat_of_ascii c in ((65 <=? n) && (n <=? 90) || (97 <=? n) && (n <=? 122))%nat.

Definition upper (c : ascii) : ascii :=
  let n := nat_of_ascii c in
  if ((97 <=? n) && (n <=? 122))%nat then ascii_of_nat (n - 32) else c.

Definition lower (c : ascii) : ascii :=
  let n := nat_of_ascii c in
  if ((65 <=? n) && (n <=? 90))%nat then ascii_of_nat (n + 32) else c.

Fixpoint map_chars (f : ascii -> ascii) (s : string) : string :=
  match s with EmptyString => EmptyString | String c s' => String (f c) (map_chars f s') end.

(** A drive prefix ["X:"]. UNC drives ([\\server\share]) are read as a rooted
    path without drive. *)
Definition split_drive (s : string) : option (string * string) :=
  match s with
  | String c (String c2 rest) =>
      if is_letter c && Ascii.eqb c2 ":"%char
      then Some (String c (String c2 EmptyString), rest) else None
  | _ => None
  end.

Definition rooted (s : string) : bool :=
  match s with String c _ => is_sep c | EmptyString => false end.

(** [p / s] for a path [p] whose first component is its drive. *)
Definition join (p : path) (s : string) : path :=
  match split_drive s with
  | Some (d, rest) =>
      if rooted rest || negb (String.eqb (map_chars upper d) (map_chars upper (default "" (head p))))
      then d :: parts_of rest
      else d :: tail p ++ parts_of rest
  | None => if rooted s then take 1 p ++ parts_of s else p ++ parts_of s
  end.

(** [p / name] for a single file name, which holds no separator and no drive
    (Windows file names cannot). *)
Definition child (p : path) (n : string) : path := p ++ [n].

(** How the operating system resolves a path: [.] and [..] components are
    removed, [..] at the drive root stays there. Trailing dots and spaces and
    letter case are kept (the model treats names case-sensitively). *)
Definition norm_step (acc : list string) (c : string) : list string :=
  if String.eqb c ".." then tail acc
  else if String.eqb c "" || String.eqb c "." then acc else c :: acc.

Definition normalize (p : path) : path :=
  match p with
  | [] => []
  | d :: rest => d :: rev (fold_left norm_step rest [])
  end.

(** [PurePath.name] and [PurePath.parent]. *)
Definition name (p : path) : string :=
  match p with [] | [_] => "" | _ => default "" (last p) end.

Definition parent (p : path) : path :=
  match p with [] => [] | [d] => [d] | _ => removelast p end.

(** [str(p)] of an absolute path and of a relative one. *)
Definition str_abs (p : path) : string :=
  match p with [] => "" | d :: rest => d +:+ "\" +:+ String.concat "\" rest end.

Definition str_rel (r : path) : string :=
  match r with [] => "." | _ => String.concat "\" r end.

(** [p.relative_to(root)]: lexical, comparing case-insensitively as
    Windows paths do; [ValueError] (here [None]) when [root] is not a prefix
    of [p]. *)
Definition relative_to (p root : path) : option path :=
  if bool_decide (map (map_chars lower) (take (length root) p) = map (map_chars lower) root)
  then Some (drop (length root) p) else None.

(** The characters [str.isspace] accepts (Python 3), UTF-8 encoded as
    model strings are: the ASCII controls 9-13 and 28-31, the space, and
    U+0085, U+00A0, U+1680, U+2000-U+200A, U+2028, U+2029, U+202F, U+205F,
    U+3000. *)
Definition space_chars : list (list nat) :=
  ([[9]; [10]; [11]; [12]; [13]; [28]; [29]; [30]; [31]; [32];
    [194; 133]; [194; 160]; [225; 154; 128]] ++
   map (fun n => [226; 128; n]) (seq 128 11) ++
   [[226; 128; 168]; [226; 128; 169]; [226; 128; 175]; [226; 129; 159]; [227; 128; 128]])%nat.

(** [w] (byte values) starts [l]. *)
Fixpoint is_prefix (w : list nat) (l : list ascii) : bool :=
  match w, l with
  | [], _ => true
  | n :: w', c :: l' => (n =? nat_of_ascii c)%nat && is_prefix w' l'
  | _ :: _, [] => false
  end.

(** The length of the first pattern of [ws] that starts [l] (0: none). *)
Fixpoint space_len (ws : list (list nat)) (l : list ascii) : nat :=
  match ws with
  | [] => 0%nat
  | w :: ws' => if is_prefix w l then length w else space_len ws' l
  end.

(** Drops leading characters matching [ws], one at a time ([fuel] bounds
    the number of characters). *)
Fixpoint lstrip_by (ws : list (list nat)) (fuel : nat) (l : list ascii) : list ascii :=
  match fuel with
  | O => l
  | S f => match space_len ws l with O => l | k => lstrip_by ws f (drop k l) end
  end.

(** [str.lstrip()] and [str.rstrip()] on the bytes of a string; the right
    end is stripped as the left end of the reversed bytes, with the reversed
    patterns. *)
Definition lstrip_bytes (l : list ascii) : list ascii := lstrip_by space_chars (length l) l.

Definition rstrip_bytes (l : list ascii) : list ascii :=
  rev (lstrip_by (map (@rev nat) space_chars) (length l) (rev l)).

(** [str.strip()]. *)
Definition strip (s : string) : string :=
  String.string_of_list_ascii (rstrip_bytes (lstrip_bytes (String.list_ascii_of_string s))).

(** ** The file system and the exception monad *)

Inductive node := File (data : bytes) | Dir.

Global Instance byte_eq_dec : EqDecision byte := Byte.byte_eq_dec.
Global Instance node_eq_dec : EqDecision node.
Proof. solve_decision. Defined.

Abbreviation fsys := (gmap path node).

(** The exceptions the code can raise. [OSError] stands for the [OSError]
    family (including [shutil.Error] and [shutil.SameFileError]). *)
Inductive exc :=
| BuildError (msg : string)
| OSError (what : string)
| ValueError (msg : string)
| UnicodeEncodeError
| StructError
| RecursionError.

Definition is_oserror (e : exc) : bool :=
  match e with OSError _ => true | _ => false end.

Definition M (A : Type) : Type := fsys -> fsys * (exc + A).

Global Instance M_ret : MRet M := fun A a s => (s, inr a).
Global Instance M_bind : MBind M := fun A B k m s =>
  match m s with
  | (s', inr a) => k a s'
  | (s', inl e) => (s', inl e)
  end.

Definition raise {A} (e : exc) : M A := fun s => (s, inl e).
Definition get : M fsys := fun s => (s, inr s).
Definition modify (f : fsys -> fsys) : M unit := fun s => (f s, inr ()).

(** [try: m except OSError: ...]: the handler's result when [m] raises an
    [OSError]; other exceptions propagate; the state reached is kept. *)
Definition catch_os {A} (m : M A) (handler : A) (ok : A -> A) : M A := fun s =>
  match m s with
  | (s', inl e) => if is_oserror e then (s', inr handler) else (s', inl e)
  | (s', inr a) => (s', inr (ok a))
  end.

Definition lookup_node (fs : fsys) (p : path) : option node := fs !! normalize p.

Definition path_exists (fs : fsys) (p : path) : bool :=
  match lookup_node fs p with Some _ => true | None => false end.

Definition is_file (fs : fsys) (p : path) : bool :=
  match lookup_node fs p with Some (File _) => true | _ => false end.

Definition is_dir (fs : fsys) (p : path) : bool :=
  match lookup_node fs p with Some Dir => true | _ => false end.

(** The entries of directory [d] (as [os.scandir] lists them, in the map's
    order): name and node. *)
Definition child_name (d k : path) : option string :=
  if bool_decide (length k = S (length d) /\ take (length d) k = d) then last k else None.

Definition children (fs : fsys) (d : path) : list (string * node) :=
  omap (fun kn : path * node => (fun c => (c, kn.2)) <$> child_name d kn.1) (map_to_list fs).

(** [Path.mkdir(parents=True, exist_ok=True)] and [os.makedirs(p, exist_ok=True)]:
    missing ancestors are created from the top; an ancestor that is a file
    raises. *)
Fixpoint mkdirs_from (done : path) (todo : list string) : M unit :=
  match todo with
  | [] => mret ()
  | c :: rest =>
      let q := done ++ [c] in
      fs ← get;
      match fs !! q with
      | Some Dir => mkdirs_from q rest
      | Some (File _) => raise (OSError "FileExistsError")
      | None => modify (<[q := Dir]>) ;; mkdirs_from q rest
      end
  end.

Definition mkdir_p (p : path) : M unit :=
  match normalize p with
  | [] => raise (OSError "FileNotFoundError")
  | d :: rest =>
      fs ← get;
      match fs !! [d] with
      | Some Dir => mkdirs_from [d] rest
      | _ => raise (OSError "FileNotFoundError")
      end
  end.

(** [open(p, "wb").write(b)]. *)
Definition write_file (p : path) (b : bytes) : M unit :=
  fs ← get;
  let q := normalize p in
  match fs !! q with
  | Some Dir => raise (OSError "PermissionError")
  | _ =>
      match fs !! parent q with
      | Some Dir => modify (<[q := File b]>)
      | _ => raise (OSError "FileNotFoundError")
      end
  end.

(** [Path.read_bytes()]. *)
Definition read_bytes (p : path) : M bytes :=
  fs ← get;
  match lookup_node fs p with
  | Some (File b) => mret b
  | Some Dir => raise (OSError "PermissionError")
  | None => raise (OSError "FileNotFoundError")
  end.

(** [shutil.copy2(src, dst)]: into [dst/name(src)] when [dst] is a
    directory; [SameFileError] when source and target are one file. *)
Definition copy2 (src dst : path) : M unit :=
  fs ← get;
  let s := normalize src in
  let d0 := normalize dst in
  let d := if is_dir fs d0 then d0 ++ [name s] else d0 in
  if bool_decide (s = d) then raise (OSError "SameFileError") else
  match fs !! s with
  | None => raise (OSError "FileNotFoundError")
  | Some Dir => raise (OSError "PermissionError")
  | Some (File b) => write_file d b
  end.

(** The loop of [shutil.copytree] over the listed entries of [s]: each
    entry is copied (directories with [copy_dir], files with [copy2]); an
    [OSError] of one entry is recorded and the loop goes on. The result tells
    whether an error was recorded. *)
Fixpoint copy_entries (copy_dir : path -> path -> M unit) (s dst : path)
    (es : list (string * node)) : M bool :=
  match es with
  | [] => mret false
  | (n, k) :: es' =>
      failed ← catch_os
        (match k with
         | Dir => copy_dir (s ++ [n]) (dst ++ [n])
         | File _ => copy2 (s ++ [n]) (dst ++ [n])
         end ;; mret false) true id;
      rest ← copy_entries copy_dir s dst es';
      mret (failed || rest)
  end.

(** [shutil.copytree(src, dst, dirs_exist_ok=True)]: list [src], make [dst]
    (merging into an existing directory), copy the entries; [shutil.Error]
    at the end if any entry failed. The fuel bounds the recursion depth
    ([RecursionError] when it runs out); [copytree_top] gives enough for any
    tree not copied into itself. *)
Fixpoint copytree (fuel : nat) (src dst : path) : M unit :=
  match fuel with
  | O => raise RecursionError
  | S f =>
      fs ← get;
      let s := normalize src in
      match fs !! s with
      | None => raise (OSError "FileNotFoundError")
      | Some (File _) => raise (OSError "NotADirectoryError")
      | Some Dir =>
          let entries := children fs s in
          mkdir_p dst ;;
          (failed ← copy_entries (copytree f) s dst entries;
           if (failed : bool) then raise (OSError "shutil.Error") else mret ())
      end
  end.

Definition copytree_top (src dst : path) : M unit :=
  fs ← get; copytree (S (size fs)) src dst.

(** ** Text helpers *)

Definition chr (n : nat) : string := String (ascii_of_nat n) EmptyString.
Definition nl : string := chr 10.
Definition crlf : string := chr 13 +:+ chr 10.

(** Text mode on Windows writes every ["\n"] as ["\r\n"]. *)
Fixpoint text_mode (s : string) : string :=
  match s with
  | EmptyString => EmptyString
  | String c s' =>
      if Ascii.eqb c (ascii_of_nat 10) then crlf +:+ text_mode s'
      else String c (text_mode s')
  end.

Fixpoint is_ascii (s : string) : bool :=
  match s with
  | EmptyString => true
  | String c s' => (nat_of_ascii c <? 128)%nat && is_ascii s'
  end.

Definition str_has (c : ascii) (s : string) : bool :=
  existsb (Ascii.eqb c) (String.list_ascii_of_string s).

Definition hex_digit (n : nat) : string :=
  if (n <? 10)%nat then chr (48 + n) else chr (87 + n).

(** [repr(s)] of a Python [str]. *)
Definition repr_char (q : ascii) (c : ascii) : string :=
  let n := nat_of_ascii c in
  if Ascii.eqb c "\"%char then "\\"
  else if Ascii.eqb c q then "\" +:+ String c EmptyString
  else if (n =? 10)%nat then "\n"
  else if (n =? 13)%nat then "\r"
  else if (n =? 9)%nat then "\t"
  else if ((n <? 32) || (n =? 127))%nat then "\x" +:+ hex_digit (n / 16) +:+ hex_digit (n mod 16)
  else String c EmptyString.

Definition py_repr (s : string) : string :=
  let dq := ascii_of_nat 34 in
  let q := if str_has "'"%char s && negb (str_has dq s) then dq else "'"%char in
  String q (String.concat "" (map (repr_char q) (String.list_ascii_of_string s)) +:+ String q EmptyString).

Fixpoint split_once (c : ascii) (s : string) : option (string * string) :=
  match s with
  | EmptyString => None
  | String c' s' =>
      if Ascii.eqb c c' then Some (EmptyString, s')
      else (fun '(a, b) => (String c' a, b)) <$> split_once c s'
  end.

Fixpoint insert_by (le : string -> string -> bool) (x : string) (l : list string) : list string :=
  match l with
  | [] => [x]
  | y :: l' => if le x y then x :: l else y :: insert_by le x l'
  end.

(** [sorted()] of the paths of one directory: Windows paths compare by
    their lower-cased text. *)
Definition sort_names (l : list string) : list string :=
  fold_right (insert_by (fun a b => String.leb (map_chars lower a) (map_chars lower b))) [] l.

(** [PurePath.suffix] and [PurePath.stem] (Python 3.12). *)
Fixpoint rfind_dot (s : string) (i : nat) (found : option nat) : option nat :=
  match s with
  | EmptyString => found
  | String c s' => rfind_dot s' (S i) (if Ascii.eqb c "."%char then Some i else found)
  end.

Definition suffix_start (n : string) : option nat :=
  match rfind_dot n 0 None with
  | Some i => if ((0 <? i) && (i <? String.length n - 1))%nat then Some i else None
  | None => None
  end.

Definition suffix (n : string) : string :=
  match suffix_start n with Some i => String.substring i (String.length n - i) n | None => "" end.

Definition stem (n : string) : string :=
  match suffix_start n with Some i => String.substring 0 i n | None => n end.

(** [p.with_suffix(sfx)] for a path with a name. *)
Definition with_suffix (p : path) (sfx : string) : path :=
  child (parent p) (stem (name p) +:+ sfx).

(** ** The build environment

    What [build] reads from outside its arguments: the current and home
    directories, [os.name], [shutil.which], the name [tempfile] picks, the
    outcome of the two [csc.exe] steps (external compiler runs) and the bytes
    [zipfile] writes for a list of members (timestamps and compression
    included, hence left abstract). *)
Record env := {
  cwd : path;
  home : path;
  is_nt : bool;
  which_prefix : option string;
  tmp_name : path;
  compile_stub_out : exc + bytes;
  convert_icon_out : exc + unit;
  zip_encode : list (string * bytes) -> bytes
}.

(** The parsed command line ([--verbose] only switches logging). *)
Record args := {
  pre_exe_arg : option string;
  main_file_arg : string;
  include_arg : list string;
  include_folder_arg : list string;
  main_dest_arg : string;
  output_arg : option string;
  icon_arg : option string
}.

Definition MANIFEST_NAME : string := "__main_path.txt".

Section Program.

Variable E : env.

(** [Path(s).expanduser().resolve()]. *)
Definition expand_resolve (s : string) : path :=
  match s with
  | String c rest =>
      if Ascii.eqb c "~"%char then
        let user := match split_seps rest "" with u :: _ => u | [] => "" end in
        let tl := String.substring (String.length user) (String.length rest) rest in
        let uh := if String.eqb user "" || String.eqb user (name (home E)) then home E
                  else child (parent (home E)) user in
        normalize (uh ++ parts_of tl)
      else normalize (join (cwd E) s)
  | EmptyString => normalize (join (cwd E) s)
  end.

Definition parse_mapping (raw : string) : M (path * string) :=
  match split_once ";"%char raw with
  | None => raise (BuildError ("Mapping must be of form 'source;dest_in_exe': " +:+ py_repr raw))
  | Some (src_raw, dest_raw) =>
      let src := expand_resolve src_raw in
      fs ← get;
      if negb (path_exists fs src)
      then raise (BuildError ("Included path does not exist: " +:+ str_abs src))
      else
        let dest := if String.eqb (strip dest_raw) "" then "." else strip dest_raw in
        mret (src, dest)
  end.

Definition rel_or_raise (p root : path) : M path :=
  match relative_to p root with
  | Some r => mret r
  | None => raise (ValueError (str_abs p +:+ " is not in the subpath of " +:+ str_abs root))
  end.

Definition copy_main (main_path : path) (dest_rel : string) (payload_root : path) : M string :=
  let dest_rel := if String.eqb (strip dest_rel) "" then "." else strip dest_rel in
  let target_dir := if String.eqb dest_rel "." then payload_root else join payload_root dest_rel in
  mkdir_p target_dir ;;
  let target_path := child target_dir (name main_path) in
  copy2 main_path target_path ;;
  r ← rel_or_raise target_path payload_root;
  mret (str_rel r).

(** The [log] calls format their message (with [relative_to]) even when
    logging is off, so a target outside the root raises there. *)
Fixpoint copy_includes (includes : list string) (payload_root : path) : M unit :=
  match includes with
  | [] => mret ()
  | entry :: rest =>
      '(src, dest_rel) ← parse_mapping entry;
      fs ← get;
      if negb (is_file fs src)
      then raise (BuildError ("Included file is not a file: " +:+ str_abs src))
      else
        let target_dir := if String.eqb dest_rel "." then payload_root
                          else join payload_root dest_rel in
        mkdir_p target_dir ;;
        let target_path := child target_dir (name src) in
        rel_or_raise target_path payload_root ;;
        copy2 src target_path ;;
        copy_includes rest payload_root
  end.

Fixpoint copy_include_folders (folders : list string) (payload_root : path) : M unit :=
  match folders with
  | [] => mret ()
  | entry :: rest =>
      '(src, dest_rel) ← parse_mapping entry;
      fs ← get;
      if negb (is_dir fs src)
      then raise (BuildError ("Included folder is not a directory: " +:+ str_abs src))
      else
        let target_dir := if String.eqb dest_rel "." then child payload_root (name src)
                          else join payload_root dest_rel in
        rel_or_raise target_dir payload_root ;;
        copytree_top src target_dir ;;
        copy_include_folders rest payload_root
  end.

Fixpoint copy_runtime_entries (runtime_dir payload_root : path) (names : list string) : M unit :=
  match names with
  | [] => mret ()
  | n :: ns =>
      if String.eqb n ".git" || String.eqb n ".gitignore" then
        copy_runtime_entries runtime_dir payload_root ns
      else
        let entry := child runtime_dir n in
        let target := child payload_root n in
        fs ← get;
        (if is_dir fs entry then copytree_top entry target else copy2 entry target) ;;
        copy_runtime_entries runtime_dir payload_root ns
  end.

Definition copy_pre_runtime (pre_exe payload_root : path) : M unit :=
  fs ← get;
  if negb (path_exists fs pre_exe) || negb (is_file fs pre_exe)
  then raise (BuildError ("prefix.exe not found: " +:+ str_abs pre_exe))
  else
    let runtime_dir := parent pre_exe in
    copy_runtime_entries runtime_dir payload_root
      (sort_names (map fst (children fs (normalize runtime_dir)))).

(** [Path.write_text(s, encoding="ascii")]: the file is opened (truncated)
    before the text is encoded. *)
Definition write_text_ascii (p : path) (s : string) : M unit :=
  write_file p [] ;;
  if is_ascii (text_mode s) then write_file p (String.list_byte_of_string (text_mode s))
  else raise UnicodeEncodeError.

Definition write_manifest (payload_root : path) (main_rel_path : string) : M unit :=
  write_text_ascii (child payload_root MANIFEST_NAME) (main_rel_path +:+ nl).

End Program.

(** ** Archive, assembly and the build *)

(** The entries under [root] that [root.rglob("*")] yields, with their
    path relative to [root] (in the map's order). *)
Definition under (root k : path) : option path :=
  if bool_decide (take (length root) k = root /\ (length root < length k)%nat)
  then Some (drop (length root) k) else None.

Definition rglob_all (fs : fsys) (root : path) : list (path * node) :=
  omap (fun kn : path * node => (fun r => (r, kn.2)) <$> under root kn.1) (map_to_list fs).

(** [ZipInfo.from_file] turns [str(arcname)] into the member name by
    replacing [os.sep] with ["/"] ([normpath] leaves these names as they are). *)
Definition replace_sep (s : string) : string :=
  map_chars (fun c => if Ascii.eqb c "\"%char then "/"%char else c) s.

Definition arcname (rel : path) : string := replace_sep (str_rel rel).

(** The members [build_payload_zip] adds: every non-directory, with its
    relative path as name and its bytes. *)
Definition zip_members (fs : fsys) (root : path) : list (string * bytes) :=
  omap (fun rn : path * node =>
          match rn.2 with File b => Some (arcname rn.1, b) | Dir => None end)
       (rglob_all fs root).

(** [open(p, "ab").write(b)] on an open output file. *)
Definition append_file (p : path) (b : bytes) : M unit :=
  cur ← read_bytes p; write_file p (cur ++ b).

Definition assemble_exe (stub_path payload_zip output_path : path) : M unit :=
  payload_bytes ← read_bytes payload_zip;
  let payload_len := Z.of_nat (length payload_bytes) in
  let sha256_digest := SHA256.digest payload_bytes in
  (* with stub_path.open("rb"), output_path.open("wb"): *)
  read_bytes stub_path ;;
  write_file output_path [] ;;
  (* shutil.copyfileobj reads the stub through its handle *)
  stub ← read_bytes stub_path;
  append_file output_path stub ;;
  append_file output_path payload_bytes ;;
  match pack_Q payload_len with
  | None => raise StructError
  | Some len_bytes =>
      append_file output_path len_bytes ;;
      append_file output_path sha256_digest ;;
      append_file output_path MARKER
  end.

(** [Path.write_text(s, encoding="utf-8")]; model strings are already bytes. *)
Definition write_text_utf8 (p : path) (s : string) : M unit :=
  write_file p [] ;; write_file p (String.list_byte_of_string (text_mode s)).

Fixpoint prex_lines (fs : fsys) (ext_dir : path) (names : list string) : list string :=
  match names with
  | [] => []
  | n :: ns =>
      if is_file fs (child ext_dir n) && String.eqb (suffix n) ".py"
      then ("ext\" +:+ n) :: prex_lines fs ext_dir ns
      else prex_lines fs ext_dir ns
  end.

Definition generate_prex (payload_root : path) : M unit :=
  let ext_dir := child payload_root "ext" in
  fs ← get;
  if path_exists fs ext_dir && is_dir fs ext_dir then
    let lines := prex_lines fs ext_dir (sort_names (map fst (children fs (normalize ext_dir)))) in
    match lines with
    | [] => mret ()
    | _ => write_text_utf8 (child payload_root ".prex") (String.concat nl lines +:+ nl)
    end
  else mret ().

Fixpoint copy_first_pointer (cands : list path) (payload_root : path) : M unit :=
  match cands with
  | [] => generate_prex payload_root
  | pc :: cs =>
      fs ← get;
      if path_exists fs pc then copy2 pc (child payload_root ".prex")
      else copy_first_pointer cs payload_root
  end.

(** The [.prex] block of [build], inside [try: ... except OSError: pass]. *)
Definition prex_step (main_file payload_root : path) : M unit :=
  catch_os
    (copy_first_pointer [child (parent main_file) ".prex"; with_suffix main_file ".prex"]
       payload_root) () id.

Section Build.

Variable E : env.

Definition compile_stub (tmpdir : path) : M path :=
  match compile_stub_out E with
  | inl e => raise e
  | inr b => write_file (child tmpdir "stub.exe") b ;; mret (child tmpdir "stub.exe")
  end.

(** [os.mkdir(d)] as [tempfile.mkdtemp] calls it. *)
Definition mkdir_one (d : path) : M unit :=
  fs ← get;
  let q := normalize d in
  match fs !! q, fs !! parent q with
  | None, Some Dir => modify (<[q := Dir]>)
  | Some _, _ => raise (OSError "FileExistsError")
  | None, _ => raise (OSError "FileNotFoundError")
  end.

(** [rmtree] of the temporary directory, errors ignored. *)
Definition remove_tree (d : path) (fs : fsys) : fsys :=
  filter (fun kn : path * node => take (length d) kn.1 <> d) fs.

(** [with tempfile.TemporaryDirectory() as tmpdir: body]: the directory is
    removed on every exit, the body's exception then propagates. *)
Definition with_tempdir (body : path -> M unit) : M unit := fun fs =>
  let d := tmp_name E in
  match mkdir_one d fs with
  | (fs1, inl e) => (fs1, inl e)
  | (fs1, inr _) =>
      let '(fs2, r) := body d fs1 in (remove_tree (normalize d) fs2, r)
  end.

Definition build_in_tmp (pre_exe main_file : path) (main_dest_rel : string)
    (includes folders : list string) (icon : option string) (output_path tmpdir : path) : M unit :=
  let payload_root := child tmpdir "payload" in
  mkdir_p payload_root ;;
  copy_pre_runtime pre_exe payload_root ;;
  main_rel_path ← copy_main main_file main_dest_rel payload_root;
  prex_step main_file payload_root ;;
  (match includes with [] => mret () | _ => copy_includes E includes payload_root end) ;;
  (match folders with [] => mret () | _ => copy_include_folders E folders payload_root end) ;;
  write_manifest payload_root main_rel_path ;;
  let payload_zip := child tmpdir "payload.zip" in
  (fs ← get;
   write_file payload_zip [] ;;
   write_file payload_zip (zip_encode E (zip_members fs payload_root))) ;;
  (match icon with
   | Some i =>
       if String.eqb i "" then mret ()
       else match convert_icon_out E with inl e => raise e | inr _ => mret () end
   | None => mret ()
   end) ;;
  stub_exe ← compile_stub tmpdir;
  mkdir_p (parent output_path) ;;
  assemble_exe stub_exe payload_zip output_path.

(** [Path(args.output).expanduser().resolve() if args.output else
    default_output.resolve()]: an empty [--output] counts as absent. *)
Definition output_path_of (a : args) : path :=
  let main_file := expand_resolve E (main_file_arg a) in
  let default_output := normalize (child (cwd E) (stem (name main_file) +:+ ".exe")) in
  match output_arg a with
  | Some o => if String.eqb o "" then default_output else expand_resolve E o
  | None => default_output
  end.

Definition build (a : args) : M unit :=
  if negb (is_nt E) then raise (BuildError "This builder only supports Windows 10+.") else
  pre_exe ← match pre_exe_arg a with
            | None =>
                match which_prefix E with
                | None => raise (BuildError
                    "prefix.exe not provided and not found on PATH; provide its path or install prefix.")
                | Some found => mret (expand_resolve E found)
                end
            | Some p => mret (expand_resolve E p)
            end;
  let main_file := expand_resolve E (main_file_arg a) in
  let main_dest_rel := if String.eqb (strip (main_dest_arg a)) "" then "." else strip (main_dest_arg a) in
  let output_path := output_path_of a in
  fs ← get;
  if negb (path_exists fs main_file) || negb (is_file fs main_file)
  then raise (BuildError ("Main script not found: " +:+ str_abs main_file))
  else with_tempdir (build_in_tmp pre_exe main_file main_dest_rel
                       (include_arg a) (include_folder_arg a) (icon_arg a) output_path).

End Build.

(** [if __name__ == "__main__"]: a [BuildError] is printed and exits 1; any
    other exception is uncaught, so Python prints a traceback and exits 1. *)
Definition main_exit_code (r : exc + unit) : nat :=
  match r with inr _ => 0 | inl _ => 1 end%nat.

Definition main_stderr (r : exc + unit) : string :=
  match r with
  | inr _ => ""
  | inl (BuildError m) => "Error: " +:+ m
  | inl _ => "Traceback"
  end.

(** ** Sample inputs

    A small Windows file system used to evaluate the definitions: a runtime
    directory [C:\rt] holding [prefix.exe], a [lib] folder and git files, a
    script [C:\src\main.x] and two folders [C:\a] and [C:\b], and an empty
    payload root [C:\t\payload]. *)
Definition ex_root : path := ["C:"; "t"; "payload"].
Definition ex_main : path := ["C:"; "src"; "main.x"].

Definition ex_fs : fsys :=
  list_to_map [
    (["C:"], Dir); (["C:"; "t"], Dir); (["C:"; "t"; "payload"], Dir);
    (["C:"; "src"], Dir); (["C:"; "src"; "main.x"], File [x61]);
    (["C:"; "rt"], Dir); (["C:"; "rt"; "prefix.exe"], File [x4d; x5a]);
    (["C:"; "rt"; ".gitignore"], File [x2a]);
    (["C:"; "rt"; ".git"], Dir); (["C:"; "rt"; ".git"; "HEAD"], File [x72]);
    (["C:"; "rt"; "lib"], Dir); (["C:"; "rt"; "lib"; "std.x"], File [x73]);
    (["C:"; "a"], Dir); (["C:"; "a"; "x"], File [x31]);
    (["C:"; "b"], Dir); (["C:"; "b"; "x"], Dir); (["C:"; "b"; "x"; "y"], File [x32]);
    (["C:"; "c"], Dir); (["C:"; "c"; "x"], File [x33])].

(** Arguments naming a main script that does not exist. *)
Definition ex_args : args := {|
  pre_exe_arg := Some "C:\rt\prefix.exe";
  main_file_arg := "C:\src\missing.x";
  include_arg := [];
  include_folder_arg := [];
  main_dest_arg := ".";
  output_arg := None;
  icon_arg := None
|}.

Definition ex_env : env := {|
  cwd := ["C:"; "w"]; home := ["C:"; "Users"; "u"]; is_nt := true;
  which_prefix := None; tmp_name := ["C:"; "t"; "tmp1"];
  compile_stub_out := inr [x4d; x5a]; convert_icon_out := inr ();
  zip_encode := fun _ => [x50; x4b] |}.

(** ** Predicates used in the statements and proofs *)

Definition raises_only (P : exc -> Prop) {A} (m : M A) : Prop :=
  forall s s' e, m s = (s', inl e) -> P e.

Definition os_exc (e : exc) : Prop := is_oserror e = true.
Definition os_or_rec (e : exc) : Prop := is_oserror e = true \/ e = RecursionError.

(** A component that resolution keeps as it is. *)
Definition good (c : string) : bool :=
  negb (String.eqb c "") && negb (String.eqb c ".") && negb (String.eqb c "..").

Definition good_parts (l : list string) : Prop := Forall (fun c => good c = true) l.

(** [k] lies in the subtree rooted at [r] ([r] itself included). *)
Definition inside (r k : path) : Prop := take (length r) k = r.

(** [m] changes only entries whose path satisfies [P]. *)
Definition frame0 (P : path -> Prop) {A} (m : M A) : Prop :=
  forall s s' r, m s = (s', r) -> forall k, s' !! k <> s !! k -> P k.

(** Every entry is keyed by a resolved path: a drive and components that
    resolution keeps. *)
Definition wf (s : fsys) : Prop :=
  forall k v, s !! k = Some v -> k <> [] /\ good_parts (tail k).

(** [m] keeps the keys resolved and never removes or replaces a directory. *)
Definition keeps {A} (m : M A) : Prop :=
  forall s s' r, m s = (s', r) -> wf s -> wf s' /\ forall k, s !! k = Some Dir -> s' !! k = Some Dir.

(** [m], run on a resolved file system, changes only entries whose path
    satisfies [P]. *)
Definition frame (P : path -> Prop) {A : Type} (m : M A) : Prop :=
  forall s s' r, wf s -> m s = (s', r) -> forall k, s' !! k <> s !! k -> P k.

(** The entries a copy into [t] may change: ancestors of [t] (created when
    missing), [t] itself and what lies under it. *)
Definition near (t k : path) : Prop := inside k t \/ inside t k.

(** A computation that only reads the file system. *)
Definition readonly {A} (m : M A) : Prop := forall s s' r, m s = (s', r) -> s' = s.

(** The payload root's ancestors are all directories. *)
Definition chain (root : path) (s : fsys) : Prop :=
  forall i, (0 < i < length root)%nat -> s !! take i root = Some Dir.

(** Run on a resolved file system in which the ancestors of [root] are
    directories, [m] changes only [root] and entries under it (also when it
    raises). *)
Definition stays_in (root : path) {A : Type} (m : M A) : Prop :=
  forall s s' r, wf s -> chain root s -> m s = (s', r) ->
  forall k, s' !! k <> s !! k -> inside root k.

(** A destination that [join] keeps under the payload root: no drive, no
    leading separator and no [..] component. *)
Definition contained_dest (d : string) : bool :=
  match split_drive d with
  | Some _ => false
  | None => negb (rooted d) && forallb (fun c => negb (String.eqb c "..")) (parts_of d)
  end.

(** The destination of a [source;dest] mapping is contained (a string with
    no [;] is refused before anything is copied). *)
Definition mapping_dest_ok (raw : string) : bool :=
  match split_once ";"%char raw with
  | Some (_, d) => contained_dest (strip d)
  | None => true
  end.

(** [m] returns only results satisfying [Q]. *)
Definition post {A} (Q : A -> Prop) (m : M A) : Prop :=
  forall s s' a, m s = (s', inr a) -> Q a.

(** [m], run on a resolved file system, changes an entry whose path does
    not satisfy [P] only by creating it (a missing directory). *)
Definition grows (P : path -> Prop) {A : Type} (m : M A) : Prop :=
  forall s s' r, wf s -> m s = (s', r) ->
  forall k, s' !! k <> s !! k -> P k \/ s !! k = None.

(** The bytes [b] were copied to [k]: [k] is that file, or [k] is a
    directory and [copy2] put the file into it under the same name. *)
Definition copied (s : fsys) (k : path) (b : bytes) : Prop :=
  s !! k = Some (File b) \/ (s !! k = Some Dir /\ s !! (k ++ [name k]) = Some (File b)).

(** The walk from [src] down to [src ++ rel] meets directories only. *)
Definition reach (s : fsys) (src rel : path) : Prop :=
  forall i, (0 < i < length rel)%nat -> s !! (src ++ take i rel) = Some Dir.

(** The subtree of [a] is disjoint from what a copy into [t] may change. *)
Definition apart (a t : path) : Prop := forall k, inside a k -> ~ near t k.

(** The source and the target directory that [copy_include_folders] uses
    for one [source;dest] mapping (the same computation as the loop body). *)
Definition folder_target (E : env) (raw : string) (root : path) : option (path * path) :=
  match split_once ";"%char raw with
  | None => None
  | Some (src_raw, dest_raw) =>
      let src := expand_resolve E src_raw in
      let dest := if String.eqb (strip dest_raw) "" then "." else strip dest_raw in
      Some (src, if String.eqb dest "." then child root (name src) else join root dest)
  end.

(** ** Finding the C# compiler and converting the icon *)

(** [sorted(paths, reverse=True)] of the entries of one directory:
    descending by lower-cased text; a reverse sort in Python keeps equal
    items in their original order. *)
Definition desc_le (a b : string) : bool := String.leb (map_chars lower b) (map_chars lower a).

Definition sort_names_desc (l : list string) : list string :=
  fold_right (insert_by desc_le) [] l.

(** [windir / "Microsoft.NET" / framework_root], with
    [windir = Path(os.environ.get("WINDIR", "C:\\Windows"))]. A relative
    [WINDIR] is read against the current directory, as the file system
    calls on it do. *)
Definition csc_base (E : env) (windir_env : option string) (framework_root : string) : path :=
  child (child (join (cwd E) (default "C:\Windows" windir_env)) "Microsoft.NET") framework_root.

(** The inner loop of [find_csc]: [sub / "csc.exe"] for each listed [sub],
    kept when it exists. *)
Fixpoint csc_candidates (fs : fsys) (base : path) (subs : list string) : list path :=
  match subs with
  | [] => []
  | sub :: ss =>
      let csc_path := child (child base sub) "csc.exe" in
      if path_exists fs csc_path then csc_path :: csc_candidates fs base ss
      else csc_candidates fs base ss
  end.

(** One framework root: skipped when missing; [iterdir] of a file raises
    [NotADirectoryError]. *)
Definition framework_candidates (fs : fsys) (base : path) : M (list path) :=
  if negb (path_exists fs base) then mret []
  else if is_file fs base then raise (OSError "NotADirectoryError")
  else mret (csc_candidates fs base (sort_names_desc (map fst (children fs (normalize base))))).

Definition find_csc (E : env) (windir_env : option string) : M (option path) :=
  fs ← get;
  c64 ← framework_candidates fs (csc_base E windir_env "Framework64");
  c32 ← framework_candidates fs (csc_base E windir_env "Framework");
  mret (head (c64 ++ c32)).

(** What [subprocess.run(cmd, capture_output=..., text=True)] returns. *)
Record completed := {
  returncode : Z;
  stdout : string;
  stderr : string
}.

Section Icon.

Variable E : env.
Variable windir_env : option string.
(** [Path(__file__).parent]. *)
Variable script_dir : path.
(** Running an external program: it may change the file system, and
    starting it may raise. *)
Variable run : list string -> M completed.

Definition convert_image_to_ico (icon : string) (tmp_dir : path) : M path :=
  let icon_path := expand_resolve E icon in
  fs ← get;
  if negb (path_exists fs icon_path)
  then raise (BuildError ("Icon file not found: " +:+ str_abs icon_path))
  else if String.eqb (map_chars lower (suffix (name icon_path))) ".ico" then mret icon_path
  else
    csc ← find_csc E windir_env;
    match csc with
    | None => raise (BuildError "Could not find csc.exe to compile the image-to-ico converter.")
    | Some csc_path =>
        let converter_exe := child tmp_dir "gen_ico.exe" in
        let out_ico := child tmp_dir "icon.ico" in
        let source_path := child script_dir "gen_ico.cs" in
        fs1 ← get;
        if negb (path_exists fs1 source_path)
        then raise (BuildError ("Image converter source not found: " +:+ str_abs source_path))
        else
          res ← run [str_abs csc_path; "/nologo"; "/target:exe"; "/out:" +:+ str_abs converter_exe;
                     "/optimize+"; "/r:System.Drawing.dll"; str_abs source_path];
          if negb (returncode res =? 0)%Z
          then raise (BuildError ("Failed to compile image converter: " +:+
                                  stdout res +:+ nl +:+ stderr res))
          else
            run_res ← run [str_abs converter_exe; str_abs icon_path; str_abs out_ico];
            if negb (returncode run_res =? 0)%Z
            then raise (BuildError ("Image converter failed: " +:+
                                    stdout run_res +:+ nl +:+ stderr run_res))
            else
              fs2 ← get;
              if negb (path_exists fs2 out_ico)
              then raise (BuildError "Image converter did not produce an ICO file.")
              else mret out_ico
    end.

End Icon.

(** Sample inputs for the build and [find_csc] proofs: arguments naming the
    sample script with one included file and one included folder, and a .NET
    directory with three Framework64 versions (two of them with [csc.exe])
    and one Framework version. *)
Definition ex_build_args : args := {|
  pre_exe_arg := Some "C:\rt\prefix.exe";
  main_file_arg := "C:\src\main.x";
  include_arg := ["C:\a\x;lib"];
  include_folder_arg := ["C:\b;data"];
  main_dest_arg := "scripts";
  output_arg := None;
  icon_arg := None
|}.

Definition ex_dotnet_fs : fsys :=
  list_to_map [
    (["C:"], Dir); (["C:"; "Windows"], Dir); (["C:"; "Windows"; "Microsoft.NET"], Dir);
    (["C:"; "Windows"; "Microsoft.NET"; "Framework64"], Dir);
    (["C:"; "Windows"; "Microsoft.NET"; "Framework64"; "v2.0.50727"], Dir);
    (["C:"; "Windows"; "Microsoft.NET"; "Framework64"; "v4.0.30319"], Dir);
    (["C:"; "Windows"; "Microsoft.NET"; "Framework64"; "v4.0.30319"; "csc.exe"], File [x4d; x5a]);
    (["C:"; "Windows"; "Microsoft.NET"; "Framework64"; "v10.0"], Dir);
    (["C:"; "Windows"; "Microsoft.NET"; "Framework64"; "v10.0"; "csc.exe"], File [x4d; x5a]);
    (["C:"; "Windows"; "Microsoft.NET"; "Framework"], Dir);
    (["C:"; "Windows"; "Microsoft.NET"; "Framework"; "v4.0.30319"], Dir);
    (["C:"; "Windows"; "Microsoft.NET"; "Framework"; "v4.0.30319"; "csc.exe"], File [x4d; x5a])].

(** A .NET directory whose version folders hold no [csc.exe]. *)
Definition ex_nocsc_fs : fsys :=
  list_to_map [
    (["C:"], Dir); (["C:"; "Windows"], Dir); (["C:"; "Windows"; "Microsoft.NET"], Dir);
    (["C:"; "Windows"; "Microsoft.NET"; "Framework64"], Dir);
    (["C:"; "Windows"; "Microsoft.NET"; "Framework64"; "v2.0.50727"], Dir);
    (["C:"; "Windows"; "Microsoft.NET"; "Framework64"; "v2.0.50727"; "mscorlib.dll"], File [x4d; x5a]);
    (["C:"; "Windows"; "Microsoft.NET"; "Framework"], Dir);
    (["C:"; "Windows"; "Microsoft.NET"; "Framework"; "v1.1.4322"], Dir);
    (["C:"; "Windows"; "Microsoft.NET"; "Framework"; "v1.1.4322"; "vbc.exe"], File [x4d; x5a])].

(** * Proofs *)

(** ** Sanity checks of the model: SHA-256 test vectors and [join] *)

Example sha256_abc :
  hex_of (SHA256.digest (String.list_byte_of_string "abc")) =
  [0xba; 0x78; 0x16; 0xbf; 0x8f; 0x01; 0xcf; 0xea; 0x41; 0x41; 0x40; 0xde;
   0x5d; 0xae; 0x22; 0x23; 0xb0; 0x03; 0x61; 0xa3; 0x96; 0x17; 0x7a; 0x9c;
   0xb4; 0x10; 0xff; 0x61; 0xf2; 0x00; 0x15; 0xad].
Proof. vm_compute. reflexivity. Qed.

Example sha256_empty :
  hex_of (SHA256.digest []) =
  [0xe3; 0xb0; 0xc4; 0x42; 0x98; 0xfc; 0x1c; 0x14; 0x9a; 0xfb; 0xf4; 0xc8;
   0x99; 0x6f; 0xb9; 0x24; 0x27; 0xae; 0x41; 0xe4; 0x64; 0x9b; 0x93; 0x4c;
   0xa4; 0x95; 0x99; 0x1b; 0x78; 0x52; 0xb8; 0x55].
Proof. vm_compute. reflexivity. Qed.

Example sha256_two_blocks :
  hex_of (SHA256.digest (String.list_byte_of_string
    "abcdbcdecdefdefgefghfghighijhijkijkljklmklmnlmnomnopnopq")) =
  [0x24; 0x8d; 0x6a; 0x61; 0xd2; 0x06; 0x38; 0xb8; 0xe5; 0xc0; 0x26; 0x93;
   0x0c; 0x3e; 0x60; 0x39; 0xa3; 0x3c; 0xe4; 0x59; 0x64; 0xff; 0x21; 0x67;
   0xf6; 0xec; 0xed; 0xd4; 0x19; 0xdb; 0x06; 0xc1].
Proof. vm_compute. reflexivity. Qed.

Example join_examples :
  join ["C:"; "tmp"; "payload"] "scripts" = ["C:"; "tmp"; "payload"; "scripts"] /\
  join ["C:"; "tmp"; "payload"] "./a\b/" = ["C:"; "tmp"; "payload"; "a"; "b"] /\
  join ["C:"; "tmp"; "payload"] "\abs" = ["C:"; "abs"] /\
  join ["C:"; "tmp"; "payload"] "D:\x" = ["D:"; "x"] /\
  join ["C:"; "tmp"; "payload"] "c:x" = ["c:"; "tmp"; "payload"; "x"] /\
  normalize (join ["C:"; "tmp"; "payload"] "..") = ["C:"; "tmp"] /\
  strip "  a b " = "a b".
Proof. vm_compute. repeat split. Qed.

(** [str.strip()] removes the ASCII separators 28-31 and the Unicode spaces
    (here U+00A0 and U+3000, UTF-8 encoded) and keeps other characters
    (here U+00E9). *)
Example strip_examples :
  strip (String (ascii_of_nat 28) "..") = ".." /\
  strip (String (ascii_of_nat 31) "\abs") = "\abs" /\
  strip (String (ascii_of_nat 194) (String (ascii_of_nat 160) "scripts" +:+
         String (ascii_of_nat 227) (String (ascii_of_nat 128) (String (ascii_of_nat 128) "")))) = "scripts" /\
  strip ("caf" +:+ String (ascii_of_nat 195) (String (ascii_of_nat 169) " ")) =
    "caf" +:+ String (ascii_of_nat 195) (String (ascii_of_nat 169) "").
Proof. vm_compute. repeat split. Qed.

(** ** The monad *)

Lemma bind_inr {A B} (m : M A) (k : A -> M B) s s' (b : B) :
  (m ≫= k) s = (s', inr b) -> exists s1 a, m s = (s1, inr a) /\ k a s1 = (s', inr b).
Proof. unfold mbind, M_bind. destruct (m s) as [s1 [e|a]]; [discriminate | eauto]. Qed.

Lemma bind_run {A B} (m : M A) (k : A -> M B) s s1 a :
  m s = (s1, inr a) -> (m ≫= k) s = k a s1.
Proof. intros H. unfold mbind, M_bind. rewrite H. reflexivity. Qed.

Lemma bind_err {A B} (m : M A) (k : A -> M B) s s1 e :
  m s = (s1, inl e) -> (m ≫= k) s = (s1, inl e).
Proof. intros H. unfold mbind, M_bind. rewrite H. reflexivity. Qed.

Lemma ret_inr {A} (a : A) s s' a' : (mret a : M A) s = (s', inr a') -> s' = s /\ a' = a.
Proof. unfold mret, M_ret. intros H. inversion H. auto. Qed.

Lemma raise_inr {A} (e : exc) s s' (b : A) : @raise A e s = (s', inr b) -> False.
Proof. unfold raise. discriminate. Qed.

Lemma get_inr s s' f : get s = (s', inr f) -> s' = s /\ f = s.
Proof. unfold get. intros H. inversion H. auto. Qed.

Lemma modify_inr f s s' u : modify f s = (s', inr u) -> s' = f s.
Proof. unfold modify. intros H. inversion H. auto. Qed.

(** A run is determined by its final state and its result; used to state a
    run's result without writing its final state out. *)
Lemma run_snd {A B} (p : A * B) (b : B) : p.2 = b -> p = (p.1, b).
Proof. destruct p; simpl; intros ->; reflexivity. Qed.

Ltac inv_M :=
  repeat match goal with
  | H : @mbind _ _ _ _ _ _ _ = (_, inr _) |- _ =>
      let s := fresh "s" in let a := fresh "a" in let H1 := fresh "H" in
      apply bind_inr in H; destruct H as (s & a & H1 & H)
  | H : get _ = (_, inr _) |- _ => apply get_inr in H; destruct H; subst
  | H : @mret _ _ _ _ _ = (_, inr _) |- _ => apply ret_inr in H; destruct H; subst
  | H : modify _ _ = (_, inr _) |- _ => apply modify_inr in H; subst
  | H : @raise _ _ _ = (_, inr _) |- _ => apply raise_inr in H; contradiction
  end.

Lemma read_bytes_inr p s s' b :
  read_bytes p s = (s', inr b) -> s' = s /\ s !! normalize p = Some (File b).
Proof.
  unfold read_bytes, lookup_node. intros H. inv_M.
  repeat case_match; inv_M; auto.
Qed.

Lemma write_file_inr p b s s' u :
  write_file p b s = (s', inr u) ->
  s' = <[normalize p := File b]> s /\ s !! parent (normalize p) = Some Dir /\
  s !! normalize p <> Some Dir.
Proof.
  unfold write_file. intros H. inv_M.
  repeat case_match; inv_M; repeat split; congruence.
Qed.

Lemma append_file_inr p b s s' u :
  append_file p b s = (s', inr u) ->
  exists cur, s !! normalize p = Some (File cur) /\ s' = <[normalize p := File (cur ++ b)]> s.
Proof.
  unfold append_file. intros H. inv_M.
  apply read_bytes_inr in H0 as [-> Hc].
  apply write_file_inr in H as (-> & _ & _). eauto.
Qed.

(** ** The footer written by [assemble_exe] *)

Lemma drop_suffix {A} (a b : list A) : drop (length (a ++ b) - length b) (a ++ b) = b.
Proof.
  rewrite length_app. replace (length a + length b - length b)%nat with (length a) by lia.
  apply drop_app_length.
Qed.

Lemma digest_length data : length (SHA256.digest data) = 32%nat.
Proof. reflexivity. Qed.

Lemma pack_Q_length n b : pack_Q n = Some b -> length b = 8%nat.
Proof.
  unfold pack_Q. destruct (_ && _); intros H; inversion H; subst. reflexivity.
Qed.

Lemma pack_Q_ok n :
  0 <= n < 2 ^ 64 -> pack_Q n = Some (le64 n).
Proof.
  intros Hn. unfold pack_Q.
  replace ((0 <=? n) && (n <? 2 ^ 64)) with true; [reflexivity|].
  symmetry. apply andb_true_intro. split; [apply Z.leb_le | apply Z.ltb_lt]; lia.
Qed.

Lemma pack_Q_some n b : pack_Q n = Some b -> b = le64 n.
Proof. unfold pack_Q. destruct (_ && _); intros H; inversion H; reflexivity. Qed.

Lemma footer_length le data :
  length le = 8%nat -> length (le ++ SHA256.digest data ++ MARKER) = FOOTER_LEN.
Proof. intros H. rewrite !length_app, H, digest_length. reflexivity. Qed.

(** Whenever [assemble_exe] completes, the archive it read is followed in
    the output by its 8-byte length, its digest and [MARKER]. *)
Lemma assemble_exe_inv sp zp op fs fs' :
  assemble_exe sp zp op fs = (fs', inr ()) ->
  exists launcher archive le,
    fs !! normalize zp = Some (File archive) /\
    pack_Q (Z.of_nat (length archive)) = Some le /\
    fs' !! normalize op = Some (File (launcher ++ archive ++ le ++ SHA256.digest archive ++ MARKER)).
Proof.
  unfold assemble_exe. intros H.
  apply bind_inr in H as (s1 & archive & Hz & H); cbv beta zeta in H.
  apply read_bytes_inr in Hz as [-> Hz].
  apply bind_inr in H as (s2 & x & Hs & H); cbv beta in H.
  apply read_bytes_inr in Hs as [-> _].
  apply bind_inr in H as (s3 & [] & Ht & H); cbv beta in H.
  apply write_file_inr in Ht as (-> & _ & _).
  apply bind_inr in H as (s4 & launcher & Hs & H); cbv beta in H.
  apply read_bytes_inr in Hs as [-> _].
  apply bind_inr in H as (s5 & [] & H1 & H); cbv beta in H.
  apply append_file_inr in H1 as (c1 & Hc1 & ->).
  apply bind_inr in H as (s6 & [] & H2 & H); cbv beta in H.
  apply append_file_inr in H2 as (c2 & Hc2 & ->).
  destruct (pack_Q _) as [le|] eqn:Hq; [|inv_M].
  apply bind_inr in H as (s7 & [] & H3 & H); cbv beta in H.
  apply append_file_inr in H3 as (c3 & Hc3 & ->).
  apply bind_inr in H as (s8 & [] & H4 & H); cbv beta in H.
  apply append_file_inr in H4 as (c4 & Hc4 & ->).
  apply append_file_inr in H as (c5 & Hc5 & ->).
  rewrite lookup_insert_eq in Hc5, Hc4, Hc3, Hc2; rewrite lookup_insert_eq in Hc1.
  simplify_eq.
  exists launcher, archive, le. rewrite lookup_insert_eq. repeat split; auto.
  f_equal. rewrite <- !app_assoc. reflexivity.
Qed.

Lemma read_bytes_run p s b :
  s !! normalize p = Some (File b) -> read_bytes p s = (s, inr b).
Proof. intros H. unfold read_bytes, lookup_node, mbind, M_bind, get. rewrite H. reflexivity. Qed.

Lemma write_file_run p b s :
  s !! parent (normalize p) = Some Dir -> s !! normalize p <> Some Dir ->
  write_file p b s = (<[normalize p := File b]> s, inr ()).
Proof.
  intros Hp Hd. unfold write_file, mbind, M_bind, get, modify.
  destruct (s !! normalize p) as [[c|]|]; [| congruence |]; rewrite Hp; reflexivity.
Qed.

Lemma append_file_run p b s c :
  s !! normalize p = Some (File c) -> s !! parent (normalize p) = Some Dir ->
  append_file p b s = (<[normalize p := File (c ++ b)]> s, inr ()).
Proof.
  intros Hc Hp. unfold append_file.
  rewrite (bind_run _ _ _ _ _ (read_bytes_run _ _ _ Hc)).
  apply write_file_run; congruence.
Qed.

(** C1: [assemble_exe] writes the output file as exactly the launcher bytes,
    the archive bytes, the archive length as 8 little-endian bytes, the
    32-byte SHA-256 digest of the archive and [MARKER], so the file ends in
    [MARKER] whatever the launcher's size. Preconditions: the launcher and
    the archive are files, the output's directory exists and the output is
    not a directory, nor the launcher file itself (opening it for writing
    would empty the launcher before it is read); Python byte strings are
    shorter than [2^63], so the length always packs. Nothing else in the
    file system changes. *)
Theorem assemble_exe_layout (stub_path payload_zip output_path : path) (fs : fsys)
    (launcher archive : bytes) :
  fs !! normalize stub_path = Some (File launcher) ->
  fs !! normalize payload_zip = Some (File archive) ->
  normalize stub_path <> normalize output_path ->
  fs !! parent (normalize output_path) = Some Dir ->
  fs !! normalize output_path <> Some Dir ->
  Z.of_nat (length archive) < 2 ^ 63 ->
  let out := launcher ++ archive ++ le64 (Z.of_nat (length archive)) ++
             SHA256.digest archive ++ MARKER in
  assemble_exe stub_path payload_zip output_path fs =
    (<[normalize output_path := File out]> fs, inr ()) /\
  length (le64 (Z.of_nat (length archive))) = 8%nat /\
  length (SHA256.digest archive) = 32%nat /\
  drop (length out - length MARKER) out = MARKER.
Proof.
  intros Hs Hz Hne Hp Hd Hlen out.
  set (q := normalize output_path) in *.
  assert (Hpq : parent q <> q) by (intros E; rewrite E in Hp; congruence).
  split; [| split; [reflexivity | split; [reflexivity |]]].
  - unfold assemble_exe.
    rewrite (bind_run _ _ _ _ _ (read_bytes_run _ _ _ Hz)); cbv beta zeta.
    rewrite (bind_run _ _ _ _ _ (read_bytes_run _ _ _ Hs)); cbv beta.
    rewrite (bind_run _ _ _ _ _ (write_file_run _ _ _ Hp Hd)); cbv beta.
    fold q.
    assert (Hs1 : <[q := File []]> fs !! normalize stub_path = Some (File launcher))
      by (rewrite lookup_insert_ne; auto).
    rewrite (bind_run _ _ _ _ _ (read_bytes_run _ _ _ Hs1)); cbv beta.
    assert (Hp1 : forall b, <[q := File b]> fs !! parent q = Some Dir)
      by (intros b; rewrite lookup_insert_ne; auto).
    assert (Hq : forall b c, <[q := File b]> c !! q = Some (File b))
      by (intros; apply lookup_insert_eq).
    rewrite (bind_run _ _ _ _ _ (append_file_run _ _ _ _ (Hq _ _) (Hp1 _))); cbv beta.
    rewrite insert_insert_eq.
    rewrite (bind_run _ _ _ _ _ (append_file_run _ _ _ _ (Hq _ _) (Hp1 _))); cbv beta.
    rewrite insert_insert_eq.
    rewrite pack_Q_ok by lia.
    rewrite (bind_run _ _ _ _ _ (append_file_run _ _ _ _ (Hq _ _) (Hp1 _))); cbv beta.
    rewrite insert_insert_eq.
    rewrite (bind_run _ _ _ _ _ (append_file_run _ _ _ _ (Hq _ _) (Hp1 _))); cbv beta.
    rewrite insert_insert_eq.
    rewrite (append_file_run _ _ _ _ (Hq _ _) (Hp1 _)).
    rewrite insert_insert_eq. unfold out. rewrite <- !app_assoc. reflexivity.
  - unfold out. rewrite !app_assoc. apply drop_suffix.
Qed.

Lemma assemble_exe_layout_witness :
  let fsw : fsys := {[ ["C:"] := Dir; ["C:"; "t"] := Dir;
                       ["C:"; "t"; "stub.exe"] := File [x4d; x5a];
                       ["C:"; "t"; "payload.zip"] := File [x50; x4b] ]} in
  let out := [x4d; x5a] ++ [x50; x4b] ++ le64 2 ++ SHA256.digest [x50; x4b] ++ MARKER in
  assemble_exe ["C:"; "t"; "stub.exe"] ["C:"; "t"; "payload.zip"] ["C:"; "t"; "app.exe"] fsw =
    (<[["C:"; "t"; "app.exe"] := File out]> fsw, inr ()) /\
  length (le64 2) = 8%nat /\ length (SHA256.digest [x50; x4b]) = 32%nat /\
  drop (length out - length MARKER) out = MARKER.
Proof.
  apply (assemble_exe_layout ["C:"; "t"; "stub.exe"] ["C:"; "t"; "payload.zip"]
           ["C:"; "t"; "app.exe"] _ [x4d; x5a] [x50; x4b]);
    vm_compute; congruence.
Defined.

(** C3 (amended): the bundler writes a single footer version. Whenever
    [assemble_exe] completes, the output ends with the archive's length
    (8 bytes, little-endian), the archive's SHA-256 digest and [MARKER]:
    [FOOTER_LEN] = 50 bytes, always with the digest, always this marker. *)
Theorem assemble_exe_single_footer (sp zp op : path) (fs fs' : fsys) :
  assemble_exe sp zp op fs = (fs', inr ()) ->
  exists launcher archive,
    fs !! normalize zp = Some (File archive) /\
    fs' !! normalize op = Some (File (launcher ++ archive ++
      le64 (Z.of_nat (length archive)) ++ SHA256.digest archive ++ MARKER)) /\
    length (le64 (Z.of_nat (length archive)) ++ SHA256.digest archive ++ MARKER) = FOOTER_LEN /\
    FOOTER_LEN = 50%nat.
Proof.
  intros H. apply assemble_exe_inv in H as (launcher & archive & le & Hz & Hq & Ho).
  apply pack_Q_some in Hq as ->.
  exists launcher, archive. repeat split; auto.
Qed.

(** C3 (counterexample): there is no second footer version: no bundle
    [assemble_exe] writes ends in anything but [MARKER]. *)
Lemma assemble_exe_no_other_marker :
  ~ exists sp zp op fs fs' out,
      assemble_exe sp zp op fs = (fs', inr ()) /\
      fs' !! normalize op = Some (File out) /\
      drop (length out - length MARKER) out <> MARKER.
Proof.
  intros (sp & zp & op & fs & fs' & out & H & Ho & Hm).
  apply assemble_exe_inv in H as (launcher & archive & le & _ & _ & Ho').
  assert (Heq : out = launcher ++ archive ++ le ++ SHA256.digest archive ++ MARKER) by congruence.
  subst out. apply Hm.
  rewrite !app_assoc. apply drop_suffix.
Qed.

Lemma assemble_exe_single_footer_witness :
  let fsw : fsys := {[ ["C:"] := Dir; ["C:"; "t"] := Dir;
                       ["C:"; "t"; "stub.exe"] := File [x4d; x5a];
                       ["C:"; "t"; "payload.zip"] := File [x50; x4b] ]} in
  exists launcher archive,
    fsw !! normalize ["C:"; "t"; "payload.zip"] = Some (File archive) /\
    (assemble_exe ["C:"; "t"; "stub.exe"] ["C:"; "t"; "payload.zip"] ["C:"; "t"; "app.exe"] fsw).1
      !! normalize ["C:"; "t"; "app.exe"] = Some (File (launcher ++ archive ++
      le64 (Z.of_nat (length archive)) ++ SHA256.digest archive ++ MARKER)) /\
    length (le64 (Z.of_nat (length archive)) ++ SHA256.digest archive ++ MARKER) = FOOTER_LEN /\
    FOOTER_LEN = 50%nat.
Proof.
  intros fsw.
  apply (assemble_exe_single_footer ["C:"; "t"; "stub.exe"] ["C:"; "t"; "payload.zip"]
           ["C:"; "t"; "app.exe"] fsw).
  apply run_snd. vm_compute. reflexivity.
Defined.

(** ** The manifest *)

Lemma join_relative p s :
  split_drive s = None -> rooted s = false -> join p s = p ++ parts_of s.
Proof. intros Hd Hr. unfold join. rewrite Hd, Hr. reflexivity. Qed.

Lemma relative_to_app root r : relative_to (root ++ r) root = Some r.
Proof.
  unfold relative_to. rewrite take_app_length, drop_app_length.
  rewrite bool_decide_eq_true_2; reflexivity.
Qed.

Lemma str_rel_snoc l n : str_rel (l ++ [n]) = String.concat "\" (l ++ [n]).
Proof. destruct l; reflexivity. Qed.

Lemma text_mode_app a b : text_mode (a +:+ b) = text_mode a +:+ text_mode b.
Proof.
  induction a as [|c a IH]; simpl; [reflexivity|].
  destruct (Ascii.eqb c _); rewrite IH; [| reflexivity].
  unfold crlf, chr. reflexivity.
Qed.

Lemma text_mode_nl s : text_mode (s +:+ nl) = text_mode s +:+ crlf.
Proof. rewrite text_mode_app. reflexivity. Qed.

Lemma copy_main_inr main_path dest root fs fs1 rel :
  split_drive (strip dest) = None -> rooted (strip dest) = false ->
  copy_main main_path dest root fs = (fs1, inr rel) ->
  rel = String.concat "\" (parts_of (strip dest) ++ [name main_path]).
Proof.
  intros Hd Hr H. unfold copy_main in H.
  apply bind_inr in H as (s1 & [] & _ & H).
  apply bind_inr in H as (s2 & [] & _ & H).
  apply bind_inr in H as (s3 & r & Hrel & H).
  apply ret_inr in H as [_ ->].
  unfold rel_or_raise in Hrel.
  destruct (String.eqb (strip dest) "") eqn:E0; try rewrite E0 in Hrel.
  - apply String.eqb_eq in E0. rewrite E0. simpl in Hrel.
    unfold child in Hrel. rewrite relative_to_app in Hrel. inv_M. reflexivity.
  - destruct (String.eqb (strip dest) ".") eqn:E1; try rewrite E1 in Hrel.
    + apply String.eqb_eq in E1. rewrite E1. simpl in Hrel.
      unfold child in Hrel. rewrite relative_to_app in Hrel. inv_M. reflexivity.
    + rewrite join_relative in Hrel by assumption.
      unfold child in Hrel. rewrite <- app_assoc, relative_to_app in Hrel. inv_M.
      apply str_rel_snoc.
Qed.

Lemma write_text_ascii_inr p s fs fs' :
  write_text_ascii p s fs = (fs', inr ()) ->
  fs' !! normalize p = Some (File (String.list_byte_of_string (text_mode s))).
Proof.
  unfold write_text_ascii. intros H.
  apply bind_inr in H as (s1 & [] & H1 & H).
  destruct (is_ascii _); [| inv_M].
  apply write_file_inr in H as (-> & _ & _). apply lookup_insert_eq.
Qed.

(** C5 (amended): the manifest holds the path [copy_main] copied the entry
    script to, relative to the payload root, in Windows form: the
    destination's components (empty and [.] ones dropped) and the script's
    name joined by a backslash, followed by a newline that Windows text mode
    writes as CR LF. Destination [.] gives [main.x], [scripts] gives
    [scripts\main.x]. This holds when the destination, stripped, has no
    drive and no leading separator. *)
Theorem manifest_content (main_path : path) (dest : string) (root : path)
    (fs fs1 fs2 : fsys) (rel : string) :
  split_drive (strip dest) = None -> rooted (strip dest) = false ->
  copy_main main_path dest root fs = (fs1, inr rel) ->
  write_manifest root rel fs1 = (fs2, inr ()) ->
  rel = String.concat "\" (parts_of (strip dest) ++ [name main_path]) /\
  fs2 !! normalize (child root MANIFEST_NAME) =
    Some (File (String.list_byte_of_string (text_mode rel +:+ crlf))).
Proof.
  intros Hd Hr Hc Hw. split.
  - eapply copy_main_inr; eauto.
  - unfold write_manifest in Hw. apply write_text_ascii_inr in Hw.
    rewrite Hw, text_mode_nl. reflexivity.
Qed.

Lemma manifest_content_witness :
  let r1 := copy_main ex_main "scripts" ex_root ex_fs in
  let r2 := write_manifest ex_root "scripts\main.x" r1.1 in
  "scripts\main.x" = String.concat "\" (parts_of (strip "scripts") ++ [name ex_main]) /\
  r2.1 !! normalize (child ex_root MANIFEST_NAME) =
    Some (File (String.list_byte_of_string (text_mode "scripts\main.x" +:+ crlf))).
Proof.
  intros r1 r2.
  apply (manifest_content ex_main "scripts" ex_root ex_fs r1.1 r2.1 "scripts\main.x");
    try apply run_snd; vm_compute; reflexivity.
Defined.

(** C5 counterexample: with destination [scripts] the manifest holds
    [scripts\main.x] and CR LF, not [scripts/main.x] and one newline. *)
Lemma manifest_scripts_backslash :
  let '(fs1, r) := copy_main ex_main "scripts" ex_root ex_fs in
  match r with
  | inr rel =>
      let m := (write_manifest ex_root rel fs1).1 !! normalize (child ex_root MANIFEST_NAME) in
      m = Some (File (String.list_byte_of_string ("scripts\main.x" +:+ crlf))) /\
      m <> Some (File (String.list_byte_of_string ("scripts/main.x" +:+ nl)))
  | inl _ => False
  end.
Proof. vm_compute. split; [reflexivity | congruence]. Qed.

(** ** Which exceptions a computation can raise *)

Lemma raises_only_bind {A B} P (m : M A) (k : A -> M B) :
  raises_only P m -> (forall a, raises_only P (k a)) -> raises_only P (m ≫= k).
Proof.
  intros Hm Hk s s' e H. unfold mbind, M_bind in H.
  destruct (m s) as [s1 [e1|a]] eqn:E; cbn in H.
  - inversion H; subst. exact (Hm _ _ _ E).
  - exact (Hk a _ _ _ H).
Qed.

Lemma raises_only_ret {A} P (a : A) : raises_only P (mret a).
Proof. intros s s' e H. discriminate. Qed.

Lemma raises_only_get P : raises_only P get.
Proof. intros s s' e H. discriminate. Qed.

Lemma raises_only_modify P f : raises_only P (modify f).
Proof. intros s s' e H. discriminate. Qed.

Lemma raises_only_raise {A} (P : exc -> Prop) e : P e -> raises_only P (@raise A e).
Proof. intros He s s' e' H. inversion H; subst; auto. Qed.

Lemma raises_only_mono {A} (P Q : exc -> Prop) (m : M A) :
  (forall e, P e -> Q e) -> raises_only P m -> raises_only Q m.
Proof. intros HPQ Hm s s' e H. exact (HPQ _ (Hm _ _ _ H)). Qed.

(** [try: ... except OSError: ...] lets only the non-[OSError]s through. *)
Lemma raises_only_catch_os {A} P (m : M A) h ok :
  raises_only P m -> raises_only (fun e => P e /\ is_oserror e = false) (catch_os m h ok).
Proof.
  intros Hm s s' e H. unfold catch_os in H.
  destruct (m s) as [s1 [e1|a]] eqn:E; [|discriminate].
  destruct (is_oserror e1) eqn:Ho; inversion H; subst. split; [exact (Hm _ _ _ E) | exact Ho].
Qed.

Create HintDb raises.
#[export] Hint Resolve raises_only_bind raises_only_ret raises_only_get
  raises_only_modify : raises.
#[export] Hint Extern 1 (raises_only _ (raise _)) =>
  apply raises_only_raise; first [reflexivity | left; reflexivity | right; reflexivity]
  : raises.
#[export] Hint Extern 1 => progress case_match : raises.

Lemma write_file_raises p b : raises_only os_exc (write_file p b).
Proof. unfold write_file. eauto 8 with raises. Qed.

Lemma read_bytes_raises p : raises_only os_exc (read_bytes p).
Proof. unfold read_bytes. eauto 8 with raises. Qed.

Lemma mkdirs_from_raises d todo : raises_only os_exc (mkdirs_from d todo).
Proof. revert d; induction todo; simpl; eauto 8 with raises. Qed.

Lemma mkdir_p_raises p : raises_only os_exc (mkdir_p p).
Proof. unfold mkdir_p. pose proof mkdirs_from_raises. eauto 8 with raises. Qed.

Lemma copy2_raises src dst : raises_only os_exc (copy2 src dst).
Proof. unfold copy2. pose proof write_file_raises. eauto 8 with raises. Qed.

Lemma os_exc_os_or_rec {A} (m : M A) : raises_only os_exc m -> raises_only os_or_rec m.
Proof. apply raises_only_mono. intros e He. left. exact He. Qed.

Lemma copy_entries_raises cd s dst es :
  (forall a b, raises_only os_or_rec (cd a b)) ->
  raises_only os_or_rec (copy_entries cd s dst es).
Proof.
  intros Hcd. induction es as [|[n k] es IH]; simpl; [eauto with raises|].
  apply raises_only_bind; [|intros; eauto with raises].
  eapply raises_only_mono; [|apply raises_only_catch_os]; [intros e [He _]; exact He|].
  apply raises_only_bind; [|eauto with raises].
  destruct k; [apply os_exc_os_or_rec, copy2_raises | apply Hcd].
Qed.

Lemma copytree_raises f src dst : raises_only os_or_rec (copytree f src dst).
Proof.
  revert src dst; induction f as [|f IH]; intros src dst; simpl.
  - apply raises_only_raise. right; reflexivity.
  - apply raises_only_bind; [eauto with raises | intros fs].
    repeat case_match; try (apply raises_only_raise; left; reflexivity).
    apply raises_only_bind; [apply os_exc_os_or_rec, mkdir_p_raises | intros _].
    apply raises_only_bind; [apply copy_entries_raises; exact IH | intros b].
    destruct b; [apply raises_only_raise; left; reflexivity | eauto with raises].
Qed.

Lemma copytree_top_raises src dst : raises_only os_or_rec (copytree_top src dst).
Proof.
  unfold copytree_top. apply raises_only_bind; [eauto with raises | intros; apply copytree_raises].
Qed.

Lemma copy_runtime_entries_raises rd root names :
  raises_only os_or_rec (copy_runtime_entries rd root names).
Proof.
  induction names as [|n ns IH]; simpl; [eauto with raises|].
  case_match; [exact IH|].
  apply raises_only_bind; [eauto with raises | intros fs].
  apply raises_only_bind; [| intros _; exact IH].
  case_match; [apply copytree_top_raises | apply os_exc_os_or_rec, copy2_raises].
Qed.

Lemma write_text_utf8_raises p t : raises_only os_exc (write_text_utf8 p t).
Proof.
  unfold write_text_utf8. apply raises_only_bind; intros; apply write_file_raises.
Qed.

Lemma generate_prex_raises root : raises_only os_exc (generate_prex root).
Proof.
  unfold generate_prex. apply raises_only_bind; [eauto with raises | intros fs].
  repeat case_match; eauto using write_text_utf8_raises with raises.
Qed.

Lemma copy_first_pointer_raises cands root : raises_only os_exc (copy_first_pointer cands root).
Proof.
  induction cands as [|pc cs IH]; simpl; [apply generate_prex_raises|].
  apply raises_only_bind; [eauto with raises | intros fs].
  case_match; [apply copy2_raises | exact IH].
Qed.

(** ** The runtime copy *)

Lemma get_bind {A} (k : fsys -> M A) s : (get ≫= k) s = k s s.
Proof. reflexivity. Qed.




(** ** Resolved paths *)

Lemma norm_step_good acc c : good c = true -> norm_step acc c = c :: acc.
Proof.
  unfold good, norm_step. intros H.
  destruct (String.eqb c "..") eqn:E1; [rewrite andb_false_r in H; discriminate|].
  destruct (String.eqb c "") eqn:E2; [discriminate|].
  destruct (String.eqb c ".") eqn:E3; [rewrite andb_false_r in H; discriminate|].
  reflexivity.
Qed.

Lemma fold_norm_good l acc : good_parts l -> fold_left norm_step l acc = rev l ++ acc.
Proof.
  revert acc; induction l as [|c l IH]; intros acc Hl; [reflexivity|].
  inversion Hl; subst. simpl. rewrite norm_step_good by assumption.
  rewrite IH by assumption. rewrite <- app_assoc. reflexivity.
Qed.

Lemma norm_step_parts acc c : good_parts acc -> good_parts (norm_step acc c).
Proof.
  unfold norm_step, good_parts. intros H.
  destruct (String.eqb c "..") eqn:E1.
  - destruct acc; simpl; [constructor | inversion H; auto].
  - destruct (String.eqb c "" || String.eqb c ".") eqn:E2; [exact H|].
    apply orb_false_iff in E2 as [E2 E3].
    constructor; [unfold good; rewrite E1, E2, E3; reflexivity | exact H].
Qed.

Lemma fold_norm_parts l acc : good_parts acc -> good_parts (fold_left norm_step l acc).
Proof.
  revert acc; induction l as [|c l IH]; intros acc H; simpl; [exact H|].
  apply IH, norm_step_parts, H.
Qed.

Lemma good_parts_app l1 l2 : good_parts (l1 ++ l2) <-> good_parts l1 /\ good_parts l2.
Proof. unfold good_parts. apply Forall_app. Qed.

Lemma good_parts_rev l : good_parts (rev l) <-> good_parts l.
Proof. unfold good_parts. split; intros H; [apply Forall_rev in H; rewrite rev_involutive in H|apply Forall_rev]; exact H. Qed.

Lemma normalize_parts d l : good_parts (tail (normalize (d :: l))).
Proof. simpl. apply good_parts_rev, fold_norm_parts. constructor. Qed.

Lemma normalize_tail_parts p : good_parts (tail (normalize p)).
Proof. destruct p as [|d l]; [constructor | apply normalize_parts]. Qed.

Lemma normalize_good d l : good_parts l -> normalize (d :: l) = d :: l.
Proof.
  intros H. simpl. rewrite fold_norm_good by exact H.
  rewrite app_nil_r, rev_involutive. reflexivity.
Qed.

Lemma normalize_app_good p l :
  p <> [] -> good_parts l -> normalize (p ++ l) = normalize p ++ l.
Proof.
  destruct p as [|d rest]; [congruence|]. intros _ Hl. simpl.
  rewrite fold_left_app, fold_norm_good by exact Hl.
  rewrite rev_app_distr, rev_involutive. reflexivity.
Qed.

Lemma normalize_app_skip p n :
  p <> [] -> n = "" \/ n = "." -> normalize (p ++ [n]) = normalize p.
Proof.
  destruct p as [|d rest]; [congruence|]. intros _ Hn. simpl.
  rewrite fold_left_app. simpl. unfold norm_step at 1.
  destruct Hn as [-> | ->]; reflexivity.
Qed.

Lemma normalize_idem p : normalize (normalize p) = normalize p.
Proof.
  destruct p as [|d l]; [reflexivity|].
  apply normalize_good, (normalize_parts d l).
Qed.

Lemma normalize_nil p : normalize p = [] -> p = [].
Proof. destruct p; simpl; congruence. Qed.

Lemma name_normalize p : name (normalize p) = "" \/ good (name (normalize p)) = true.
Proof.
  destruct p as [|d l]; [left; reflexivity|].
  pose proof (normalize_parts d l) as H. revert H.
  destruct (normalize (d :: l)) as [|d' [|c r]]; simpl; intros H; [left; reflexivity|left; reflexivity|].
  right. destruct (last (c :: r)) as [x|] eqn:Ex; [|apply last_None in Ex; discriminate].
  simpl. apply last_Some in Ex as [l' Ex].
  unfold good_parts in H. rewrite Ex in H. apply Forall_app in H as [_ H].
  inversion H; auto.
Qed.

Lemma inside_app r l : inside r (r ++ l).
Proof. unfold inside. apply take_app_length. Qed.

Lemma inside_refl r : inside r r.
Proof. unfold inside. apply take_ge. lia. Qed.

(** Resolving [q / n] for a resolved [q] and the name of a resolved path
    stays in the subtree of [q]. *)
Lemma normalize_child_inside p n :
  n = "" \/ good n = true -> inside (normalize p) (normalize (normalize p ++ [n])).
Proof.
  intros Hn. destruct (normalize p) as [|d l] eqn:E; [reflexivity|].
  assert (Hl : good_parts l) by (pose proof (normalize_tail_parts p) as H; rewrite E in H; exact H).
  destruct Hn as [-> | Hn].
  - rewrite normalize_app_skip by (auto || discriminate).
    rewrite normalize_good by exact Hl. apply inside_refl.
  - rewrite normalize_app_good by (discriminate || (constructor; [exact Hn | constructor])).
    rewrite normalize_good by exact Hl. apply inside_app.
Qed.

(** ** Where a computation writes *)

Lemma frame0_bind {A B} P (m : M A) (k : A -> M B) :
  frame0 P m -> (forall a, frame0 P (k a)) -> frame0 P (m ≫= k).
Proof.
  intros Hm Hk s s' r H k0 Hne. unfold mbind, M_bind in H.
  destruct (m s) as [s1 [e|a]] eqn:E; cbn in H.
  - inversion H; subst. exact (Hm _ _ _ E k0 Hne).
  - destruct (decide (s1 !! k0 = s !! k0)) as [Heq|Hne1].
    + apply (Hk a _ _ _ H k0). congruence.
    + exact (Hm _ _ _ E k0 Hne1).
Qed.

Lemma frame0_ret {A} P (a : A) : frame0 P (mret a).
Proof. intros s s' r H k Hk. inversion H; subst. congruence. Qed.

Lemma frame0_get P : frame0 P get.
Proof. intros s s' r H k Hk. inversion H; subst. congruence. Qed.

Lemma frame0_raise {A} P e : frame0 P (@raise A e).
Proof. intros s s' r H k Hk. inversion H; subst. congruence. Qed.

Lemma frame0_mono {A} (P Q : path -> Prop) (m : M A) :
  (forall k, P k -> Q k) -> frame0 P m -> frame0 Q m.
Proof. intros HPQ Hm s s' r H k Hk. exact (HPQ _ (Hm _ _ _ H k Hk)). Qed.

Lemma frame0_catch_os {A} P (m : M A) h ok : frame0 P m -> frame0 P (catch_os m h ok).
Proof.
  intros Hm s s' r H k Hk. unfold catch_os in H.
  destruct (m s) as [s1 [e|a]] eqn:E; [destruct (is_oserror e)|];
    inversion H; subst; exact (Hm _ _ _ E k Hk).
Qed.

Lemma frame0_modify_insert q v : frame0 (fun k => k = q) (modify (<[q := v]>)).
Proof.
  intros s s' r H k Hk. inversion H; subst.
  destruct (decide (k = q)) as [->|Hne]; [reflexivity|].
  rewrite lookup_insert_ne in Hk by congruence. congruence.
Qed.

Create HintDb frame.
#[export] Hint Resolve frame0_bind frame0_ret frame0_get frame0_raise : frame.
#[export] Hint Extern 1 => progress case_match : frame.

Lemma write_file_frame0 p b : frame0 (fun k => k = normalize p) (write_file p b).
Proof. unfold write_file. pose proof frame0_modify_insert. eauto 8 with frame. Qed.

Lemma copy2_frame0 src dst : frame0 (inside (normalize dst)) (copy2 src dst).
Proof.
  unfold copy2. apply frame0_bind; [apply frame0_get | intros fs].
  repeat case_match; auto with frame.
  all: eapply frame0_mono; [|apply write_file_frame0]; intros k ->.
  - apply normalize_child_inside, name_normalize.
  - rewrite normalize_idem. apply inside_refl.
Qed.

Lemma write_text_utf8_frame0 p t : frame0 (fun k => k = normalize p) (write_text_utf8 p t).
Proof. unfold write_text_utf8. apply frame0_bind; intros; apply write_file_frame0. Qed.

Lemma generate_prex_frame0 root :
  frame0 (fun k => k = normalize (child root ".prex")) (generate_prex root).
Proof.
  unfold generate_prex. apply frame0_bind; [apply frame0_get | intros fs].
  repeat case_match; auto using write_text_utf8_frame0 with frame.
Qed.

Lemma copy_first_pointer_frame0 cands root :
  frame0 (inside (normalize (child root ".prex"))) (copy_first_pointer cands root).
Proof.
  induction cands as [|pc cs IH]; simpl.
  - eapply frame0_mono; [|apply generate_prex_frame0]. intros k ->. apply inside_refl.
  - apply frame0_bind; [apply frame0_get | intros fs].
    case_match; [apply copy2_frame0 | exact IH].
Qed.

(** ** The [.prex] pointer *)

Lemma prex_step_frame0 main_file root :
  frame0 (inside (normalize (child root ".prex"))) (prex_step main_file root).
Proof. apply frame0_catch_os, copy_first_pointer_frame0. Qed.

(** C10: the [.prex] step of [build] (copying [.prex] from the main
    script's directory, else the script's own [.prex] sibling, else
    generating one from the [.py] files of [ext]) never fails: every
    [OSError] is swallowed, and the other copy and generation steps raise
    nothing else. It changes only [<payload root>\.prex] and, when that is a
    directory, entries inside it; the rest of the payload is unchanged. *)
Theorem prex_step_swallows (main_file root : path) (fs fs' : fsys) (r : exc + unit) :
  prex_step main_file root fs = (fs', r) ->
  r = inr () /\
  forall k, fs' !! k <> fs !! k -> inside (normalize (child root ".prex")) k.
Proof.
  intros H. split; [|exact (prex_step_frame0 _ _ _ _ _ H)].
  unfold prex_step, catch_os in H.
  destruct (copy_first_pointer _ root fs) as [s1 [e|[]]] eqn:E.
  - pose proof (copy_first_pointer_raises _ _ _ _ _ E) as He. unfold os_exc in He.
    rewrite He in H. congruence.
  - inversion H. reflexivity.
Qed.

Lemma prex_step_swallows_witness :
  let fsp := <[["C:"; "src"; ".prex"] := File [x65]]> ex_fs in
  let run := prex_step ex_main ex_root fsp in
  run.2 = inr () /\
  (forall k, run.1 !! k <> fsp !! k -> inside (normalize (child ex_root ".prex")) k).
Proof.
  intros fsp run.
  apply (prex_step_swallows ex_main ex_root fsp run.1 run.2). apply surjective_pairing.
Defined.

(** The pointer is added though the caller never asked for it, and an
    [OSError] (here: the script's [.prex] is a directory) is swallowed
    with nothing written. *)
Lemma prex_step_examples :
  (prex_step ex_main ex_root (<[["C:"; "src"; ".prex"] := File [x65]]> ex_fs)).1
    !! (ex_root ++ [".prex"]) = Some (File [x65]) /\
  ex_fs !! (ex_root ++ [".prex"]) = None /\
  (copy_first_pointer [["C:"; "src"; ".prex"]] ex_root
     (<[["C:"; "src"; ".prex"] := Dir]> ex_fs)).2 = inl (OSError "PermissionError") /\
  (prex_step ex_main ex_root (<[["C:"; "src"; ".prex"] := Dir]> ex_fs)).2 = inr ().
Proof. vm_compute. repeat split. Qed.

(** ** Resolved file systems and the subtrees a computation writes *)

Lemma keeps_bind {A B} (m : M A) (k : A -> M B) :
  keeps m -> (forall a, keeps (k a)) -> keeps (m ≫= k).
Proof.
  intros Hm Hk s s' r H Hwf. unfold mbind, M_bind in H.
  destruct (m s) as [s1 [e|a]] eqn:E; cbn in H.
  - inversion H; subst. exact (Hm _ _ _ E Hwf).
  - destruct (Hm _ _ _ E Hwf) as [Hwf1 Hd1].
    destruct (Hk a _ _ _ H Hwf1) as [Hwf2 Hd2]. split; auto.
Qed.

Lemma keeps_ret {A} (a : A) : keeps (mret a).
Proof. intros s s' r H Hwf. inversion H; subst. auto. Qed.

Lemma keeps_get : keeps get.
Proof. intros s s' r H Hwf. inversion H; subst. auto. Qed.

Lemma keeps_raise {A} e : keeps (@raise A e).
Proof. intros s s' r H Hwf. inversion H; subst. auto. Qed.

Lemma keeps_catch_os {A} (m : M A) h ok : keeps m -> keeps (catch_os m h ok).
Proof.
  intros Hm s s' r H Hwf. unfold catch_os in H.
  destruct (m s) as [s1 [e|a]] eqn:E; [destruct (is_oserror e)|];
    inversion H; subst; exact (Hm _ _ _ E Hwf).
Qed.

Lemma keeps_get_bind {A} (k : fsys -> M A) : (forall fs, keeps (k fs)) -> keeps (get ≫= k).
Proof. intros Hk. apply keeps_bind; [apply keeps_get | exact Hk]. Qed.

Lemma frame_bind {A B} (P : path -> Prop) (m : M A) (k : A -> M B) :
  keeps m -> frame P m -> (forall a, frame P (k a)) -> frame P (m ≫= k).
Proof.
  intros Hkm Hm Hk s s' r Hwf H k0 Hne. unfold mbind, M_bind in H.
  destruct (m s) as [s1 [e|a]] eqn:E; cbn in H.
  - inversion H; subst. exact (Hm _ _ _ Hwf E k0 Hne).
  - destruct (decide (s1 !! k0 = s !! k0)) as [Heq|Hne1].
    + destruct (Hkm _ _ _ E Hwf) as [Hwf1 _].
      apply (Hk a _ _ _ Hwf1 H k0). congruence.
    + exact (Hm _ _ _ Hwf E k0 Hne1).
Qed.

Lemma frame_get_bind {A} (P : path -> Prop) (k : fsys -> M A) :
  (forall fs, wf fs -> frame P (k fs)) -> frame P (get ≫= k).
Proof. intros Hk s s' r Hwf H. rewrite get_bind in H. exact (Hk s Hwf s s' r Hwf H). Qed.

Lemma frame_ret {A} (P : path -> Prop) (a : A) : frame P (mret a).
Proof. intros s s' r Hwf H k Hk. inversion H; subst. congruence. Qed.

Lemma frame_raise {A} (P : path -> Prop) e : frame P (@raise A e).
Proof. intros s s' r Hwf H k Hk. inversion H; subst. congruence. Qed.

Lemma frame_mono {A : Type} (P Q : path -> Prop) (m : M A) :
  (forall k, P k -> Q k) -> frame P m -> frame Q m.
Proof. intros HPQ Hm s s' r Hwf H k Hk. exact (HPQ _ (Hm _ _ _ Hwf H k Hk)). Qed.

Lemma frame_catch_os {A} (P : path -> Prop) (m : M A) h ok : frame P m -> frame P (catch_os m h ok).
Proof.
  intros Hm s s' r Hwf H k Hk. unfold catch_os in H.
  destruct (m s) as [s1 [e|a]] eqn:E; [destruct (is_oserror e)|];
    inversion H; subst; exact (Hm _ _ _ Hwf E k Hk).
Qed.

Lemma frame_of_frame0 {A} (P : path -> Prop) (m : M A) : frame0 P m -> frame P m.
Proof. intros Hm s s' r _ H k Hk. exact (Hm _ _ _ H k Hk). Qed.

Lemma inside_trans a b c : inside a b -> inside b c -> inside a c.
Proof.
  unfold inside. intros Hab Hbc.
  assert (Hl : (length a <= length b)%nat) by (rewrite <- Hab, length_take; lia).
  transitivity (take (length a) b); [| exact Hab].
  rewrite <- Hbc. rewrite take_take, Nat.min_l by exact Hl. reflexivity.
Qed.

(** Two prefixes of one path: one is a prefix of the other. *)
Lemma inside_comparable a b t : inside a t -> inside b t -> inside a b \/ inside b a.
Proof.
  unfold inside. intros Ha Hb.
  destruct (Nat.le_ge_cases (length a) (length b)) as [Hl|Hl].
  - left. rewrite <- Hb at 1. rewrite take_take, Nat.min_l by exact Hl. exact Ha.
  - right. rewrite <- Ha at 1. rewrite take_take, Nat.min_l by exact Hl. exact Hb.
Qed.

Lemma near_mono r t k : inside r t -> near t k -> near r k.
Proof.
  intros Hrt [Hkt|Htk].
  - destruct (inside_comparable k r t Hkt Hrt) as [H|H]; [left; exact H | right; exact H].
  - right. exact (inside_trans _ _ _ Hrt Htk).
Qed.

Lemma readonly_keeps {A} (m : M A) : readonly m -> keeps m.
Proof. intros Hm s s' r H Hwf. rewrite (Hm _ _ _ H). auto. Qed.

Lemma readonly_frame {A} P (m : M A) : readonly m -> frame P m.
Proof. intros Hm s s' r _ H k Hk. rewrite (Hm _ _ _ H) in Hk. congruence. Qed.

Lemma rel_or_raise_readonly p root : readonly (rel_or_raise p root).
Proof. unfold rel_or_raise. intros s s' r H. case_match; inversion H; auto. Qed.

Lemma parse_mapping_readonly E raw : readonly (parse_mapping E raw).
Proof.
  unfold parse_mapping. intros s s' r H.
  case_match; [|inversion H; auto].
  case_match. rewrite get_bind in H. case_match; inversion H; auto.
Qed.

Lemma wf_insert s q v : wf s -> q <> [] -> good_parts (tail q) -> wf (<[q := v]> s).
Proof.
  intros Hwf Hq Hg k w Hk. destruct (decide (k = q)) as [->|Hne]; [auto|].
  rewrite lookup_insert_ne in Hk by congruence. exact (Hwf _ _ Hk).
Qed.

Lemma write_file_keeps p b : keeps (write_file p b).
Proof.
  unfold write_file. intros s s' r H Hwf. rewrite get_bind in H.
  repeat case_match; inversion H; subst; try (split; auto; fail).
  all: assert (Hq : normalize p <> []) by
    (intros E; rewrite E in *; simpl in *; destruct (Hwf _ _ ltac:(eassumption)) as [Hn _];
     congruence).
  all: split; [apply wf_insert; auto using normalize_tail_parts|].
  all: intros k Hk; destruct (decide (k = normalize p)) as [->|Hne]; [congruence|].
  all: rewrite lookup_insert_ne by congruence; exact Hk.
Qed.

Lemma write_file_frame p b : frame (near (normalize p)) (write_file p b).
Proof.
  eapply frame_mono; [|apply frame_of_frame0, write_file_frame0].
  intros k ->. right. apply inside_refl.
Qed.

Lemma mkdirs_from_keeps d todo :
  d <> [] -> good_parts (tail d) -> good_parts todo -> keeps (mkdirs_from d todo).
Proof.
  revert d; induction todo as [|c rest IH]; intros d Hd Hgd Ht; simpl; [apply keeps_ret|].
  inversion Ht; subst.
  assert (Hq : d ++ [c] <> []) by (destruct d; discriminate).
  assert (Hgq : good_parts (tail (d ++ [c]))).
  { destruct d as [|x l]; [congruence|]. simpl. apply good_parts_app. split; auto.
    constructor; [assumption | constructor]. }
  assert (Hgr : good_parts rest) by assumption.
  apply keeps_get_bind. intros fs. case_match; [case_match|].
  - apply keeps_raise.
  - apply IH; auto.
  - apply keeps_bind; [|intros; apply IH; auto].
    intros s s' r Hrun Hwf. inversion Hrun; subst. split; [apply wf_insert; auto|].
    intros k Hk. destruct (decide (k = d ++ [c])) as [->|Hne].
    + rewrite lookup_insert_eq. reflexivity.
    + rewrite lookup_insert_ne by congruence. exact Hk.
Qed.

(** [makedirs] changes only ancestors of its target and the target. *)
Lemma mkdirs_from_frame d todo :
  d <> [] -> good_parts (tail d) -> good_parts todo ->
  frame (fun k => inside k (d ++ todo)) (mkdirs_from d todo).
Proof.
  revert d; induction todo as [|c rest IH]; intros d Hd Hgd Ht; simpl; [apply frame_ret|].
  inversion Ht; subst.
  assert (Hq : d ++ [c] <> []) by (destruct d; discriminate).
  assert (Hgq : good_parts (tail (d ++ [c]))).
  { destruct d as [|x l]; [congruence|]. simpl. apply good_parts_app. split; auto.
    constructor; [assumption | constructor]. }
  assert (Hgr : good_parts rest) by assumption.
  replace (d ++ c :: rest) with ((d ++ [c]) ++ rest) by (rewrite <- app_assoc; reflexivity).
  apply frame_get_bind. intros fs _. case_match; [case_match|].
  - apply frame_raise.
  - apply IH; auto.
  - apply frame_bind; [| | intros; apply IH; auto].
    + intros s s' r Hrun Hwf. inversion Hrun; subst. split; [apply wf_insert; auto|].
      intros k Hk. destruct (decide (k = d ++ [c])) as [->|Hne].
      * rewrite lookup_insert_eq. reflexivity.
      * rewrite lookup_insert_ne by congruence. exact Hk.
    + intros s s' r _ Hrun k Hk. inversion Hrun; subst.
      destruct (decide (k = d ++ [c])) as [->|Hne]; [apply inside_app|].
      rewrite lookup_insert_ne in Hk by congruence. congruence.
Qed.

Lemma mkdir_p_keeps p : keeps (mkdir_p p).
Proof.
  unfold mkdir_p. pose proof (normalize_tail_parts p) as Hg.
  destruct (normalize p) as [|d rest]; [apply keeps_raise|].
  apply keeps_get_bind. intros fs. case_match; [case_match|]; try apply keeps_raise.
  apply mkdirs_from_keeps; [discriminate | constructor | exact Hg].
Qed.

Lemma mkdir_p_frame p : frame (near (normalize p)) (mkdir_p p).
Proof.
  unfold mkdir_p. pose proof (normalize_tail_parts p) as Hg.
  destruct (normalize p) as [|d rest]; [apply frame_raise|].
  apply frame_get_bind. intros fs _. case_match; [case_match|]; try apply frame_raise.
  eapply frame_mono; [|apply mkdirs_from_frame; [discriminate | constructor | exact Hg]].
  intros k Hk. left. exact Hk.
Qed.

Lemma copy2_keeps src dst : keeps (copy2 src dst).
Proof.
  unfold copy2. apply keeps_get_bind. intros fs.
  repeat case_match; auto using keeps_raise, write_file_keeps.
Qed.

Lemma copy2_frame src dst : frame (near (normalize dst)) (copy2 src dst).
Proof.
  eapply frame_mono; [|apply frame_of_frame0, copy2_frame0].
  intros k Hk. right. exact Hk.
Qed.

Lemma normalize_snoc_inside p n :
  n = "" \/ good n = true -> inside (normalize p) (normalize (p ++ [n])).
Proof.
  intros Hn. destruct p as [|d l]; [reflexivity|].
  destruct Hn as [-> | Hn].
  - rewrite normalize_app_skip by (auto || discriminate). apply inside_refl.
  - rewrite normalize_app_good by (discriminate || (constructor; [exact Hn | constructor])).
    apply inside_app.
Qed.

Lemma child_name_spec d k c :
  child_name d k = Some c ->
  length k = S (length d) /\ take (length d) k = d /\ last k = Some c.
Proof.
  unfold child_name. case_bool_decide as Hb; [|discriminate].
  destruct Hb as [Hl Ht]. auto.
Qed.

Lemma elem_of_children fs d c v :
  (c, v) ∈ children fs d -> exists k, fs !! k = Some v /\ child_name d k = Some c.
Proof.
  unfold children. intros Hin. apply list_elem_of_omap in Hin as [[k w] [Hk Hc]].
  apply elem_of_map_to_list in Hk. simpl in Hc.
  destruct (child_name d k) eqn:E; simpl in Hc; [|discriminate].
  inversion Hc; subst. eauto.
Qed.

Lemma last_good k c : (2 <= length k)%nat -> good_parts (tail k) -> last k = Some c -> good c = true.
Proof.
  destruct k as [|x [|y r]]; simpl; intros Hl Hg Hc; [lia | lia|].
  apply last_Some in Hc as [l' Hc].
  unfold good_parts in Hg. rewrite Hc in Hg. apply Forall_app in Hg as [_ Hg].
  inversion Hg; auto.
Qed.

(** The entries [os.scandir] lists in a resolved directory have names that
    resolution keeps. *)
Lemma children_good fs d :
  wf fs -> d <> [] -> Forall (fun e : string * node => good e.1 = true) (children fs d).
Proof.
  intros Hwf Hd. apply Forall_forall. intros [c v] Hin. simpl.
  apply elem_of_children in Hin as [k [Hk Hc]].
  apply child_name_spec in Hc as (Hl & _ & Hc).
  destruct (Hwf _ _ Hk) as [_ Hg]. apply (last_good k); auto.
  destruct d; simpl in *; [congruence | lia].
Qed.

Lemma copy_entries_keeps cd s dst es :
  (forall a b, keeps (cd a b)) -> keeps (copy_entries cd s dst es).
Proof.
  intros Hcd. induction es as [|[n v] es IH]; simpl; [apply keeps_ret|].
  apply keeps_bind; [|intros; apply keeps_bind; [exact IH | intros; apply keeps_ret]].
  apply keeps_catch_os. apply keeps_bind; [|intros; apply keeps_ret].
  destruct v; [apply copy2_keeps | apply Hcd].
Qed.

Lemma copy_entries_frame cd s dst es :
  (forall a b, keeps (cd a b)) ->
  (forall a b, frame (near (normalize b)) (cd a b)) ->
  Forall (fun e : string * node => good e.1 = true) es ->
  frame (near (normalize dst)) (copy_entries cd s dst es).
Proof.
  intros Hk Hf Hes. induction es as [|[n v] es IH]; simpl; [apply frame_ret|].
  inversion Hes as [|x l Hn Hes']; subst; simpl in Hn.
  apply frame_bind; [| | intros; apply frame_bind;
    [apply copy_entries_keeps; exact Hk | apply IH; exact Hes' | intros; apply frame_ret]].
  - apply keeps_catch_os. apply keeps_bind; [|intros; apply keeps_ret].
    destruct v; [apply copy2_keeps | apply Hk].
  - apply frame_catch_os. apply frame_bind; [| |intros; apply frame_ret].
    + destruct v; [apply copy2_keeps | apply Hk].
    + eapply frame_mono; [intros k; apply near_mono, normalize_snoc_inside; right; exact Hn|].
      destruct v; [apply copy2_frame | apply Hf].
Qed.

Lemma copytree_keeps f src dst : keeps (copytree f src dst).
Proof.
  revert src dst; induction f as [|f IH]; intros src dst; simpl; [apply keeps_raise|].
  apply keeps_get_bind. intros fs. repeat case_match; try apply keeps_raise.
  apply keeps_bind; [apply mkdir_p_keeps | intros _].
  apply keeps_bind; [apply copy_entries_keeps; exact IH | intros b].
  destruct b; [apply keeps_raise | apply keeps_ret].
Qed.

(** [copytree] into [dst] changes only missing ancestors of [dst], [dst] and
    what lies under it. *)
Lemma copytree_frame f src dst : frame (near (normalize dst)) (copytree f src dst).
Proof.
  revert src dst; induction f as [|f IH]; intros src dst; simpl; [apply frame_raise|].
  apply frame_get_bind. intros fs Hwf. repeat case_match; try apply frame_raise.
  apply frame_bind; [apply mkdir_p_keeps | apply mkdir_p_frame | intros _].
  apply frame_bind; [apply copy_entries_keeps, copytree_keeps | | intros b].
  - apply copy_entries_frame; [apply copytree_keeps | exact IH |].
    apply children_good; [exact Hwf|]. intros E. rewrite E in *.
    destruct (Hwf _ _ ltac:(eassumption)) as [Hn _]. congruence.
  - destruct b; [apply frame_raise | apply frame_ret].
Qed.

Lemma copytree_top_keeps src dst : keeps (copytree_top src dst).
Proof. unfold copytree_top. apply keeps_get_bind. intros. apply copytree_keeps. Qed.

Lemma copytree_top_frame src dst : frame (near (normalize dst)) (copytree_top src dst).
Proof. unfold copytree_top. apply frame_get_bind. intros. apply copytree_frame. Qed.

(** ** The payload stays under its root *)

Lemma frame_bind_post {A B} (P : path -> Prop) (Q : A -> Prop) (m : M A) (k : A -> M B) :
  keeps m -> frame P m -> post Q m -> (forall a, Q a -> frame P (k a)) -> frame P (m ≫= k).
Proof.
  intros Hkm Hm Hq Hk s s' r Hwf H k0 Hne. unfold mbind, M_bind in H.
  destruct (m s) as [s1 [e|a]] eqn:E; cbn in H.
  - inversion H; subst. exact (Hm _ _ _ Hwf E k0 Hne).
  - destruct (decide (s1 !! k0 = s !! k0)) as [Heq|Hne1].
    + destruct (Hkm _ _ _ E Hwf) as [Hwf1 _].
      apply (Hk a (Hq _ _ _ E) _ _ _ Hwf1 H k0). congruence.
    + exact (Hm _ _ _ Hwf E k0 Hne1).
Qed.

Lemma stays_in_of_frame {A} root (m : M A) : keeps m -> frame (near root) m -> stays_in root m.
Proof.
  intros Hk Hf s s' r Hwf Hc H k Hne.
  destruct (Hf _ _ _ Hwf H k Hne) as [Hkr|Hrk]; [|exact Hrk].
  destruct (Hk _ _ _ H Hwf) as [Hwf' Hd].
  unfold inside in Hkr.
  destruct (Nat.lt_ge_cases (length k) (length root)) as [Hl|Hl].
  - destruct (decide (length k = 0%nat)) as [Hz|Hz].
    + exfalso. apply length_zero_iff_nil in Hz. subst k.
      destruct (s !! []) as [v|] eqn:E1; [destruct (Hwf _ _ E1); congruence|].
      destruct (s' !! []) as [v|] eqn:E2; [destruct (Hwf' _ _ E2); congruence|].
      congruence.
    + exfalso. assert (Hd0 : s !! k = Some Dir) by (rewrite <- Hkr; apply Hc; lia).
      apply Hne. rewrite Hd0. apply Hd, Hd0.
  - rewrite take_ge in Hkr by exact Hl. subst k. apply inside_refl.
Qed.

Lemma expand_resolve_normal E x : exists q, expand_resolve E x = normalize q.
Proof. unfold expand_resolve. repeat case_match; eauto. Qed.

Lemma name_expand_resolve E x : name (expand_resolve E x) = "" \/ good (name (expand_resolve E x)) = true.
Proof. destruct (expand_resolve_normal E x) as [q ->]. apply name_normalize. Qed.

Lemma parts_of_good d :
  forallb (fun c => negb (String.eqb c "..")) (parts_of d) = true -> good_parts (parts_of d).
Proof.
  intros H. apply Forall_forall. intros c Hc.
  pose proof (proj1 (forallb_forall _ _) H c (proj1 (list_elem_of_In _ _) Hc)) as H1.
  unfold parts_of in Hc. apply list_elem_of_filter in Hc as [Hc _].
  unfold good. cbn beta in H1.
  destruct (String.eqb c ""), (String.eqb c "."), (String.eqb c ".."); simpl in *;
    try contradiction; try discriminate; reflexivity.
Qed.

Lemma inside_normalize_app p l : good_parts l -> inside (normalize p) (normalize (p ++ l)).
Proof.
  intros Hl. destruct p as [|d r]; [reflexivity|].
  rewrite normalize_app_good by (discriminate || exact Hl). apply inside_app.
Qed.

(** The directory a mapping's destination names lies under the root. *)
Lemma target_dir_inside root d :
  d = "." \/ contained_dest d = true ->
  inside (normalize root) (normalize (if String.eqb d "." then root else join root d)).
Proof.
  intros Hd. destruct (String.eqb d ".") eqn:E; [apply inside_refl|].
  destruct Hd as [-> | Hd]; [discriminate|].
  unfold contained_dest in Hd. destruct (split_drive d) eqn:Hs; [discriminate|].
  apply andb_true_iff in Hd as [Hr Hp]. apply negb_true_iff in Hr.
  rewrite join_relative by assumption. apply inside_normalize_app, parts_of_good, Hp.
Qed.

Lemma copy_main_keeps main_path dest root : keeps (copy_main main_path dest root).
Proof.
  unfold copy_main. apply keeps_bind; [apply mkdir_p_keeps | intros _].
  apply keeps_bind; [apply copy2_keeps | intros _].
  apply keeps_bind; [apply readonly_keeps, rel_or_raise_readonly | intros; apply keeps_ret].
Qed.

Lemma copy_main_frame E main_arg dest root :
  contained_dest (strip dest) = true ->
  frame (near (normalize root)) (copy_main (expand_resolve E main_arg) dest root).
Proof.
  intros Hd. unfold copy_main.
  set (dr := if String.eqb (strip dest) "" then "." else strip dest).
  assert (Hdr : dr = "." \/ contained_dest dr = true)
    by (unfold dr; destruct (String.eqb _ _); auto).
  pose proof (target_dir_inside root dr Hdr) as Ht.
  set (td := if String.eqb dr "." then root else join root dr) in *.
  apply frame_bind; [apply mkdir_p_keeps | |intros _].
  { eapply frame_mono; [intros k; apply near_mono, Ht | apply mkdir_p_frame]. }
  apply frame_bind; [apply copy2_keeps | |intros _].
  { eapply frame_mono; [intros k; apply near_mono | apply copy2_frame].
    eapply inside_trans; [exact Ht|]. apply normalize_snoc_inside, name_expand_resolve. }
  apply frame_bind; [apply readonly_keeps, rel_or_raise_readonly
                    | apply readonly_frame, rel_or_raise_readonly | intros; apply frame_ret].
Qed.

Lemma parse_mapping_post E raw :
  post (fun a : path * string => exists sr dr, split_once ";"%char raw = Some (sr, dr) /\
          a.1 = expand_resolve E sr /\
          a.2 = (if String.eqb (strip dr) "" then "." else strip dr))
       (parse_mapping E raw).
Proof.
  unfold parse_mapping. intros s s' a H.
  destruct (split_once ";"%char raw) as [[sr dr]|] eqn:Hs; [|discriminate].
  rewrite get_bind in H. case_match; [discriminate|].
  inversion H; subst. eauto.
Qed.

Lemma mapping_target_ok raw sr dr :
  mapping_dest_ok raw = true -> split_once ";"%char raw = Some (sr, dr) ->
  let d := (if String.eqb (strip dr) "" then "." else strip dr) in
  d = "." \/ contained_dest d = true.
Proof.
  intros Hok Hs. cbv zeta. unfold mapping_dest_ok in Hok. rewrite Hs in Hok.
  destruct (String.eqb _ _); auto.
Qed.

Lemma copy_includes_keeps E incs root : keeps (copy_includes E incs root).
Proof.
  induction incs as [|raw incs IH]; simpl; [apply keeps_ret|].
  apply keeps_bind; [apply readonly_keeps, parse_mapping_readonly | intros [src dr]].
  apply keeps_get_bind. intros fs. destruct (negb (is_file fs _)); [apply keeps_raise|].
  apply keeps_bind; [apply mkdir_p_keeps | intros _].
  apply keeps_bind; [apply readonly_keeps, rel_or_raise_readonly | intros _].
  apply keeps_bind; [apply copy2_keeps | intros _; exact IH].
Qed.

Lemma copy_includes_frame E incs root :
  Forall (fun raw => mapping_dest_ok raw = true) incs ->
  frame (near (normalize root)) (copy_includes E incs root).
Proof.
  induction incs as [|raw incs IH]; intros Hok; simpl; [apply frame_ret|].
  inversion Hok as [|x l Hraw Hok']; subst.
  eapply frame_bind_post; [apply readonly_keeps, parse_mapping_readonly
                         | apply readonly_frame, parse_mapping_readonly
                         | apply parse_mapping_post |].
  intros [src dr] (sr & drr & Hs & Hsrc & Hdr). simpl in Hsrc, Hdr. subst src dr.
  pose proof (target_dir_inside root _ (mapping_target_ok raw sr drr Hraw Hs)) as Ht.
  apply frame_get_bind. intros fs _. destruct (negb (is_file fs _)); [apply frame_raise|].
  apply frame_bind; [apply mkdir_p_keeps | |intros _].
  { eapply frame_mono; [intros k; apply near_mono, Ht | apply mkdir_p_frame]. }
  apply frame_bind; [apply readonly_keeps, rel_or_raise_readonly
                    | apply readonly_frame, rel_or_raise_readonly | intros _].
  apply frame_bind; [apply copy2_keeps | | intros _; apply IH, Hok'].
  eapply frame_mono; [intros k; apply near_mono | apply copy2_frame].
  eapply inside_trans; [exact Ht|]. apply normalize_snoc_inside, name_expand_resolve.
Qed.

Lemma copy_include_folders_keeps E folders root : keeps (copy_include_folders E folders root).
Proof.
  induction folders as [|raw folders IH]; simpl; [apply keeps_ret|].
  apply keeps_bind; [apply readonly_keeps, parse_mapping_readonly | intros [src dr]].
  apply keeps_get_bind. intros fs. destruct (negb (is_dir fs _)); [apply keeps_raise|].
  apply keeps_bind; [apply readonly_keeps, rel_or_raise_readonly | intros _].
  apply keeps_bind; [apply copytree_top_keeps | intros _; exact IH].
Qed.

Lemma copy_include_folders_frame E folders root :
  Forall (fun raw => mapping_dest_ok raw = true) folders ->
  frame (near (normalize root)) (copy_include_folders E folders root).
Proof.
  induction folders as [|raw folders IH]; intros Hok; simpl; [apply frame_ret|].
  inversion Hok as [|x l Hraw Hok']; subst.
  eapply frame_bind_post; [apply readonly_keeps, parse_mapping_readonly
                         | apply readonly_frame, parse_mapping_readonly
                         | apply parse_mapping_post |].
  intros [src dr] (sr & drr & Hs & Hsrc & Hdr). simpl in Hsrc, Hdr. subst src dr.
  pose proof (target_dir_inside root _ (mapping_target_ok raw sr drr Hraw Hs)) as Ht.
  apply frame_get_bind. intros fs _. destruct (negb (is_dir fs _)); [apply frame_raise|].
  apply frame_bind; [apply readonly_keeps, rel_or_raise_readonly
                    | apply readonly_frame, rel_or_raise_readonly | intros _].
  apply frame_bind; [apply copytree_top_keeps | | intros _; apply IH, Hok'].
  eapply frame_mono; [intros k; apply near_mono | apply copytree_top_frame].
  destruct (String.eqb _ ".") eqn:E1; [|exact Ht].
  unfold child. apply normalize_snoc_inside, name_expand_resolve.
Qed.

Lemma write_text_ascii_keeps p t : keeps (write_text_ascii p t).
Proof.
  unfold write_text_ascii. apply keeps_bind; [apply write_file_keeps | intros _].
  case_match; [apply write_file_keeps | apply keeps_raise].
Qed.

Lemma write_text_ascii_frame p t : frame (near (normalize p)) (write_text_ascii p t).
Proof.
  unfold write_text_ascii. apply frame_bind; [apply write_file_keeps | apply write_file_frame | intros _].
  case_match; [apply write_file_frame | apply frame_raise].
Qed.

Lemma write_manifest_frame root rel : frame (near (normalize root)) (write_manifest root rel).
Proof.
  unfold write_manifest. eapply frame_mono; [intros k; apply near_mono | apply write_text_ascii_frame].
  apply normalize_snoc_inside. right. reflexivity.
Qed.

Lemma write_manifest_keeps root rel : keeps (write_manifest root rel).
Proof. apply write_text_ascii_keeps. Qed.

(** C2 (amended): for destinations that are relative, with no drive, no
    leading separator and no [..] component (the main destination and the
    destination of every [--include] and [--include-folder] mapping),
    everything [copy_main], [copy_includes], [copy_include_folders] and
    [write_manifest] create or change is the payload root or lies under it,
    also when they raise. The file system is resolved and the payload
    root's ancestors are directories. *)
Theorem payload_writes_contained (E : env) (main_arg dest : string)
    (includes folders : list string) (root : path) (rel : string) :
  contained_dest (strip dest) = true ->
  Forall (fun raw => mapping_dest_ok raw = true) includes ->
  Forall (fun raw => mapping_dest_ok raw = true) folders ->
  stays_in (normalize root) (copy_main (expand_resolve E main_arg) dest root) /\
  stays_in (normalize root) (copy_includes E includes root) /\
  stays_in (normalize root) (copy_include_folders E folders root) /\
  stays_in (normalize root) (write_manifest root rel).
Proof.
  intros Hd Hi Hf. split; [|split; [|split]]; apply stays_in_of_frame.
  - apply copy_main_keeps.
  - apply copy_main_frame, Hd.
  - apply copy_includes_keeps.
  - apply copy_includes_frame, Hi.
  - apply copy_include_folders_keeps.
  - apply copy_include_folders_frame, Hf.
  - apply write_manifest_keeps.
  - apply write_manifest_frame.
Qed.

Lemma payload_writes_contained_witness :
  stays_in (normalize ex_root) (copy_main (expand_resolve ex_env "C:\src\main.x") "scripts" ex_root) /\
  stays_in (normalize ex_root) (copy_includes ex_env ["C:\a\x;lib"] ex_root) /\
  stays_in (normalize ex_root) (copy_include_folders ex_env ["C:\b;data"] ex_root) /\
  stays_in (normalize ex_root) (write_manifest ex_root "scripts\main.x").
Proof.
  apply (payload_writes_contained ex_env "C:\src\main.x" "scripts" ["C:\a\x;lib"] ["C:\b;data"]
           ex_root "scripts\main.x");
    [vm_compute; reflexivity | repeat constructor | repeat constructor].
Defined.

(** C2 counterexample: destination [..] puts the main script next to the
    payload root, without error and with manifest path [..\main.x]; a
    rooted destination [\abs] creates [C:\abs] and the script in it before
    [relative_to] raises [ValueError]. *)
Lemma copy_main_escapes :
  let run := copy_main ex_main ".." ex_root ex_fs in
  let run2 := copy_main ex_main "\abs" ex_root ex_fs in
  run.2 = inr "..\main.x" /\
  ex_fs !! ["C:"; "t"; "main.x"] = None /\
  run.1 !! ["C:"; "t"; "main.x"] = Some (File [x61]) /\
  ~ inside ex_root ["C:"; "t"; "main.x"] /\
  (exists m, run2.2 = inl (ValueError m)) /\
  ex_fs !! ["C:"; "abs"; "main.x"] = None /\
  run2.1 !! ["C:"; "abs"; "main.x"] = Some (File [x61]).
Proof.
  vm_compute. split; [reflexivity|]. split; [reflexivity|]. split; [reflexivity|].
  split; [discriminate|]. split; [eexists; reflexivity|]. split; reflexivity.
Qed.

(** ** What the copies put where *)

Lemma grows_bind {A B} (P : path -> Prop) (m : M A) (k : A -> M B) :
  keeps m -> grows P m -> (forall a, grows P (k a)) -> grows P (m ≫= k).
Proof.
  intros Hkm Hm Hk s s' r Hwf H k0 Hne. unfold mbind, M_bind in H.
  destruct (m s) as [s1 [e|a]] eqn:E; cbn in H.
  - inversion H; subst. exact (Hm _ _ _ Hwf E k0 Hne).
  - destruct (decide (s1 !! k0 = s !! k0)) as [Heq|Hne1].
    + destruct (Hkm _ _ _ E Hwf) as [Hwf1 _].
      rewrite <- Heq. apply (Hk a _ _ _ Hwf1 H k0). congruence.
    + exact (Hm _ _ _ Hwf E k0 Hne1).
Qed.

Lemma grows_get_bind {A} (P : path -> Prop) (k : fsys -> M A) :
  (forall fs, wf fs -> grows P (k fs)) -> grows P (get ≫= k).
Proof. intros Hk s s' r Hwf H. rewrite get_bind in H. exact (Hk s Hwf s s' r Hwf H). Qed.

Lemma grows_ret {A} (P : path -> Prop) (a : A) : grows P (mret a).
Proof. intros s s' r Hwf H k Hk. inversion H; subst. congruence. Qed.

Lemma grows_raise {A} (P : path -> Prop) e : grows P (@raise A e).
Proof. intros s s' r Hwf H k Hk. inversion H; subst. congruence. Qed.

Lemma grows_mono {A : Type} (P Q : path -> Prop) (m : M A) :
  (forall k, P k -> Q k) -> grows P m -> grows Q m.
Proof.
  intros HPQ Hm s s' r Hwf H k Hk. destruct (Hm _ _ _ Hwf H k Hk); [left; auto | right; auto].
Qed.

Lemma grows_catch_os {A} (P : path -> Prop) (m : M A) h ok : grows P m -> grows P (catch_os m h ok).
Proof.
  intros Hm s s' r Hwf H k Hk. unfold catch_os in H.
  destruct (m s) as [s1 [e|a]] eqn:E; [destruct (is_oserror e)|];
    inversion H; subst; exact (Hm _ _ _ Hwf E k Hk).
Qed.

Lemma grows_of_frame0 {A} (P : path -> Prop) (m : M A) : frame0 P m -> grows P m.
Proof. intros Hm s s' r _ H k Hk. left. exact (Hm _ _ _ H k Hk). Qed.

(** [makedirs] only creates missing directories. *)
Lemma mkdirs_from_grows (P : path -> Prop) d todo :
  d <> [] -> good_parts (tail d) -> good_parts todo -> grows P (mkdirs_from d todo).
Proof.
  revert d; induction todo as [|c rest IH]; intros d Hd Hgd Ht; simpl; [apply grows_ret|].
  inversion Ht; subst.
  assert (Hq : d ++ [c] <> []) by (destruct d; discriminate).
  assert (Hgq : good_parts (tail (d ++ [c]))).
  { destruct d as [|x l]; [congruence|]. simpl. apply good_parts_app. split; auto.
    constructor; [assumption | constructor]. }
  assert (Hgr : good_parts rest) by assumption.
  intros s s' r Hwf H k Hk. rewrite get_bind in H.
  destruct (s !! (d ++ [c])) as [[b|]|] eqn:Efs.
  - inversion H; subst. congruence.
  - exact (IH (d ++ [c]) Hq Hgq Hgr _ _ _ Hwf H k Hk).
  - unfold mbind, M_bind, modify in H. simpl in H.
    assert (Hwf1 : wf (<[d ++ [c] := Dir]> s)) by (apply wf_insert; auto).
    destruct (decide (k = d ++ [c])) as [->|Hne]; [right; exact Efs|].
    rewrite <- (lookup_insert_ne s (d ++ [c]) k Dir) by congruence.
    apply (IH (d ++ [c]) Hq Hgq Hgr _ _ _ Hwf1 H k).
    rewrite lookup_insert_ne by congruence. exact Hk.
Qed.

Lemma mkdir_p_grows (P : path -> Prop) p : grows P (mkdir_p p).
Proof.
  unfold mkdir_p. pose proof (normalize_tail_parts p) as Hg.
  destruct (normalize p) as [|d rest]; [apply grows_raise|].
  apply grows_get_bind. intros fs _. case_match; [case_match|]; try apply grows_raise.
  apply mkdirs_from_grows; [discriminate | constructor | exact Hg].
Qed.

Lemma copy2_grows src dst : grows (inside (normalize dst)) (copy2 src dst).
Proof. apply grows_of_frame0, copy2_frame0. Qed.

(** The entries of [copy_entries] change what lies under their own
    targets, and otherwise only create directories. *)
Lemma copy_entries_grows cd s dst es :
  (forall a b, keeps (cd a b)) ->
  (forall a b, grows (inside (normalize b)) (cd a b)) ->
  grows (fun k => exists n v, (n, v) ∈ es /\ inside (normalize (dst ++ [n])) k)
    (copy_entries cd s dst es).
Proof.
  intros Hk Hg. induction es as [|[n v] es IH]; simpl; [apply grows_ret|].
  apply grows_bind; [| | intros; apply grows_bind;
    [apply copy_entries_keeps; exact Hk | | intros; apply grows_ret]].
  - apply keeps_catch_os. apply keeps_bind; [|intros; apply keeps_ret].
    destruct v; [apply copy2_keeps | apply Hk].
  - apply grows_catch_os. apply grows_bind; [| |intros; apply grows_ret].
    + destruct v; [apply copy2_keeps | apply Hk].
    + eapply grows_mono; [|destruct v; [apply copy2_grows | apply Hg]].
      intros k Hin. exists n, v. split; [left | exact Hin].
  - eapply grows_mono; [|exact IH].
    intros k (m & w & Hm & Hin). exists m, w. split; [right; exact Hm | exact Hin].
Qed.

Lemma copytree_grows f src dst : grows (inside (normalize dst)) (copytree f src dst).
Proof.
  revert src dst; induction f as [|f IH]; intros src dst; simpl; [apply grows_raise|].
  apply grows_get_bind. intros fs Hwf. repeat case_match; try apply grows_raise.
  apply grows_bind; [apply mkdir_p_keeps | apply mkdir_p_grows | intros _].
  apply grows_bind; [apply copy_entries_keeps, copytree_keeps | | intros b].
  - eapply grows_mono; [|apply copy_entries_grows; [apply copytree_keeps | exact IH]].
    intros k (m & w & Hm & Hin). eapply inside_trans; [|exact Hin].
    apply normalize_snoc_inside. right.
    assert (Hs : normalize src <> []).
    { intros E. rewrite E in *. destruct (Hwf _ _ ltac:(eassumption)) as [Hn _]. congruence. }
    exact (proj1 (Forall_forall _ _) (children_good _ _ Hwf Hs) _ Hm).
  - destruct b; [apply grows_raise | apply grows_ret].
Qed.

Lemma copytree_top_grows src dst : grows (inside (normalize dst)) (copytree_top src dst).
Proof. unfold copytree_top. apply grows_get_bind. intros. apply copytree_grows. Qed.

Lemma copied_keep {A} (P : path -> Prop) (m : M A) s s' r k b :
  keeps m -> grows P m -> wf s -> m s = (s', r) ->
  ~ P k -> ~ P (k ++ [name k]) -> copied s k b -> copied s' k b.
Proof.
  intros Hk Hg Hwf H Hp1 Hp2 Hc.
  assert (Hf : forall q c, ~ P q -> s !! q = Some (File c) -> s' !! q = Some (File c)).
  { intros q c Hq Hs. destruct (decide (s' !! q = s !! q)) as [E|E]; [congruence|].
    destruct (Hg _ _ _ Hwf H q E) as [Hp|Hn]; [contradiction | congruence]. }
  destruct Hc as [Hc|[Hd Hc]]; [left; auto|right; split; auto].
  exact (proj2 (Hk _ _ _ H Hwf) _ Hd).
Qed.

Lemma child_name_key d k c : child_name d k = Some c -> k = d ++ [c].
Proof.
  intros H. apply child_name_spec in H as (Hl & Ht & Hc).
  rewrite <- (take_drop (length d) k), Ht.
  assert (Hd : length (drop (length d) k) = 1%nat) by (rewrite length_drop; lia).
  destruct (drop (length d) k) as [|x [|y r]] eqn:E; simpl in Hd; try lia.
  f_equal. rewrite <- (take_drop (length d) k), Ht, E, last_snoc in Hc. congruence.
Qed.

Lemma children_lookup fs d c v : (c, v) ∈ children fs d -> fs !! (d ++ [c]) = Some v.
Proof.
  intros H. apply elem_of_children in H as [k [Hk Hc]].
  apply child_name_key in Hc. subst k. exact Hk.
Qed.

Lemma lookup_children fs d c v : fs !! (d ++ [c]) = Some v -> (c, v) ∈ children fs d.
Proof.
  intros H. unfold children. apply list_elem_of_omap. exists (d ++ [c], v).
  split; [apply elem_of_map_to_list; exact H|]. simpl.
  unfold child_name. rewrite bool_decide_eq_true_2.
  - rewrite last_snoc. reflexivity.
  - rewrite length_app. simpl. split; [lia | apply take_app_length].
Qed.

Lemma NoDup_omap_names (d : path) (l : list (path * node)) :
  NoDup l.*1 ->
  NoDup (omap (fun kn : path * node => (fun c => (c, kn.2)) <$> child_name d kn.1) l).*1.
Proof.
  induction l as [|[k v] l IH]; simpl; intros Hnd; [constructor|].
  apply NoDup_cons in Hnd as [Hk Hnd].
  destruct (child_name d k) as [c|] eqn:Ec; simpl; [|exact (IH Hnd)].
  constructor; [|exact (IH Hnd)].
  intros Hin. apply list_elem_of_fmap in Hin as [[c' w] [Hc' Hin]]. simpl in Hc'. subst c'.
  apply list_elem_of_omap in Hin as [[k2 w2] [Hin Hx]]. simpl in Hx.
  destruct (child_name d k2) as [c2|] eqn:Ec2; simpl in Hx; [|discriminate].
  inversion Hx; subst c2.
  apply child_name_key in Ec, Ec2. subst.
  apply Hk. apply list_elem_of_fmap. eexists. split; [|exact Hin]. reflexivity.
Qed.

(** The names [os.scandir] lists are distinct. *)
Lemma children_NoDup fs d : NoDup (children fs d).*1.
Proof. apply NoDup_omap_names, NoDup_fst_map_to_list. Qed.

Lemma inside_snoc_cons a m n l : inside (a ++ [m]) (a ++ n :: l) -> m = n.
Proof.
  unfold inside. rewrite length_app. simpl.
  replace (a ++ n :: l) with ((a ++ [n]) ++ l) by (rewrite <- app_assoc; reflexivity).
  rewrite take_app_length' by (rewrite length_app; simpl; lia).
  intros H. apply app_inj_tail in H as [_ H]. congruence.
Qed.

Lemma copy2_copied src dst s s' b :
  copy2 src dst s = (s', inr ()) -> s !! normalize src = Some (File b) ->
  normalize dst <> [] -> name (normalize src) = name (normalize dst) ->
  good (name (normalize dst)) = true ->
  copied s' (normalize dst) b.
Proof.
  intros H Hs Hd Hn Hg. unfold copy2 in H. rewrite get_bind in H. cbv zeta in H.
  rewrite Hn in H.
  destruct (is_dir s (normalize dst)) eqn:Ed.
  - case_bool_decide; [discriminate|]. rewrite Hs in H.
    apply write_file_inr in H as [-> _].
    rewrite normalize_app_good, normalize_idem
      by (auto || (constructor; [exact Hg | constructor])).
    right. unfold is_dir, lookup_node in Ed. rewrite normalize_idem in Ed.
    split.
    + rewrite lookup_insert_ne by (intros E; apply (f_equal length) in E;
        rewrite length_app in E; simpl in E; lia).
      destruct (s !! normalize dst) as [[]|]; congruence.
    + apply lookup_insert_eq.
  - case_bool_decide; [discriminate|]. rewrite Hs in H.
    apply write_file_inr in H as [-> _]. rewrite normalize_idem.
    left. apply lookup_insert_eq.
Qed.

Lemma catch_os_false (m : M unit) s s1 :
  catch_os (m ;; mret false) true id s = (s1, inr false) -> m s = (s1, inr ()).
Proof.
  unfold catch_os. destruct ((m ;; mret false) s) as [x [e|a]] eqn:E.
  - destruct (is_oserror e); discriminate.
  - intros H. inversion H; subst. apply bind_inr in E as (s2 & [] & Hm & Hr).
    apply ret_inr in Hr as [-> _]. exact Hm.
Qed.

Lemma name_snoc p n : p <> [] -> name (p ++ [n]) = n.
Proof.
  intros Hp. unfold name.
  destruct (p ++ [n]) as [|a [|b r]] eqn:E.
  - destruct p; discriminate.
  - apply (f_equal length) in E. rewrite length_app in E. simpl in E.
    destruct p; [congruence | simpl in E; lia].
  - rewrite <- E, last_snoc. reflexivity.
Qed.

Lemma apart_snoc a t n : apart a t -> apart (a ++ [n]) (t ++ [n]).
Proof.
  intros H k Hk Hnear. apply (H k (inside_trans _ _ _ (inside_app a [n]) Hk)).
  destruct Hnear as [Hkt|Htk].
  - destruct (inside_comparable k t (t ++ [n]) Hkt (inside_app t [n])) as [Hc|Hc];
      [left | right]; exact Hc.
  - right. exact (inside_trans _ _ _ (inside_app t [n]) Htk).
Qed.

Lemma normalize_snoc_good p n : p <> [] -> good n = true -> normalize (p ++ [n]) = normalize p ++ [n].
Proof. intros Hp Hn. apply normalize_app_good; [exact Hp | constructor; [exact Hn | constructor]]. Qed.

(** A run that changes only entries near [t] leaves a subtree apart from
    [t] as it was. *)
Lemma frame_apart {A} (m : M A) a t s s' r k :
  frame (near t) m -> wf s -> m s = (s', r) -> apart a t -> inside a k -> s' !! k = s !! k.
Proof.
  intros Hf Hwf H Hap Hk. destruct (decide (s' !! k = s !! k)) as [E|E]; [exact E|].
  exfalso. exact (Hap k Hk (Hf _ _ _ Hwf H k E)).
Qed.

Section CopyEntries.

Variable cd : path -> path -> M unit.
Hypothesis cd_keeps : forall a b, keeps (cd a b).
Hypothesis cd_grows : forall a b, grows (inside (normalize b)) (cd a b).
Hypothesis cd_frame : forall a b, frame (near (normalize b)) (cd a b).
Hypothesis cd_copied : forall src dst s s', wf s -> cd src dst s = (s', inr ()) ->
  apart (normalize src) (normalize dst) ->
  forall rel b, rel <> [] -> reach s (normalize src) rel ->
  s !! (normalize src ++ rel) = Some (File b) -> copied s' (normalize dst ++ rel) b.

(** When no entry fails, every file reached from a listed entry of [ns]
    has been copied to the same relative path under [dst]. *)
Lemma copy_entries_copied ns dst s0 es :
  ns <> [] -> good_parts (tail ns) -> normalize dst <> [] ->
  NoDup es.*1 ->
  (forall n v, (n, v) ∈ es -> s0 !! (ns ++ [n]) = Some v /\ good n = true) ->
  apart ns (normalize dst) ->
  forall s s', wf s -> (forall k, inside ns k -> s !! k = s0 !! k) ->
  copy_entries cd ns dst es s = (s', inr false) ->
  forall n v rel b, (n, v) ∈ es -> reach s0 ns (n :: rel) ->
  s0 !! (ns ++ n :: rel) = Some (File b) -> copied s' (normalize dst ++ n :: rel) b.
Proof.
  intros Hns Hgns Hnd. assert (Hd : dst <> []) by (intros ->; apply Hnd; reflexivity).
  assert (Hnorm : normalize ns = ns) by (destruct ns; [congruence | apply normalize_good, Hgns]).
  induction es as [|[n1 k1] es IH];
    intros Hnodup Hes Hap s s' Hwf Hag H n v rel b Hin Hreach Hsrc; [inversion Hin|].
  simpl in H. apply bind_inr in H as (s1 & failed & H1 & H).
  apply bind_inr in H as (s2 & rest & H2 & H3). apply ret_inr in H3 as [-> Hfr].
  destruct failed, rest; simpl in Hfr; try discriminate. clear Hfr.
  apply catch_os_false in H1.
  simpl in Hnodup. apply NoDup_cons in Hnodup as [Hn1 Hnodup].
  destruct (Hes n1 k1 (list_elem_of_here _ _)) as [Hs01 Hg1].
  assert (Hes' : forall n v, (n, v) ∈ es -> s0 !! (ns ++ [n]) = Some v /\ good n = true)
    by (intros; apply Hes; apply list_elem_of_further; assumption).
  assert (Hact : keeps (match k1 with Dir => cd (ns ++ [n1]) (dst ++ [n1])
                        | File _ => copy2 (ns ++ [n1]) (dst ++ [n1]) end) /\
                 frame (near (normalize (dst ++ [n1])))
                   (match k1 with Dir => cd (ns ++ [n1]) (dst ++ [n1])
                    | File _ => copy2 (ns ++ [n1]) (dst ++ [n1]) end))
    by (destruct k1; split; auto using copy2_keeps, copy2_frame).
  destruct Hact as [Hk1 Hf1].
  destruct (Hk1 _ _ _ H1 Hwf) as [Hwf1 _].
  assert (Hag1 : forall k, inside ns k -> s1 !! k = s0 !! k).
  { intros k Hk. rewrite <- (Hag k Hk). apply (frame_apart _ ns (normalize (dst ++ [n1])) s s1 _ k Hf1 Hwf H1); [|exact Hk].
    rewrite normalize_snoc_good by auto. intros q Hq Hnear. apply (Hap q Hq).
    eapply near_mono; [apply inside_app | exact Hnear]. }
  apply elem_of_cons in Hin as [Hin|Hin].
  2: exact (IH Hnodup Hes' Hap s1 s2 Hwf1 Hag1 H2 n v rel b Hin Hreach Hsrc).
  inversion Hin; subst n v. clear Hin.
  assert (HnotP : forall l, ~ (exists m w, (m, w) ∈ es /\
                     inside (normalize (dst ++ [m])) (normalize dst ++ n1 :: l))).
  { intros l (m & w & Hm & Hi). rewrite normalize_snoc_good in Hi by (auto; apply (Hes' m w Hm)).
    apply inside_snoc_cons in Hi. subst m. apply Hn1.
    apply list_elem_of_fmap. exists (n1, w). split; [reflexivity | exact Hm]. }
  eapply (copied_keep _ _ s1 s2); [apply copy_entries_keeps, cd_keeps |
    apply copy_entries_grows; [exact cd_keeps | exact cd_grows] | exact Hwf1 | exact H2 |
    apply HnotP | rewrite <- app_assoc; apply HnotP |].
  destruct k1 as [bk|]; destruct rel as [|r rel'].
  - assert (Hb : s !! normalize (ns ++ [n1]) = Some (File b)).
    { rewrite normalize_snoc_good, Hnorm by auto. rewrite Hag by apply inside_app. exact Hsrc. }
    pose proof (copy2_copied _ _ _ _ _ H1 Hb) as Hc.
    rewrite !normalize_snoc_good, Hnorm, !name_snoc in Hc by auto. apply Hc; auto.
    intros E. apply (f_equal length) in E. rewrite length_app in E. simpl in E. lia.
  - exfalso. specialize (Hreach 1%nat ltac:(simpl; lia)). simpl in Hreach. congruence.
  - exfalso. congruence.
  - assert (Hc : copied s1 (normalize (dst ++ [n1]) ++ r :: rel') b).
    { apply (cd_copied _ _ s s1 Hwf H1); [| discriminate | |].
      - rewrite !normalize_snoc_good, Hnorm by auto. apply apart_snoc, Hap.
      - intros i Hi. rewrite normalize_snoc_good, Hnorm by auto.
        rewrite <- app_assoc. simpl. rewrite Hag by apply inside_app.
        apply (Hreach (S i)). simpl in *. lia.
      - rewrite normalize_snoc_good, Hnorm by auto. rewrite <- app_assoc. simpl.
        rewrite Hag by apply inside_app. exact Hsrc. }
    rewrite normalize_snoc_good, <- app_assoc in Hc by auto. exact Hc.
Qed.

End CopyEntries.

(** A [copytree] that succeeds copies every file reached from [src] to the
    same relative path under [dst] (into a directory of that name when one
    is already there), when the source lies apart from the target. *)
Lemma copytree_copied f : forall src dst s s', wf s ->
  copytree f src dst s = (s', inr ()) -> apart (normalize src) (normalize dst) ->
  forall rel b, rel <> [] -> reach s (normalize src) rel ->
  s !! (normalize src ++ rel) = Some (File b) -> copied s' (normalize dst ++ rel) b.
Proof.
  induction f as [|f IH]; intros src dst s s' Hwf H Hap rel b Hrel Hreach Hsrc;
    simpl in H; [discriminate|].
  rewrite get_bind in H. cbv zeta in H.
  destruct (s !! normalize src) as [[bb|]|] eqn:Es; try discriminate.
  apply bind_inr in H as (s1 & [] & Hmk & H).
  apply bind_inr in H as (s2 & failed & Hce & H).
  destruct failed; [discriminate|]. apply ret_inr in H as [-> _].
  assert (Hns : normalize src <> []).
  { intros E. rewrite E in Es. destruct (Hwf _ _ Es) as [Hn _]. congruence. }
  assert (Hnd : normalize dst <> []).
  { intros E. unfold mkdir_p in Hmk. rewrite E in Hmk. discriminate. }
  destruct (mkdir_p_keeps _ _ _ _ Hmk Hwf) as [Hwf1 _].
  assert (Hag1 : forall k, inside (normalize src) k -> s1 !! k = s !! k)
    by (intros k Hk; exact (frame_apart _ _ _ _ _ _ k (mkdir_p_frame dst) Hwf Hmk Hap Hk)).
  destruct rel as [|n rel']; [congruence|].
  set (v := match rel' with [] => File b | _ => Dir end).
  assert (Hv : s !! (normalize src ++ [n]) = Some v).
  { unfold v. destruct rel' as [|r rel'']; [exact Hsrc|].
    specialize (Hreach 1%nat ltac:(simpl; lia)). exact Hreach. }
  eapply (copy_entries_copied (copytree f)); [intros; apply copytree_keeps |
    intros; apply copytree_grows | intros; apply copytree_frame | exact IH |
    exact Hns | apply normalize_tail_parts | exact Hnd | apply children_NoDup | | exact Hap |
    exact Hwf1 | exact Hag1 | exact Hce | apply lookup_children, Hv | exact Hreach | exact Hsrc].
  intros m w Hm. split; [apply (children_lookup _ _ _ _ Hm)|].
  exact (proj1 (Forall_forall _ _) (children_good _ _ Hwf Hns) _ Hm).
Qed.

Lemma copytree_top_copied src dst s s' :
  wf s -> copytree_top src dst s = (s', inr ()) -> apart (normalize src) (normalize dst) ->
  forall rel b, rel <> [] -> reach s (normalize src) rel ->
  s !! (normalize src ++ rel) = Some (File b) -> copied s' (normalize dst ++ rel) b.
Proof. unfold copytree_top. intros Hwf H. rewrite get_bind in H. exact (copytree_copied _ _ _ _ _ Hwf H). Qed.

Lemma mkdirs_from_dir d todo s s' :
  s !! d = Some Dir -> mkdirs_from d todo s = (s', inr ()) -> s' !! (d ++ todo) = Some Dir.
Proof.
  revert d s; induction todo as [|c rest IH]; intros d s Hd H; simpl in H.
  - apply ret_inr in H as [-> _]. rewrite app_nil_r. exact Hd.
  - rewrite get_bind in H. replace (d ++ c :: rest) with ((d ++ [c]) ++ rest)
      by (rewrite <- app_assoc; reflexivity).
    destruct (s !! (d ++ [c])) as [[b|]|] eqn:E; [discriminate | exact (IH _ _ E H)|].
    apply bind_inr in H as (s1 & [] & Hm & H). apply modify_inr in Hm. subst s1.
    apply (IH _ _ (lookup_insert_eq _ _ _) H).
Qed.

Lemma mkdir_p_dir p s s' : mkdir_p p s = (s', inr ()) -> s' !! normalize p = Some Dir.
Proof.
  unfold mkdir_p. destruct (normalize p) as [|d rest]; [discriminate|].
  intros H. rewrite get_bind in H. destruct (s !! [d]) as [[b|]|] eqn:E; try discriminate.
  exact (mkdirs_from_dir [d] rest s s' E H).
Qed.

(** A [copytree] that succeeds leaves a directory at its target. *)
Lemma copytree_dir f src dst s s' :
  wf s -> copytree f src dst s = (s', inr ()) -> s' !! normalize dst = Some Dir.
Proof.
  destruct f as [|f]; simpl; [discriminate|]. intros Hwf H.
  rewrite get_bind in H. cbv zeta in H.
  destruct (s !! normalize src) as [[bb|]|]; try discriminate.
  apply bind_inr in H as (s1 & [] & Hmk & H).
  apply bind_inr in H as (s2 & failed & Hce & H).
  destruct failed; [discriminate|]. apply ret_inr in H as [-> _].
  destruct (mkdir_p_keeps _ _ _ _ Hmk Hwf) as [Hwf1 _].
  apply (proj2 (copy_entries_keeps _ _ _ _ (copytree_keeps f) _ _ _ Hce Hwf1)).
  exact (mkdir_p_dir _ _ _ Hmk).
Qed.

Lemma copytree_top_dir src dst s s' :
  wf s -> copytree_top src dst s = (s', inr ()) -> s' !! normalize dst = Some Dir.
Proof. unfold copytree_top. intros Hwf H. rewrite get_bind in H. exact (copytree_dir _ _ _ _ _ Hwf H). Qed.

Lemma insert_by_perm le x l : insert_by le x l ≡ₚ x :: l.
Proof.
  induction l as [|y l IH]; simpl; [reflexivity|].
  destruct (le x y); [reflexivity|]. rewrite IH. apply perm_swap.
Qed.

Lemma sort_names_perm l : sort_names l ≡ₚ l.
Proof.
  unfold sort_names. induction l as [|x l IH]; simpl; [reflexivity|].
  rewrite insert_by_perm, IH. reflexivity.
Qed.

(** ** The runtime copy *)

Lemma copy_runtime_entries_keeps rd root names : keeps (copy_runtime_entries rd root names).
Proof.
  induction names as [|n ns IH]; simpl; [apply keeps_ret|].
  case_match; [exact IH|].
  apply keeps_get_bind. intros fs. apply keeps_bind; [| intros _; exact IH].
  case_match; [apply copytree_top_keeps | apply copy2_keeps].
Qed.

(** Only the targets of the entries not named [.git] or [.gitignore] (with
    their missing ancestors and what lies under them) change. *)
Lemma copy_runtime_entries_frame rd root names :
  frame (fun k => exists n, n ∈ names /\ n <> ".git" /\ n <> ".gitignore" /\
                  near (normalize (root ++ [n])) k)
    (copy_runtime_entries rd root names).
Proof.
  induction names as [|n ns IH]; simpl; [apply frame_ret|].
  destruct (String.eqb n ".git" || String.eqb n ".gitignore") eqn:Eg.
  - eapply frame_mono; [|exact IH].
    intros k (m & Hm & H1 & H2 & H3). exists m. repeat split; auto. right. exact Hm.
  - apply orb_false_iff in Eg as [E1 E2].
    apply String.eqb_neq in E1, E2.
    apply frame_get_bind. intros fs _.
    apply frame_bind; [case_match; [apply copytree_top_keeps | apply copy2_keeps] | | intros _].
    + eapply frame_mono; [|case_match; [apply copytree_top_frame | apply copy2_frame]].
      intros k Hk. exists n. repeat split; auto. left.
    + eapply frame_mono; [|exact IH].
      intros k (m & Hm & H1 & H2 & H3). exists m. repeat split; auto. right. exact Hm.
Qed.

Lemma copy_runtime_entries_grows rd root names :
  grows (fun k => exists n, n ∈ names /\ inside (normalize (root ++ [n])) k)
    (copy_runtime_entries rd root names).
Proof.
  induction names as [|n ns IH]; simpl; [apply grows_ret|].
  destruct (String.eqb n ".git" || String.eqb n ".gitignore").
  - eapply grows_mono; [|exact IH].
    intros k (m & Hm & H). exists m. split; [right; exact Hm | exact H].
  - apply grows_get_bind. intros fs _.
    apply grows_bind; [case_match; [apply copytree_top_keeps | apply copy2_keeps] | | intros _].
    + eapply grows_mono; [|case_match; [apply copytree_top_grows | apply copy2_grows]].
      intros k Hk. exists n. split; [left | exact Hk].
    + eapply grows_mono; [|exact IH].
      intros k (m & Hm & H). exists m. split; [right; exact Hm | exact H].
Qed.

(** When the runtime copy succeeds, every listed entry not named [.git] or
    [.gitignore] is in the payload: a directory as a directory, and every
    file reached from the entry with its bytes. *)
Lemma copy_runtime_entries_copied rd root names s0 :
  rd <> [] -> normalize root <> [] -> NoDup names ->
  (forall n, n ∈ names -> good n = true) ->
  apart (normalize rd) (normalize root) ->
  forall s s', wf s -> (forall k, inside (normalize rd) k -> s !! k = s0 !! k) ->
  copy_runtime_entries rd root names s = (s', inr ()) ->
  forall n, n ∈ names -> n <> ".git" -> n <> ".gitignore" ->
  (s0 !! (normalize rd ++ [n]) = Some Dir -> s' !! (normalize root ++ [n]) = Some Dir) /\
  (forall rel b, reach s0 (normalize rd) (n :: rel) ->
   s0 !! (normalize rd ++ n :: rel) = Some (File b) -> copied s' (normalize root ++ n :: rel) b).
Proof.
  intros Hrd Hnr. assert (Hroot : root <> []) by (intros ->; apply Hnr; reflexivity).
  induction names as [|m ns IH]; intros Hnd Hgood Hap s s' Hwf Hag H n Hin Hn1 Hn2;
    [inversion Hin|].
  apply NoDup_cons in Hnd as [Hm Hnd].
  assert (Hgood' : forall n, n ∈ ns -> good n = true)
    by (intros; apply Hgood, list_elem_of_further; assumption).
  simpl in H. destruct (String.eqb m ".git" || String.eqb m ".gitignore") eqn:Eg.
  { apply elem_of_cons in Hin as [->|Hin]; [|exact (IH Hnd Hgood' Hap s s' Hwf Hag H n Hin Hn1 Hn2)].
    apply orb_true_iff in Eg as [E|E]; apply String.eqb_eq in E; contradiction. }
  rewrite get_bind in H. apply bind_inr in H as (s1 & [] & H1 & H2).
  unfold child in H1.
  assert (Hgm : good m = true) by (apply Hgood; left).
  set (act := if is_dir s (rd ++ [m]) then copytree_top (rd ++ [m]) (root ++ [m])
              else copy2 (rd ++ [m]) (root ++ [m])) in H1.
  assert (Hk1 : keeps act) by (unfold act; case_match; [apply copytree_top_keeps | apply copy2_keeps]).
  assert (Hf1 : frame (near (normalize (root ++ [m]))) act)
    by (unfold act; case_match; [apply copytree_top_frame | apply copy2_frame]).
  destruct (Hk1 _ _ _ H1 Hwf) as [Hwf1 _].
  assert (Hag1 : forall k, inside (normalize rd) k -> s1 !! k = s0 !! k).
  { intros k Hk. rewrite <- (Hag k Hk).
    apply (frame_apart _ (normalize rd) (normalize (root ++ [m])) s s1 _ k Hf1 Hwf H1); [|exact Hk].
    rewrite normalize_snoc_good by auto. intros q Hq Hnear. apply (Hap q Hq).
    eapply near_mono; [apply inside_app | exact Hnear]. }
  apply elem_of_cons in Hin as [->|Hin].
  2: exact (IH Hnd Hgood' Hap s1 s' Hwf1 Hag1 H2 n Hin Hn1 Hn2).
  assert (HnotP : forall l, ~ (exists m', m' ∈ ns /\
                     inside (normalize (root ++ [m'])) (normalize root ++ m :: l))).
  { intros l (m' & Hm' & Hi). rewrite normalize_snoc_good in Hi by (auto; apply Hgood', Hm').
    apply inside_snoc_cons in Hi. subst m'. contradiction. }
  assert (Hdir : is_dir s (rd ++ [m]) = match s0 !! (normalize rd ++ [m]) with Some Dir => true | _ => false end).
  { unfold is_dir, lookup_node. rewrite normalize_snoc_good by auto.
    rewrite Hag by apply inside_app. reflexivity. }
  split.
  - intros Hd. apply (proj2 (copy_runtime_entries_keeps _ _ _ _ _ _ H2 Hwf1)).
    unfold act in H1. rewrite Hdir, Hd in H1.
    rewrite <- normalize_snoc_good by auto. exact (copytree_top_dir _ _ _ _ Hwf H1).
  - intros rel b Hreach Hsrc.
    eapply (copied_keep _ _ s1 s'); [apply copy_runtime_entries_keeps |
      apply copy_runtime_entries_grows | exact Hwf1 | exact H2 |
      apply HnotP | rewrite <- app_assoc; apply HnotP |].
    unfold act in H1. rewrite Hdir in H1. destruct rel as [|r rel'].
    + rewrite Hsrc in H1.
      assert (Hb : s !! normalize (rd ++ [m]) = Some (File b))
        by (rewrite normalize_snoc_good by auto; rewrite Hag by apply inside_app; exact Hsrc).
      pose proof (copy2_copied _ _ _ _ _ H1 Hb) as Hc.
      rewrite !normalize_snoc_good, !name_snoc in Hc by (auto; intros E; apply normalize_nil in E; congruence).
      apply Hc; auto.
      intros E. apply (f_equal length) in E. rewrite length_app in E. simpl in E. lia.
    + assert (Hd : s0 !! (normalize rd ++ [m]) = Some Dir)
        by (specialize (Hreach 1%nat ltac:(simpl; lia)); exact Hreach).
      rewrite Hd in H1.
      assert (Hc : copied s1 (normalize (root ++ [m]) ++ r :: rel') b).
      { apply (copytree_top_copied _ _ s s1 Hwf H1); [| discriminate | |].
        - rewrite !normalize_snoc_good by auto. apply apart_snoc, Hap.
        - intros i Hi. rewrite normalize_snoc_good by auto.
          rewrite <- app_assoc. simpl. rewrite Hag by apply inside_app.
          apply (Hreach (S i)). simpl in *. lia.
        - rewrite normalize_snoc_good by auto. rewrite <- app_assoc. simpl.
          rewrite Hag by apply inside_app. exact Hsrc. }
      rewrite normalize_snoc_good, <- app_assoc in Hc by auto. exact Hc.
Qed.

Lemma apart_nonempty a t : apart a t -> a <> [] /\ t <> [].
Proof.
  intros H. split; intros ->.
  - apply (H t); [reflexivity | left; apply inside_refl].
  - apply (H a); [apply inside_refl | right; reflexivity].
Qed.

(** Two subtrees are apart exactly when neither root is inside the other. *)
Lemma apart_of_diverge a t : ~ inside a t -> ~ inside t a -> apart a t.
Proof.
  intros H1 H2 k Hak [Hkt|Htk].
  - exact (H1 (inside_trans _ _ _ Hak Hkt)).
  - destruct (inside_comparable a t k Hak Htk); contradiction.
Qed.

Lemma inside_same_length x y : inside x y -> length x = length y -> x = y.
Proof. unfold inside. intros H E. rewrite <- H, take_ge by lia. reflexivity. Qed.

Lemma near_snoc_inside_snoc a n g k : near (a ++ [n]) k -> inside (a ++ [g]) k -> n = g.
Proof.
  assert (Hl : length (a ++ [n]) = length (a ++ [g])) by (rewrite !length_app; reflexivity).
  intros [Hkt|Htk] Hg.
  - pose proof (inside_same_length _ _ (inside_trans _ _ _ Hg Hkt) (eq_sym Hl)) as E.
    apply app_inj_tail in E as [_ E]. congruence.
  - destruct (inside_comparable _ _ _ Htk Hg) as [E|E];
      [apply inside_same_length in E | apply inside_same_length in E]; auto;
      apply app_inj_tail in E as [_ E]; congruence.
Qed.

Lemma map_fst_fmap {A B} (l : list (A * B)) : map fst l = l.*1.
Proof. induction l as [|x l IH]; simpl; [reflexivity | rewrite IH; reflexivity]. Qed.

Lemma elem_of_runtime_names fs d n v :
  fs !! (d ++ [n]) = Some v -> n ∈ sort_names (map fst (children fs d)).
Proof.
  intros H. rewrite sort_names_perm, map_fst_fmap. apply list_elem_of_fmap.
  exists (n, v). split; [reflexivity | apply lookup_children, H].
Qed.

Lemma good_runtime_names fs d n :
  wf fs -> d <> [] -> n ∈ sort_names (map fst (children fs d)) -> good n = true.
Proof.
  intros Hwf Hd Hn. rewrite sort_names_perm, map_fst_fmap in Hn.
  apply list_elem_of_fmap in Hn as [[c v] [-> Hin]].
  exact (proj1 (Forall_forall _ _) (children_good _ _ Hwf Hd) _ Hin).
Qed.

Lemma parent_nil p : parent p = [] -> p = [].
Proof.
  destruct p as [|x [|y l]]; simpl; [auto | discriminate | discriminate].
Qed.

(** C9: [copy_pre_runtime], run on a resolved file system with the runtime
    directory (the parent of the runtime binary) apart from the payload root,
    never changes anything at or under [.git] and [.gitignore] of the
    payload root, whatever its outcome. When it succeeds, every other
    top-level entry of the runtime directory is in the payload root: a
    directory as a directory, and every file reached from the entry with its
    bytes at the same relative path (inside the directory of that name when
    the payload already had one there). *)
Theorem copy_pre_runtime_skips_git (pre_exe root : path) (fs fs' : fsys) (r : exc + unit) :
  wf fs -> apart (normalize (parent pre_exe)) (normalize root) ->
  copy_pre_runtime pre_exe root fs = (fs', r) ->
  (forall k, inside (normalize root ++ [".git"]) k \/ inside (normalize root ++ [".gitignore"]) k ->
   fs' !! k = fs !! k) /\
  (r = inr () -> forall n, n <> ".git" -> n <> ".gitignore" ->
   (fs !! (normalize (parent pre_exe) ++ [n]) = Some Dir ->
    fs' !! (normalize root ++ [n]) = Some Dir) /\
   (forall rel b, reach fs (normalize (parent pre_exe)) (n :: rel) ->
    fs !! (normalize (parent pre_exe) ++ n :: rel) = Some (File b) ->
    copied fs' (normalize root ++ n :: rel) b)).
Proof.
  intros Hwf Hap H. destruct (apart_nonempty _ _ Hap) as [Hrt Hnr].
  assert (Hrd : parent pre_exe <> []) by (intros E; rewrite E in Hrt; apply Hrt; reflexivity).
  assert (Hroot : root <> []) by (intros ->; apply Hnr; reflexivity).
  unfold copy_pre_runtime in H. rewrite get_bind in H. cbv zeta in H.
  destruct (negb (path_exists fs pre_exe) || negb (is_file fs pre_exe)).
  { inversion H; subst. split; [reflexivity | discriminate]. }
  split.
  - intros k Hk. destruct (decide (fs' !! k = fs !! k)) as [E|E]; [exact E|].
    destruct (copy_runtime_entries_frame _ _ _ _ _ _ Hwf H k E) as (n & Hn & H1 & H2 & H3).
    rewrite normalize_snoc_good in H3 by (auto; exact (good_runtime_names _ _ _ Hwf Hrt Hn)).
    destruct Hk as [Hk|Hk]; apply (near_snoc_inside_snoc _ _ _ _ H3) in Hk; contradiction.
  - intros -> n Hn1 Hn2.
    assert (Hcopy := fun Hin => copy_runtime_entries_copied (parent pre_exe) root
      (sort_names (map fst (children fs (normalize (parent pre_exe))))) fs Hrd Hnr
      ltac:(rewrite sort_names_perm, map_fst_fmap; apply children_NoDup)
      (fun n Hn => good_runtime_names _ _ _ Hwf Hrt Hn) Hap fs fs' Hwf (fun _ _ => eq_refl) H
      n Hin Hn1 Hn2).
    split.
    + intros Hd. exact (proj1 (Hcopy (elem_of_runtime_names _ _ _ _ Hd)) Hd).
    + intros rel b Hreach Hsrc. apply (Hcopy ltac:(destruct rel as [|r rel'];
        [exact (elem_of_runtime_names _ _ _ _ Hsrc) |
         exact (elem_of_runtime_names _ _ _ _ (Hreach 1%nat ltac:(simpl; lia)))])); assumption.
Qed.

Lemma copy_pre_runtime_skips_git_witness :
  (forall k, inside (normalize ex_root ++ [".git"]) k \/ inside (normalize ex_root ++ [".gitignore"]) k ->
   (copy_pre_runtime ["C:"; "rt"; "prefix.exe"] ex_root ex_fs).1 !! k = ex_fs !! k) /\
  ((copy_pre_runtime ["C:"; "rt"; "prefix.exe"] ex_root ex_fs).2 = inr () ->
   forall n, n <> ".git" -> n <> ".gitignore" ->
   (ex_fs !! (normalize (parent ["C:"; "rt"; "prefix.exe"]) ++ [n]) = Some Dir ->
    (copy_pre_runtime ["C:"; "rt"; "prefix.exe"] ex_root ex_fs).1 !! (normalize ex_root ++ [n]) = Some Dir) /\
   (forall rel b, reach ex_fs (normalize (parent ["C:"; "rt"; "prefix.exe"])) (n :: rel) ->
    ex_fs !! (normalize (parent ["C:"; "rt"; "prefix.exe"]) ++ n :: rel) = Some (File b) ->
    copied (copy_pre_runtime ["C:"; "rt"; "prefix.exe"] ex_root ex_fs).1 (normalize ex_root ++ n :: rel) b)).
Proof.
  apply (copy_pre_runtime_skips_git ["C:"; "rt"; "prefix.exe"] ex_root ex_fs
           (copy_pre_runtime ["C:"; "rt"; "prefix.exe"] ex_root ex_fs).1
           (copy_pre_runtime ["C:"; "rt"; "prefix.exe"] ex_root ex_fs).2).
  - assert (H : map_Forall (fun k (_ : node) => k <> [] /\ good_parts (tail k)) ex_fs)
      by (apply (bool_decide_unpack _); vm_compute; reflexivity).
    exact H.
  - apply apart_of_diverge; vm_compute; intros E; inversion E.
  - apply surjective_pairing.
Defined.

(** On the sample runtime directory: [.git] and [.gitignore] stay behind,
    the binary and the [lib] tree are copied. *)
Example copy_pre_runtime_example :
  (copy_pre_runtime ["C:"; "rt"; "prefix.exe"] ex_root ex_fs).2 = inr () /\
  (copy_pre_runtime ["C:"; "rt"; "prefix.exe"] ex_root ex_fs).1 !! (ex_root ++ [".git"]) = None /\
  (copy_pre_runtime ["C:"; "rt"; "prefix.exe"] ex_root ex_fs).1 !! (ex_root ++ [".git"; "HEAD"]) = None /\
  (copy_pre_runtime ["C:"; "rt"; "prefix.exe"] ex_root ex_fs).1 !! (ex_root ++ [".gitignore"]) = None /\
  (copy_pre_runtime ["C:"; "rt"; "prefix.exe"] ex_root ex_fs).1 !! (ex_root ++ ["prefix.exe"]) =
    Some (File [x4d; x5a]) /\
  (copy_pre_runtime ["C:"; "rt"; "prefix.exe"] ex_root ex_fs).1 !! (ex_root ++ ["lib"; "std.x"]) =
    Some (File [x73]).
Proof. vm_compute. repeat split. Qed.

(** ** Included folders *)

Lemma copy_include_folders_cons_inr E raw rest root s s' :
  copy_include_folders E (raw :: rest) root s = (s', inr ()) ->
  exists src t s1, folder_target E raw root = Some (src, t) /\
    copytree_top src t s = (s1, inr ()) /\ copy_include_folders E rest root s1 = (s', inr ()).
Proof.
  simpl. intros H. apply bind_inr in H as (s0 & [src dest] & Hp & H).
  pose proof (parse_mapping_readonly _ _ _ _ _ Hp) as ->.
  destruct (parse_mapping_post E raw _ _ _ Hp) as (sr & dr & Hs & Hsrc & Hdr).
  simpl in Hsrc, Hdr. subst src dest.
  rewrite get_bind in H. destruct (negb (is_dir s _)); [discriminate|].
  apply bind_inr in H as (s1 & r & Hr & H).
  pose proof (rel_or_raise_readonly _ _ _ _ _ Hr) as ->.
  apply bind_inr in H as (s2 & [] & Hc & H).
  do 3 eexists. split; [|split; [exact Hc | exact H]].
  unfold folder_target. rewrite Hs. reflexivity.
Qed.

Lemma expand_resolve_normalize E x : normalize (expand_resolve E x) = expand_resolve E x.
Proof. destruct (expand_resolve_normal E x) as [q ->]. apply normalize_idem. Qed.




(** ** The archive members *)

Lemma under_spec root k r : under root k = Some r <-> k = root ++ r /\ r <> [].
Proof.
  unfold under. split.
  - case_bool_decide as Hb; [|discriminate]. destruct Hb as [Ht Hl].
    intros Hr. inversion Hr; subst r. split.
    + rewrite <- (take_drop (length root) k) at 1. rewrite Ht. reflexivity.
    + intros E. apply (f_equal length) in E. rewrite length_drop in E. simpl in E. lia.
  - intros [-> Hr]. rewrite bool_decide_eq_true_2.
    + rewrite drop_app_length. reflexivity.
    + split; [apply take_app_length|]. rewrite length_app.
      destruct r; [congruence | simpl; lia].
Qed.

Lemma map_chars_app f a b : map_chars f (a +:+ b) = map_chars f a +:+ map_chars f b.
Proof. induction a as [|c a IH]; simpl; [reflexivity | rewrite IH; reflexivity]. Qed.

Lemma replace_sep_plain c : str_has "\"%char c = false -> replace_sep c = c.
Proof.
  unfold replace_sep, str_has. induction c as [|x c IH]; [reflexivity|].
  cbn [String.list_ascii_of_string existsb map_chars].
  intros H. apply orb_false_iff in H as [Hx Hc].
  rewrite Ascii.eqb_sym in Hx. rewrite Hx, IH by exact Hc. reflexivity.
Qed.

(** With components free of backslashes, the member name is the relative
    path joined by forward slashes. *)
Lemma arcname_slash rel :
  rel <> [] -> Forall (fun c => str_has "\"%char c = false) rel ->
  arcname rel = String.concat "/" rel.
Proof.
  unfold arcname, str_rel. destruct rel as [|c0 rel]; [congruence|]. intros _.
  revert c0. induction rel as [|c1 rel IH]; intros c0 Hf; inversion Hf as [|x l Hc0 Hf']; subst.
  - apply replace_sep_plain, Hc0.
  - change (String.concat "\" (c0 :: c1 :: rel)) with (c0 +:+ "\" +:+ String.concat "\" (c1 :: rel)).
    change (String.concat "/" (c0 :: c1 :: rel)) with (c0 +:+ "/" +:+ String.concat "/" (c1 :: rel)).
    pose proof (replace_sep_plain c0 Hc0) as Hp.
    unfold replace_sep in *. rewrite !map_chars_app, IH, Hp by exact Hf'. reflexivity.
Qed.

(** C6: the members [build_payload_zip] writes for the tree at [root] are
    exactly its regular files: a member [(nm, b)] is there if and only if a
    file with bytes [b] lies under [root] at a relative path [rel] (not the
    root itself) and [nm] is [rel] joined by forward slashes. Directories give
    no member. The path components hold no backslash. *)
Theorem zip_members_exact (fs : fsys) (root : path) (nm : string) (b : bytes) :
  (forall k v, fs !! k = Some v -> Forall (fun c => str_has "\"%char c = false) k) ->
  (nm, b) ∈ zip_members fs root <->
  exists rel, rel <> [] /\ fs !! (root ++ rel) = Some (File b) /\ nm = String.concat "/" rel.
Proof.
  intros Hsep. unfold zip_members, rglob_all. rewrite list_elem_of_omap. split.
  - intros ([r n] & Hin & Hm). simpl in Hm. destruct n as [bf|]; [|discriminate].
    inversion Hm; subst nm bf.
    apply list_elem_of_omap in Hin as ([k v] & Hk & Hu). simpl in Hu.
    destruct (under root k) as [r'|] eqn:Eu; simpl in Hu; [|discriminate].
    inversion Hu; subst r' v. apply under_spec in Eu as [-> Hr].
    apply elem_of_map_to_list in Hk. exists r. split; [exact Hr|]. split; [exact Hk|].
    apply arcname_slash; [exact Hr|].
    pose proof (Hsep _ _ Hk) as Hf. apply Forall_app in Hf as [_ Hf]. exact Hf.
  - intros (rel & Hr & Hk & ->). exists (rel, File b). split.
    + apply list_elem_of_omap. exists (root ++ rel, File b). split.
      * apply elem_of_map_to_list, Hk.
      * simpl. rewrite (proj2 (under_spec root (root ++ rel) rel) (conj eq_refl Hr)). reflexivity.
    + simpl. rewrite arcname_slash; [reflexivity | exact Hr |].
      pose proof (Hsep _ _ Hk) as Hf. apply Forall_app in Hf as [_ Hf]. exact Hf.
Qed.

Lemma zip_members_exact_witness :
  ("lib/std.x", [x73]) ∈ zip_members ex_fs ["C:"; "rt"] <->
  exists rel, rel <> [] /\ ex_fs !! (["C:"; "rt"] ++ rel) = Some (File [x73]) /\
    "lib/std.x" = String.concat "/" rel.
Proof.
  apply (zip_members_exact ex_fs ["C:"; "rt"] "lib/std.x" [x73]).
  assert (H : map_Forall (fun k (_ : node) => Forall (fun c => str_has "\"%char c = false) k) ex_fs)
    by (apply (bool_decide_unpack _); vm_compute; reflexivity).
  exact H.
Defined.

(** The members for the sample runtime directory: its four files, named
    with forward slashes, and no directory. *)
Example zip_members_example :
  zip_members ex_fs ["C:"; "rt"] =
    [("lib/std.x", [x73]); ("prefix.exe", [x4d; x5a]); (".gitignore", [x2a]); (".git/HEAD", [x72])].
Proof. vm_compute. reflexivity. Qed.

(** ** Input errors *)

Lemma parse_mapping_ok E raw sr dr fs :
  split_once ";"%char raw = Some (sr, dr) -> path_exists fs (expand_resolve E sr) = true ->
  parse_mapping E raw fs =
    (fs, inr (expand_resolve E sr, if String.eqb (strip dr) "" then "." else strip dr)).
Proof. intros Hs Hp. unfold parse_mapping. rewrite Hs, get_bind, Hp. reflexivity. Qed.

(** C8: the input checks raise [BuildError] with a message naming the
    offending mapping or path, before anything is written: a mapping with no
    [;] (in [parse_mapping], hence in [copy_includes] and
    [copy_include_folders]), a mapping whose source does not exist, an
    included file that is not a file, an included folder that is not a
    directory, and a main script that is missing or not a file (in [build],
    before the temporary directory is made). [main] reports a [BuildError]
    as [Error: <message>] and exits with status 1. *)
Theorem input_errors_are_build_errors (E : env) (raw : string) (rest : list string)
    (root : path) (a : args) (fs : fsys) :
  (split_once ";"%char raw = None ->
   let e := BuildError ("Mapping must be of form 'source;dest_in_exe': " +:+ py_repr raw) in
   parse_mapping E raw fs = (fs, inl e) /\ copy_includes E (raw :: rest) root fs = (fs, inl e) /\
   copy_include_folders E (raw :: rest) root fs = (fs, inl e)) /\
  (forall sr dr, split_once ";"%char raw = Some (sr, dr) ->
   path_exists fs (expand_resolve E sr) = false ->
   let e := BuildError ("Included path does not exist: " +:+ str_abs (expand_resolve E sr)) in
   parse_mapping E raw fs = (fs, inl e) /\ copy_includes E (raw :: rest) root fs = (fs, inl e) /\
   copy_include_folders E (raw :: rest) root fs = (fs, inl e)) /\
  (forall sr dr, split_once ";"%char raw = Some (sr, dr) ->
   path_exists fs (expand_resolve E sr) = true -> is_file fs (expand_resolve E sr) = false ->
   copy_includes E (raw :: rest) root fs =
     (fs, inl (BuildError ("Included file is not a file: " +:+ str_abs (expand_resolve E sr))))) /\
  (forall sr dr, split_once ";"%char raw = Some (sr, dr) ->
   path_exists fs (expand_resolve E sr) = true -> is_dir fs (expand_resolve E sr) = false ->
   copy_include_folders E (raw :: rest) root fs =
     (fs, inl (BuildError ("Included folder is not a directory: " +:+ str_abs (expand_resolve E sr))))) /\
  (is_nt E = true -> (pre_exe_arg a <> None \/ which_prefix E <> None) ->
   is_file fs (expand_resolve E (main_file_arg a)) = false ->
   build E a fs =
     (fs, inl (BuildError ("Main script not found: " +:+ str_abs (expand_resolve E (main_file_arg a)))))) /\
  (forall m, main_exit_code (inl (BuildError m)) = 1%nat /\
   main_stderr (inl (BuildError m)) = "Error: " +:+ m).
Proof.
  split; [|split; [|split; [|split; [|split]]]].
  - intros Hs e. assert (Hp : parse_mapping E raw fs = (fs, inl e))
      by (unfold parse_mapping; rewrite Hs; reflexivity).
    split; [exact Hp|]. split; cbn [copy_includes copy_include_folders]; apply bind_err; exact Hp.
  - intros sr dr Hs Hx e.
    assert (Hp : parse_mapping E raw fs = (fs, inl e))
      by (unfold parse_mapping; rewrite Hs, get_bind, Hx; reflexivity).
    split; [exact Hp|]. split; cbn [copy_includes copy_include_folders]; apply bind_err; exact Hp.
  - intros sr dr Hs Hx Hf. cbn [copy_includes].
    rewrite (bind_run _ _ _ _ _ (parse_mapping_ok E raw sr dr fs Hs Hx)).
    cbv beta iota. rewrite get_bind, Hf. reflexivity.
  - intros sr dr Hs Hx Hd. cbn [copy_include_folders].
    rewrite (bind_run _ _ _ _ _ (parse_mapping_ok E raw sr dr fs Hs Hx)).
    cbv beta iota. rewrite get_bind, Hd. reflexivity.
  - intros Hnt Hpre Hf. unfold build. rewrite Hnt. cbn [negb].
    destruct (pre_exe_arg a) as [p|].
    + rewrite (bind_run _ _ _ _ _ (eq_refl : (mret (expand_resolve E p) : M path) fs = (fs, inr _))).
      cbv zeta. rewrite get_bind, Hf, orb_true_r. reflexivity.
    + destruct (which_prefix E) as [found|]; [|destruct Hpre as [H|H]; contradiction].
      rewrite (bind_run _ _ _ _ _ (eq_refl : (mret (expand_resolve E found) : M path) fs = (fs, inr _))).
      cbv zeta. rewrite get_bind, Hf, orb_true_r. reflexivity.
  - intros m. split; reflexivity.
Qed.

Lemma input_errors_are_build_errors_witness :
  parse_mapping ex_env "C:\a" ex_fs =
    (ex_fs, inl (BuildError ("Mapping must be of form 'source;dest_in_exe': " +:+ py_repr "C:\a"))) /\
  copy_includes ex_env ["C:\nope;d"] ex_root ex_fs =
    (ex_fs, inl (BuildError ("Included path does not exist: " +:+ str_abs (expand_resolve ex_env "C:\nope")))) /\
  copy_includes ex_env ["C:\b;d"] ex_root ex_fs =
    (ex_fs, inl (BuildError ("Included file is not a file: " +:+ str_abs (expand_resolve ex_env "C:\b")))) /\
  copy_include_folders ex_env ["C:\a\x;d"] ex_root ex_fs =
    (ex_fs, inl (BuildError ("Included folder is not a directory: " +:+ str_abs (expand_resolve ex_env "C:\a\x")))) /\
  build ex_env ex_args ex_fs =
    (ex_fs, inl (BuildError ("Main script not found: " +:+ str_abs (expand_resolve ex_env "C:\src\missing.x")))) /\
  main_exit_code (inl (BuildError "Main script not found: C:\src\missing.x")) = 1%nat.
Proof.
  split; [|split; [|split; [|split; [|split]]]].
  - destruct (input_errors_are_build_errors ex_env "C:\a" [] ex_root ex_args ex_fs) as [H _].
    exact (proj1 (H ltac:(reflexivity))).
  - destruct (input_errors_are_build_errors ex_env "C:\nope;d" [] ex_root ex_args ex_fs) as [_ [H _]].
    exact (proj1 (proj2 (H "C:\nope" "d" ltac:(reflexivity) ltac:(vm_compute; reflexivity)))).
  - destruct (input_errors_are_build_errors ex_env "C:\b;d" [] ex_root ex_args ex_fs) as [_ [_ [H _]]].
    exact (H "C:\b" "d" ltac:(reflexivity) ltac:(vm_compute; reflexivity) ltac:(vm_compute; reflexivity)).
  - destruct (input_errors_are_build_errors ex_env "C:\a\x;d" [] ex_root ex_args ex_fs) as [_ [_ [_ [H _]]]].
    exact (H "C:\a\x" "d" ltac:(reflexivity) ltac:(vm_compute; reflexivity) ltac:(vm_compute; reflexivity)).
  - destruct (input_errors_are_build_errors ex_env "" [] ex_root ex_args ex_fs) as [_ [_ [_ [_ [H _]]]]].
    exact (H ltac:(reflexivity) ltac:(left; discriminate) ltac:(vm_compute; reflexivity)).
  - destruct (input_errors_are_build_errors ex_env "" [] ex_root ex_args ex_fs) as [_ [_ [_ [_ [_ H]]]]].
    exact (proj1 (H _)).
Defined.

(** * Further properties of the build *)

Lemma string_leb_refl a : String.leb a a = true.
Proof.
  unfold String.leb. induction a as [|x a IH]; simpl; [reflexivity|].
  unfold Ascii.compare. rewrite N.compare_refl. exact IH.
Qed.

Lemma string_leb_trans a b c :
  String.leb a b = true -> String.leb b c = true -> String.leb a c = true.
Proof.
  unfold String.leb. revert b c.
  induction a as [|x a IH]; intros [|y b] [|z c]; simpl; try congruence.
  unfold Ascii.compare.
  destruct (N.compare_spec (N_of_ascii x) (N_of_ascii y)) as [Hxy|Hxy|Hxy];
  destruct (N.compare_spec (N_of_ascii y) (N_of_ascii z)) as [Hyz|Hyz|Hyz];
  destruct (N.compare_spec (N_of_ascii x) (N_of_ascii z)) as [Hxz|Hxz|Hxz];
  try lia; try congruence; auto.
  all: exact (IH b c).
Qed.

Lemma insert_by_desc_sorted x l :
  StronglySorted (fun a b => desc_le a b = true) l ->
  StronglySorted (fun a b => desc_le a b = true) (insert_by desc_le x l).
Proof.
  induction l as [|y l IH]; simpl; intros Hs.
  - constructor; constructor.
  - inversion Hs as [|? ? Hl Hf]; subst.
    destruct (desc_le x y) eqn:Exy.
    + constructor; [exact Hs|]. constructor; [exact Exy|].
      eapply Forall_impl; [exact Hf|]. intros z Hz. unfold desc_le in *.
      eapply string_leb_trans; [exact Hz | exact Exy].
    + constructor; [apply IH, Hl|].
      rewrite (insert_by_perm desc_le x l). constructor; [|exact Hf].
      unfold desc_le in *. destruct (String.leb_total (map_chars lower x) (map_chars lower y)); congruence.
Qed.

Lemma sort_names_desc_perm l : sort_names_desc l ≡ₚ l.
Proof.
  unfold sort_names_desc. induction l as [|x l IH]; simpl; [reflexivity|].
  rewrite insert_by_perm, IH. reflexivity.
Qed.

Lemma sort_names_desc_sorted l :
  StronglySorted (fun a b => desc_le a b = true) (sort_names_desc l).
Proof.
  unfold sort_names_desc. induction l as [|x l IH]; simpl; [constructor|].
  apply insert_by_desc_sorted, IH.
Qed.

Lemma elem_of_names_desc fs d n :
  n ∈ sort_names_desc (map fst (children fs d)) <-> exists v, fs !! (d ++ [n]) = Some v.
Proof.
  rewrite sort_names_desc_perm, map_fst_fmap, list_elem_of_fmap. split.
  - intros [[c v] [-> Hin]]. exists v. apply children_lookup, Hin.
  - intros [v Hv]. exists (n, v). split; [reflexivity | apply lookup_children, Hv].
Qed.

Lemma csc_candidates_nil fs base subs :
  csc_candidates fs base subs = [] <->
  forall n, n ∈ subs -> path_exists fs (child (child base n) "csc.exe") = false.
Proof.
  induction subs as [|s ss IH]; simpl.
  - split; [intros _ n Hn; inversion Hn | reflexivity].
  - destruct (path_exists fs _) eqn:E; split.
    + discriminate.
    + intros H. rewrite (H s (list_elem_of_here _ _)) in E. discriminate.
    + intros H n Hn. apply elem_of_cons in Hn as [->|Hn]; [exact E | exact (proj1 IH H n Hn)].
    + intros H. apply IH. intros n Hn. apply H, list_elem_of_further, Hn.
Qed.

Lemma csc_candidates_head fs base subs c cs :
  StronglySorted (fun a b => desc_le a b = true) subs ->
  csc_candidates fs base subs = c :: cs ->
  exists n, n ∈ subs /\ c = child (child base n) "csc.exe" /\ path_exists fs c = true /\
    forall n', n' ∈ subs -> path_exists fs (child (child base n') "csc.exe") = true ->
    desc_le n n' = true.
Proof.
  induction subs as [|s ss IH]; simpl; intros Hs H; [discriminate|].
  apply StronglySorted_inv in Hs as [Hss Hf]. cbv zeta in H.
  destruct (path_exists fs (child (child base s) "csc.exe")) eqn:E.
  - inversion H; subst. exists s. split; [apply list_elem_of_here|]. split; [reflexivity|].
    split; [exact E|]. intros n' Hn' _. apply elem_of_cons in Hn' as [->|Hn'].
    + unfold desc_le. apply string_leb_refl.
    + exact (proj1 (Forall_forall _ _) Hf n' Hn').
  - destruct (IH Hss H) as (n & Hn & Hc & He & Hmax).
    exists n. split; [apply list_elem_of_further, Hn|]. split; [exact Hc|]. split; [exact He|].
    intros n' Hn' He'. apply elem_of_cons in Hn' as [->|Hn']; [congruence|].
    exact (Hmax n' Hn' He').
Qed.

Lemma framework_candidates_run fs base s s' r :
  framework_candidates fs base s = (s', r) ->
  s' = s /\
  (is_file fs base = false ->
   r = inr (if path_exists fs base
            then csc_candidates fs base (sort_names_desc (map fst (children fs (normalize base))))
            else [])).
Proof.
  unfold framework_candidates. intros H.
  destruct (path_exists fs base); simpl in H.
  - destruct (is_file fs base); inversion H; subst; split; auto. discriminate.
  - inversion H; subst. auto.
Qed.

Lemma find_csc_run E w fs fs' r :
  find_csc E w fs = (fs', r) ->
  fs' = fs /\
  (is_file fs (csc_base E w "Framework64") = false ->
   is_file fs (csc_base E w "Framework") = false ->
   let cands fr := if path_exists fs (csc_base E w fr)
        then csc_candidates fs (csc_base E w fr)
               (sort_names_desc (map fst (children fs (normalize (csc_base E w fr)))))
        else [] in
   r = inr (head (cands "Framework64" ++ cands "Framework"))).
Proof.
  unfold find_csc. intros H. rewrite get_bind in H. unfold mbind, M_bind at 1 in H.
  destruct (framework_candidates fs (csc_base E w "Framework64") fs) as [s1 r1] eqn:E1.
  apply framework_candidates_run in E1 as [-> H1].
  destruct r1 as [e|c64].
  - inversion H; subst. split; [reflexivity|]. intros Hf. specialize (H1 Hf). discriminate.
  - unfold mbind, M_bind in H.
    destruct (framework_candidates fs (csc_base E w "Framework") fs) as [s2 r2] eqn:E2.
    apply framework_candidates_run in E2 as [-> H2].
    destruct r2 as [e|c32].
    + inversion H; subst. split; [reflexivity|]. intros _ Hf. specialize (H2 Hf). discriminate.
    + inversion H; subst. split; [reflexivity|]. intros Hf1 Hf2.
      specialize (H1 Hf1). specialize (H2 Hf2). congruence.
Qed.

Lemma framework_candidates_inr fs base s s' l :
  framework_candidates fs base s = (s', inr l) ->
  s' = s /\ is_file fs base = false /\
  l = (if path_exists fs base
       then csc_candidates fs base (sort_names_desc (map fst (children fs (normalize base))))
       else []).
Proof.
  unfold framework_candidates. intros H.
  destruct (path_exists fs base) eqn:Ep; simpl in H.
  - destruct (is_file fs base); inversion H; subst; auto.
  - inversion H; subst. split; [reflexivity|]. split; [|reflexivity].
    unfold is_file. unfold path_exists in Ep. destruct (lookup_node fs base); congruence.
Qed.

Lemma find_csc_inr E w fs fs' o :
  find_csc E w fs = (fs', inr o) ->
  let cands fr := if path_exists fs (csc_base E w fr)
        then csc_candidates fs (csc_base E w fr)
               (sort_names_desc (map fst (children fs (normalize (csc_base E w fr)))))
        else [] in
  fs' = fs /\ o = head (cands "Framework64" ++ cands "Framework").
Proof.
  unfold find_csc. intros H. rewrite get_bind in H.
  apply bind_inr in H as (s1 & c64 & H1 & H).
  apply framework_candidates_inr in H1 as (-> & _ & ->).
  apply bind_inr in H as (s2 & c32 & H2 & H).
  apply framework_candidates_inr in H2 as (-> & _ & ->).
  apply ret_inr in H as [-> ->]. auto.
Qed.

Lemma csc_child base n : child (child base n) "csc.exe" = base ++ [n; "csc.exe"].
Proof. unfold child. rewrite <- app_assoc. reflexivity. Qed.

Lemma cands_nil_iff fs base :
  (if path_exists fs base
   then csc_candidates fs base (sort_names_desc (map fst (children fs (normalize base))))
   else []) = [] <->
  (path_exists fs base = true -> forall n v, fs !! (normalize base ++ [n]) = Some v ->
     path_exists fs (base ++ [n; "csc.exe"]) = false).
Proof.
  destruct (path_exists fs base) eqn:Ep; [|split; [intros _ Hc; discriminate | reflexivity]].
  rewrite csc_candidates_nil. split.
  - intros H _ n v Hv. rewrite <- csc_child. apply H, elem_of_names_desc. eauto.
  - intros H n Hn. apply elem_of_names_desc in Hn as [v Hv]. rewrite csc_child. eauto.
Qed.

(** X1: when neither framework root is a file, find_csc returns None, without touching the file system, exactly when no listed version directory under an existing Framework64 or Framework root holds a csc.exe. *)
Theorem find_csc_none (E : env) (w : option string) (fs : fsys) :
  is_file fs (csc_base E w "Framework64") = false ->
  is_file fs (csc_base E w "Framework") = false ->
  (find_csc E w fs = (fs, inr None) <->
   forall fr n v, fr = "Framework64" \/ fr = "Framework" ->
     path_exists fs (csc_base E w fr) = true ->
     fs !! (normalize (csc_base E w fr) ++ [n]) = Some v ->
     path_exists fs (csc_base E w fr ++ [n; "csc.exe"]) = false).
Proof.
  intros H64 H32.
  destruct (find_csc E w fs) as [fs' r] eqn:Ef.
  pose proof Ef as Ef'. apply find_csc_run in Ef' as [-> Hr].
  specialize (Hr H64 H32). cbv zeta in Hr. subst r.
  split.
  - intros Heq. inversion Heq as [Hh].
    destruct (_ : list path) as [|c cs] eqn:E64 in Hh; [|discriminate].
    apply app_eq_nil in E64 as [E64 E32].
    intros fr n v [-> | ->] Hp Hv;
      [exact (proj1 (cands_nil_iff _ _) E64 Hp n v Hv) | exact (proj1 (cands_nil_iff _ _) E32 Hp n v Hv)].
  - intros H. f_equal. f_equal.
    rewrite (proj2 (cands_nil_iff fs (csc_base E w "Framework64"))),
            (proj2 (cands_nil_iff fs (csc_base E w "Framework"))); [reflexivity| |].
    + intros Hp n v Hv. exact (H _ n v (or_intror eq_refl) Hp Hv).
    + intros Hp n v Hv. exact (H _ n v (or_introl eq_refl) Hp Hv).
Qed.

Lemma cands_head fs base c cs :
  (if path_exists fs base
   then csc_candidates fs base (sort_names_desc (map fst (children fs (normalize base))))
   else []) = c :: cs ->
  exists n, c = base ++ [n; "csc.exe"] /\ path_exists fs c = true /\
    fs !! (normalize base ++ [n]) <> None /\
    forall n' v, fs !! (normalize base ++ [n']) = Some v ->
      path_exists fs (base ++ [n'; "csc.exe"]) = true ->
      String.leb (map_chars lower n') (map_chars lower n) = true.
Proof.
  destruct (path_exists fs base); [|discriminate]. intros H.
  destruct (csc_candidates_head _ _ _ _ _ (sort_names_desc_sorted _) H) as (n & Hn & -> & He & Hmax).
  exists n. rewrite csc_child in *. split; [reflexivity|]. split; [exact He|]. split.
  - apply elem_of_names_desc in Hn as [v Hv]. congruence.
  - intros n' v Hv He'. apply (Hmax n'); [apply elem_of_names_desc; eauto | rewrite csc_child; exact He'].
Qed.


(** ** Helpers: [str.strip()] and the file-system frame of a build *)

Lemma is_prefix_app w p q : is_prefix w p = true -> is_prefix w (p ++ q) = true.
Proof.
  revert p. induction w as [|n w IH]; intros [|c p] H; simpl in *; try discriminate; auto.
  apply andb_true_iff in H as [H1 H2]. rewrite H1, (IH _ H2). reflexivity.
Qed.

Lemma is_prefix_length w l : is_prefix w l = true -> (length w <= length l)%nat.
Proof.
  revert l. induction w as [|n w IH]; intros [|c l] H; simpl in *; try discriminate; try lia.
  apply andb_true_iff in H as [_ H]. specialize (IH _ H). lia.
Qed.

Lemma space_len_le ws l : (space_len ws l <= length l)%nat.
Proof.
  induction ws as [|w ws IH]; simpl; [lia|].
  destruct (is_prefix w l) eqn:Hp; [apply is_prefix_length; exact Hp | exact IH].
Qed.

(** A prefix of a string that starts with no pattern starts with none. *)
Lemma space_len_app ws p q : space_len ws (p ++ q) = 0%nat -> space_len ws p = 0%nat.
Proof.
  induction ws as [|w ws IH]; simpl; [auto|].
  destruct (is_prefix w p) eqn:Hp.
  - rewrite (is_prefix_app _ _ _ Hp). auto.
  - destruct (is_prefix w (p ++ q)); [|exact IH].
    intros H. destruct w; [discriminate Hp | discriminate H].
Qed.

Lemma lstrip_by_nil ws f l : space_len ws l = 0%nat -> lstrip_by ws f l = l.
Proof. intros H. destruct f; simpl; [reflexivity|]. rewrite H. reflexivity. Qed.

Lemma lstrip_by_done ws f l :
  (length l <= f)%nat -> space_len ws (lstrip_by ws f l) = 0%nat.
Proof.
  revert l. induction f as [|f IH]; intros l Hl; simpl.
  - pose proof (space_len_le ws l). lia.
  - destruct (space_len ws l) as [|k] eqn:Hk; [exact Hk|].
    apply IH. rewrite length_drop. lia.
Qed.

Lemma lstrip_by_suffix ws f l : exists p, l = p ++ lstrip_by ws f l.
Proof.
  revert l. induction f as [|f IH]; intros l; simpl; [exists []; reflexivity|].
  destruct (space_len ws l) as [|k]; [exists []; reflexivity|].
  destruct (IH (drop (S k) l)) as [p Hp]. exists (take (S k) l ++ p).
  rewrite <- app_assoc, <- Hp. symmetry. apply take_drop.
Qed.

Lemma lstrip_bytes_start l : space_len space_chars (lstrip_bytes l) = 0%nat.
Proof. apply lstrip_by_done. lia. Qed.

Lemma rstrip_bytes_prefix l : exists q, l = rstrip_bytes l ++ q.
Proof.
  unfold rstrip_bytes.
  destruct (lstrip_by_suffix (map (@rev nat) space_chars) (length l) (rev l)) as [p Hp].
  exists (rev p). rewrite <- rev_app_distr, <- Hp, rev_involutive. reflexivity.
Qed.

Lemma rstrip_bytes_idem l : rstrip_bytes (rstrip_bytes l) = rstrip_bytes l.
Proof.
  unfold rstrip_bytes at 1 2. rewrite rev_involutive, lstrip_by_nil; [reflexivity|].
  apply lstrip_by_done. rewrite length_rev. lia.
Qed.

Lemma strip_idem s : strip (strip s) = strip s.
Proof.
  unfold strip. rewrite String.list_ascii_of_string_of_list_ascii. f_equal.
  set (y := lstrip_bytes (String.list_ascii_of_string s)).
  assert (Hx : lstrip_bytes (rstrip_bytes y) = rstrip_bytes y).
  { unfold lstrip_bytes at 1. apply lstrip_by_nil.
    destruct (rstrip_bytes_prefix y) as [q Hq].
    apply (space_len_app _ _ q). rewrite <- Hq. apply lstrip_bytes_start. }
  rewrite Hx. apply rstrip_bytes_idem.
Qed.

Lemma mkdir_p_frame_up p : frame (fun k => inside k (normalize p)) (mkdir_p p).
Proof.
  unfold mkdir_p. pose proof (normalize_tail_parts p) as Hg.
  destruct (normalize p) as [|d rest]; [apply frame_raise|].
  apply frame_get_bind. intros fs _. case_match; [case_match|]; try apply frame_raise.
  apply mkdirs_from_frame; [discriminate | constructor | exact Hg].
Qed.

Lemma parent_normalize_inside p : inside (normalize (parent (normalize p))) (normalize p).
Proof.
  pose proof (normalize_tail_parts p) as Hg.
  destruct (normalize p) as [|d [|c l]]; [reflexivity | apply inside_refl|].
  simpl in Hg. set (t := c :: l) in *.
  assert (Ht : t <> []) by discriminate.
  pose proof (app_removelast_last d Ht) as Er.
  assert (Hr : good_parts (removelast t)).
  { rewrite Er in Hg. apply good_parts_app in Hg. apply Hg. }
  change (parent (d :: t)) with (d :: removelast t).
  rewrite normalize_good by exact Hr.
  assert (E2 : d :: t = (d :: removelast t) ++ [List.last t d]) by (simpl; f_equal; exact Er).
  rewrite E2. apply inside_app.
Qed.

Lemma read_bytes_keeps p : keeps (read_bytes p).
Proof. unfold read_bytes. apply keeps_get_bind. intros fs. repeat case_match; auto using keeps_ret, keeps_raise. Qed.

Lemma read_bytes_frame0 P p : frame0 P (read_bytes p).
Proof. unfold read_bytes. auto with frame. Qed.

Lemma append_file_keeps p b : keeps (append_file p b).
Proof. unfold append_file. apply keeps_bind; [apply read_bytes_keeps | intros; apply write_file_keeps]. Qed.

Lemma append_file_frame0 p b : frame0 (fun k => k = normalize p) (append_file p b).
Proof. unfold append_file. apply frame0_bind; [apply read_bytes_frame0 | intros; apply write_file_frame0]. Qed.

Lemma assemble_exe_keeps sp zp op : keeps (assemble_exe sp zp op).
Proof.
  unfold assemble_exe.
  apply keeps_bind; [apply read_bytes_keeps | intros b]. cbv zeta.
  apply keeps_bind; [apply read_bytes_keeps | intros _].
  apply keeps_bind; [apply write_file_keeps | intros _].
  apply keeps_bind; [apply read_bytes_keeps | intros stub].
  apply keeps_bind; [apply append_file_keeps | intros _].
  apply keeps_bind; [apply append_file_keeps | intros _].
  destruct (pack_Q _); [|apply keeps_raise].
  apply keeps_bind; [apply append_file_keeps | intros _].
  apply keeps_bind; [apply append_file_keeps | intros _].
  apply append_file_keeps.
Qed.

Lemma assemble_exe_frame0 sp zp op : frame0 (fun k => k = normalize op) (assemble_exe sp zp op).
Proof.
  unfold assemble_exe.
  apply frame0_bind; [apply read_bytes_frame0 | intros b]. cbv zeta.
  apply frame0_bind; [apply read_bytes_frame0 | intros _].
  apply frame0_bind; [apply write_file_frame0 | intros _].
  apply frame0_bind; [apply read_bytes_frame0 | intros stub].
  apply frame0_bind; [apply append_file_frame0 | intros _].
  apply frame0_bind; [apply append_file_frame0 | intros _].
  destruct (pack_Q _); [|apply frame0_raise].
  apply frame0_bind; [apply append_file_frame0 | intros _].
  apply frame0_bind; [apply append_file_frame0 | intros _].
  apply append_file_frame0.
Qed.

Lemma write_text_utf8_keeps p t : keeps (write_text_utf8 p t).
Proof. unfold write_text_utf8. apply keeps_bind; intros; apply write_file_keeps. Qed.

Lemma generate_prex_keeps root : keeps (generate_prex root).
Proof.
  unfold generate_prex. apply keeps_get_bind. intros fs.
  repeat case_match; auto using keeps_ret, write_text_utf8_keeps.
Qed.

Lemma copy_first_pointer_keeps cands root : keeps (copy_first_pointer cands root).
Proof.
  induction cands as [|pc cs IH]; simpl; [apply generate_prex_keeps|].
  apply keeps_get_bind. intros fs. case_match; [apply copy2_keeps | exact IH].
Qed.

Lemma prex_step_keeps main_file root : keeps (prex_step main_file root).
Proof. apply keeps_catch_os, copy_first_pointer_keeps. Qed.

Lemma compile_stub_keeps E tmp : keeps (compile_stub E tmp).
Proof.
  unfold compile_stub. case_match; [apply keeps_raise|].
  apply keeps_bind; [apply write_file_keeps | intros; apply keeps_ret].
Qed.

Lemma compile_stub_frame0 E tmp :
  frame0 (fun k => k = normalize (child tmp "stub.exe")) (compile_stub E tmp).
Proof.
  unfold compile_stub. case_match; [apply frame0_raise|].
  apply frame0_bind; [apply write_file_frame0 | intros; apply frame0_ret].
Qed.

Lemma copy_pre_runtime_keeps pre root : keeps (copy_pre_runtime pre root).
Proof.
  unfold copy_pre_runtime. apply keeps_get_bind. intros fs.
  case_match; [apply keeps_raise | apply copy_runtime_entries_keeps].
Qed.

Lemma mkdirs_from_dirs d todo s s' r :
  mkdirs_from d todo s = (s', r) -> forall k, s' !! k <> s !! k -> s' !! k = Some Dir.
Proof.
  revert d s; induction todo as [|c rest IH]; intros d s H k Hk; simpl in H.
  - inversion H; subst. congruence.
  - rewrite get_bind in H. cbv zeta in H.
    destruct (s !! (d ++ [c])) as [[b|]|] eqn:Eq.
    + inversion H; subst. congruence.
    + exact (IH _ _ H k Hk).
    + unfold mbind, M_bind, modify in H. cbn in H.
      destruct (decide (s' !! k = (<[d ++ [c] := Dir]> s) !! k)) as [Heq|Hne].
      * rewrite Heq in Hk |- *. destruct (decide (k = d ++ [c])) as [->|Hkq].
        -- apply lookup_insert_eq.
        -- rewrite lookup_insert_ne in Hk by congruence. congruence.
      * exact (IH _ _ H k Hne).
Qed.

Lemma mkdir_p_dirs p s s' r :
  mkdir_p p s = (s', r) -> forall k, s' !! k <> s !! k -> s' !! k = Some Dir.
Proof.
  unfold mkdir_p. intros H k Hk. destruct (normalize p) as [|d rest].
  - inversion H; subst. congruence.
  - rewrite get_bind in H. destruct (s !! [d]) as [[b|]|].
    + inversion H; subst. congruence.
    + exact (mkdirs_from_dirs _ _ _ _ _ H k Hk).
    + inversion H; subst. congruence.
Qed.

Lemma copy_pre_runtime_near pre root s s' r :
  wf s -> (forall d b, s !! [d] <> Some (File b)) -> normalize pre = pre ->
  copy_pre_runtime pre root s = (s', r) -> forall k, s' !! k <> s !! k -> near (normalize root) k.
Proof.
  intros Hwf Hdrv Hn H k Hk.
  unfold copy_pre_runtime in H. rewrite get_bind in H. cbv zeta in H.
  destruct (negb (path_exists s pre) || negb (is_file s pre)) eqn:Ec.
  { inversion H; subst. congruence. }
  apply orb_false_iff in Ec as [_ Ef]. apply negb_false_iff in Ef.
  unfold is_file, lookup_node in Ef. rewrite Hn in Ef.
  destruct (s !! pre) as [[b|]|] eqn:Es; try discriminate.
  assert (Hrd : normalize (parent pre) <> []).
  { destruct pre as [|d [|c l]].
    - destruct (Hwf _ _ Es) as [Hne _]. congruence.
    - exfalso. exact (Hdrv d b Es).
    - simpl. discriminate. }
  destruct (copy_runtime_entries_frame _ _ _ _ _ _ Hwf H k Hk) as (n & Hn' & _ & _ & Hnear).
  eapply near_mono; [|exact Hnear].
  apply normalize_snoc_inside. right. exact (good_runtime_names _ _ _ Hwf Hrd Hn').
Qed.

Lemma frame_split {A B} (P : path -> Prop) (m : M A) (k : A -> M B) s s' r :
  (m ≫= k) s = (s', r) ->
  (forall s1 r1, m s = (s1, r1) -> forall x, s1 !! x <> s !! x -> P x) ->
  (forall s1 a, m s = (s1, inr a) -> forall s2 r2, k a s1 = (s2, r2) ->
     forall x, s2 !! x <> s1 !! x -> P x) ->
  forall x, s' !! x <> s !! x -> P x.
Proof.
  intros H Hm Hk x Hx. unfold mbind, M_bind in H.
  destruct (m s) as [s1 [e|a]] eqn:E; cbn in H.
  - inversion H; subst. exact (Hm _ _ eq_refl x Hx).
  - destruct (decide (s1 !! x = s !! x)) as [Heq|Hne].
    + apply (Hk s1 a eq_refl s' r H x). congruence.
    + exact (Hm _ _ eq_refl x Hne).
Qed.

Lemma build_in_tmp_keeps E pre main dest incs folders icon op tmp :
  keeps (build_in_tmp E pre main dest incs folders icon op tmp).
Proof.
  unfold build_in_tmp. cbv zeta.
  apply keeps_bind; [apply mkdir_p_keeps | intros _].
  apply keeps_bind; [apply copy_pre_runtime_keeps | intros _].
  apply keeps_bind; [apply copy_main_keeps | intros rel].
  apply keeps_bind; [apply prex_step_keeps | intros _].
  apply keeps_bind; [destruct incs; [apply keeps_ret | apply copy_includes_keeps] | intros _].
  apply keeps_bind; [destruct folders; [apply keeps_ret | apply copy_include_folders_keeps] | intros _].
  apply keeps_bind; [apply write_manifest_keeps | intros _].
  apply keeps_bind; [apply keeps_get_bind; intros fs;
                     apply keeps_bind; [apply write_file_keeps | intros; apply write_file_keeps]
                    | intros _].
  apply keeps_bind; [destruct icon as [i|]; [destruct (String.eqb i ""); [apply keeps_ret|
                       destruct (convert_icon_out E); [apply keeps_raise | apply keeps_ret]]
                                    | apply keeps_ret] | intros _].
  apply keeps_bind; [apply compile_stub_keeps | intros stub].
  apply keeps_bind; [apply mkdir_p_keeps | intros _].
  apply assemble_exe_keeps.
Qed.

Lemma build_in_tmp_near E pre main_arg dest incs folders icon op tmp s s' r :
  wf s -> (forall d b, s !! [d] <> Some (File b)) -> normalize pre = pre -> normalize op = op ->
  tmp <> [] -> contained_dest (strip dest) = true ->
  Forall (fun raw => mapping_dest_ok raw = true) incs ->
  Forall (fun raw => mapping_dest_ok raw = true) folders ->
  build_in_tmp E pre (expand_resolve E main_arg) dest incs folders icon op tmp s = (s', r) ->
  forall k, s' !! k <> s !! k -> near (normalize tmp) k \/ inside k op.
Proof.
  intros Hwf Hdrv Hpre Hop Ht Hd Hi Hf H.
  set (T := normalize tmp).
  assert (Hsub : forall n, good n = true -> forall k, near (normalize (child tmp n)) k ->
                 near T k \/ inside k op).
  { intros n Hn k Hk. left. eapply near_mono; [|exact Hk].
    apply normalize_snoc_inside. right. exact Hn. }
  unfold build_in_tmp in H. cbv zeta in H.
  eapply (frame_split _ _ _ _ _ _ H).
  { intros s1 r1 E1 x Hx. apply (Hsub "payload" eq_refl).
    exact (mkdir_p_frame _ _ _ _ Hwf E1 x Hx). }
  intros s1 u E1 s2 r2 H2.
  destruct (mkdir_p_keeps _ _ _ _ E1 Hwf) as [Hwf1 _].
  assert (Hdrv1 : forall d b, s1 !! [d] <> Some (File b)).
  { intros d b Hb. destruct (decide (s1 !! [d] = s !! [d])) as [Heq|Hne].
    - rewrite Heq in Hb. exact (Hdrv d b Hb).
    - rewrite (mkdir_p_dirs _ _ _ _ E1 _ Hne) in Hb. discriminate. }
  eapply (frame_split _ _ _ _ _ _ H2).
  { intros s3 r3 E3 x Hx. apply (Hsub "payload" eq_refl).
    exact (copy_pre_runtime_near _ _ _ _ _ Hwf1 Hdrv1 Hpre E3 x Hx). }
  intros s3 u3 E3 s4 r4 H4.
  destruct (copy_pre_runtime_keeps _ _ _ _ _ E3 Hwf1) as [Hwf3 _].
  match type of H4 with ?m _ = _ => assert (Hm : frame (fun k => near T k \/ inside k op) m) end.
  2: exact (Hm _ _ _ Hwf3 H4).
  assert (Hpl : forall m : M unit, frame (near (normalize (child tmp "payload"))) m ->
                frame (fun k => near T k \/ inside k op) m).
  { intros m Hfr. eapply frame_mono; [|exact Hfr]. apply Hsub. reflexivity. }
  apply frame_bind; [apply copy_main_keeps | |intros rel].
  { eapply frame_mono; [|apply copy_main_frame, Hd]. apply Hsub. reflexivity. }
  apply frame_bind; [apply prex_step_keeps | |intros _].
  { apply Hpl. eapply frame_mono; [|apply frame_of_frame0, prex_step_frame0].
    intros k Hk. right. eapply inside_trans; [|exact Hk].
    apply normalize_snoc_inside. right. reflexivity. }
  apply frame_bind; [destruct incs; [apply keeps_ret | apply copy_includes_keeps] | |intros _].
  { apply Hpl. destruct incs; [apply frame_ret | apply copy_includes_frame, Hi]. }
  apply frame_bind; [destruct folders; [apply keeps_ret | apply copy_include_folders_keeps] | |intros _].
  { apply Hpl. destruct folders; [apply frame_ret | apply copy_include_folders_frame, Hf]. }
  apply frame_bind; [apply write_manifest_keeps | apply Hpl, write_manifest_frame | intros _].
  apply frame_bind; [apply keeps_get_bind; intros fs;
                     apply keeps_bind; [apply write_file_keeps | intros; apply write_file_keeps]
                    | |intros _].
  { apply frame_get_bind. intros fs _.
    apply frame_bind; [apply write_file_keeps | |intros _];
      (eapply frame_mono; [|apply write_file_frame]; apply Hsub; reflexivity). }
  apply frame_bind; [destruct icon as [i|]; [destruct (String.eqb i ""); [apply keeps_ret|
                       destruct (convert_icon_out E); [apply keeps_raise | apply keeps_ret]]
                                    | apply keeps_ret] | |intros _].
  { destruct icon as [i|]; [destruct (String.eqb i ""); [apply frame_ret|
      destruct (convert_icon_out E); [apply frame_raise | apply frame_ret]] | apply frame_ret]. }
  apply frame_bind; [apply compile_stub_keeps | |intros stub].
  { eapply frame_mono; [|apply frame_of_frame0, compile_stub_frame0].
    intros k ->. apply (Hsub "stub.exe" eq_refl). right. apply inside_refl. }
  apply frame_bind; [apply mkdir_p_keeps | |intros _].
  { eapply frame_mono; [|apply mkdir_p_frame_up]. intros k Hk. right.
    eapply inside_trans; [exact Hk|]. rewrite <- Hop at 2. rewrite <- Hop at 1.
    apply parent_normalize_inside. }
  eapply frame_mono; [|apply frame_of_frame0, assemble_exe_frame0].
  intros k ->. right. rewrite Hop. apply inside_refl.
Qed.

Lemma with_tempdir_frame E body fs (P : path -> Prop) :
  wf fs -> chain (normalize (tmp_name E)) fs ->
  (forall k, inside (normalize (tmp_name E)) k -> fs !! k = None) ->
  (normalize (tmp_name E) <> [] ->
   forall s' r, body (tmp_name E) (<[normalize (tmp_name E) := Dir]> fs) = (s', r) ->
     wf s' /\ (forall k, (<[normalize (tmp_name E) := Dir]> fs) !! k = Some Dir -> s' !! k = Some Dir) /\
     forall k, s' !! k <> (<[normalize (tmp_name E) := Dir]> fs) !! k ->
       near (normalize (tmp_name E)) k \/ P k) ->
  forall k, (with_tempdir E body fs).1 !! k <> fs !! k -> P k.
Proof.
  intros Hwf Hch Hfree Hbody k Hk.
  set (T := normalize (tmp_name E)) in *.
  unfold with_tempdir, mkdir_one in Hk. cbv zeta in Hk. rewrite get_bind in Hk. fold T in Hk.
  destruct (fs !! T) eqn:E1; [simpl in Hk; congruence|].
  destruct (fs !! parent T) as [[b|]|] eqn:E2; try (simpl in Hk; congruence).
  assert (HT : T <> []).
  { intros HT. rewrite HT in E2. simpl in E2. destruct (Hwf _ _ E2) as [Hne _]. congruence. }
  unfold modify in Hk. cbv iota beta in Hk.
  destruct (body (tmp_name E) (<[T := Dir]> fs)) as [fs2 r] eqn:Eb. simpl in Hk.
  destruct (Hbody HT fs2 r eq_refl) as (Hwf2 & Hdir & Hfr).
  unfold remove_tree in Hk.
  destruct (decide (take (length T) k = T)) as [Hin|Hout].
  - rewrite (Hfree k Hin) in Hk. exfalso. apply Hk. apply map_lookup_filter_None.
    right. intros x _ HP. apply HP. exact Hin.
  - assert (Hf : filter (fun kn : path * node => take (length T) kn.1 <> T) fs2 !! k = fs2 !! k).
    { destruct (fs2 !! k) eqn:Ek.
      - apply map_lookup_filter_Some_2; [exact Ek | exact Hout].
      - apply map_lookup_filter_None. left. exact Ek. }
    rewrite Hf in Hk.
    assert (HkT : k <> T) by (intros ->; apply Hout, inside_refl).
    assert (Hk1 : fs2 !! k <> <[T := Dir]> fs !! k) by (rewrite lookup_insert_ne by congruence; exact Hk).
    destruct (Hfr k Hk1) as [[Hkt|Htk]|HP]; [|contradiction|exact HP].
    exfalso. destruct k as [|x k'].
    + destruct (fs2 !! []) eqn:E0; [destruct (Hwf2 _ _ E0); congruence|].
      destruct (fs !! []) eqn:E0'; [destruct (Hwf _ _ E0'); congruence|]. congruence.
    + assert (Hl : (length (x :: k') < length T)%nat).
      { assert (Hle : (length (x :: k') <= length T)%nat)
          by (unfold inside in Hkt; rewrite <- Hkt at 1; rewrite length_take; lia).
        destruct (Nat.eq_dec (length (x :: k')) (length T)) as [Heq|Hne]; [|lia].
        exfalso. exact (HkT (inside_same_length _ _ Hkt Heq)). }
      pose proof (Hch (length (x :: k')) ltac:(simpl in *; lia)) as Hc.
      unfold inside in Hkt. rewrite Hkt in Hc.
      assert (Hc1 : <[T := Dir]> fs !! (x :: k') = Some Dir) by (rewrite lookup_insert_ne by congruence; exact Hc).
      apply Hk. rewrite (Hdir _ Hc1), Hc. reflexivity.
Qed.

Lemma output_path_of_normal E a : normalize (output_path_of E a) = output_path_of E a.
Proof.
  unfold output_path_of. cbv zeta.
  destruct (output_arg a) as [o|]; [destruct (String.eqb o "")|];
    auto using expand_resolve_normalize, normalize_idem.
Qed.

Lemma ret_bind {A B} (a : A) (k : A -> M B) s : (mret a ≫= k) s = k a s.
Proof. reflexivity. Qed.

Lemma raise_bind {A B} e (k : A -> M B) s : (raise e ≫= k) s = (s, inl e).
Proof. reflexivity. Qed.

(** X3: on a resolved file system whose fresh temporary directory has existing ancestors, with contained (stripped) destinations, the only entries a build changes, whether it succeeds or raises, are the output executable ([output_path_of]: an empty [--output] counts as absent) and its ancestor directories. *)
Theorem build_writes_only_output (E : env) (a : args) (fs : fsys) :
  wf fs -> (forall d b, fs !! [d] <> Some (File b)) ->
  chain (normalize (tmp_name E)) fs ->
  (forall k, inside (normalize (tmp_name E)) k -> fs !! k = None) ->
  contained_dest (strip (main_dest_arg a)) = true ->
  Forall (fun raw => mapping_dest_ok raw = true) (include_arg a) ->
  Forall (fun raw => mapping_dest_ok raw = true) (include_folder_arg a) ->
  forall k, (build E a fs).1 !! k <> fs !! k -> inside k (output_path_of E a).
Proof.
  intros Hwf Hdrv Hch Hfree Hd Hi Hf k Hk.
  set (op := output_path_of E a) in *.
  assert (Hop : normalize op = op) by apply output_path_of_normal.
  assert (Hd' : contained_dest (strip (if String.eqb (strip (main_dest_arg a)) "" then "."
                                       else strip (main_dest_arg a))) = true).
  { destruct (String.eqb (strip (main_dest_arg a)) ""); [reflexivity|]. rewrite strip_idem. exact Hd. }
  assert (Htail : forall pre, normalize pre = pre ->
    forall k, ((fs0 ← get;
               if negb (path_exists fs0 (expand_resolve E (main_file_arg a))) ||
                  negb (is_file fs0 (expand_resolve E (main_file_arg a)))
               then raise (BuildError ("Main script not found: " +:+ str_abs (expand_resolve E (main_file_arg a))))
               else with_tempdir E (build_in_tmp E pre (expand_resolve E (main_file_arg a))
                      (if String.eqb (strip (main_dest_arg a)) "" then "." else strip (main_dest_arg a))
                      (include_arg a) (include_folder_arg a) (icon_arg a) op)) fs).1 !! k <> fs !! k ->
      inside k op).
  { intros pre Hpre k0 Hk0. rewrite get_bind in Hk0.
    destruct (_ || _); [simpl in Hk0; congruence|].
    eapply (with_tempdir_frame E _ fs (fun k => inside k op) Hwf Hch Hfree); [|exact Hk0].
    intros HT s' r Hb.
    assert (Htmp : tmp_name E <> []) by (intros Hn; apply HT; rewrite Hn; reflexivity).
    assert (Hwf1 : wf (<[normalize (tmp_name E) := Dir]> fs))
      by (apply wf_insert; [exact Hwf | exact HT | apply normalize_tail_parts]).
    assert (Hdrv1 : forall d b, (<[normalize (tmp_name E) := Dir]> fs) !! [d] <> Some (File b)).
    { intros d b. destruct (decide ([d] = normalize (tmp_name E))) as [<-|Hne].
      - rewrite lookup_insert_eq. discriminate.
      - rewrite lookup_insert_ne by congruence. apply Hdrv. }
    destruct (build_in_tmp_keeps _ _ _ _ _ _ _ _ _ _ _ _ Hb Hwf1) as [Hwf2 Hdir].
    split; [exact Hwf2|]. split; [exact Hdir|].
    exact (build_in_tmp_near _ _ _ _ _ _ _ _ _ _ _ _ Hwf1 Hdrv1 Hpre Hop Htmp Hd' Hi Hf Hb). }
  unfold build in Hk. destruct (negb (is_nt E)); [simpl in Hk; congruence|].
  destruct (pre_exe_arg a) as [p|].
  - rewrite ret_bind in Hk. exact (Htail _ (expand_resolve_normalize E p) k Hk).
  - destruct (which_prefix E) as [found|].
    + rewrite ret_bind in Hk. exact (Htail _ (expand_resolve_normalize E found) k Hk).
    + rewrite raise_bind in Hk. simpl in Hk. congruence.
Qed.

Lemma mkdirs_from_frame0 d todo : frame0 (fun k => inside k (d ++ todo)) (mkdirs_from d todo).
Proof.
  revert d; induction todo as [|c rest IH]; intros d; simpl; [apply frame0_ret|].
  replace (d ++ c :: rest) with ((d ++ [c]) ++ rest) by (rewrite <- app_assoc; reflexivity).
  apply frame0_bind; [apply frame0_get | intros fs].
  case_match; [case_match|].
  - apply frame0_raise.
  - apply IH.
  - apply frame0_bind; [|intros; apply IH].
    eapply frame0_mono; [|apply frame0_modify_insert]. intros k ->. apply inside_app.
Qed.

Lemma mkdir_p_frame0 p : frame0 (fun k => inside k (normalize p)) (mkdir_p p).
Proof.
  unfold mkdir_p. destruct (normalize p) as [|d rest]; [apply frame0_raise|].
  apply frame0_bind; [apply frame0_get | intros fs].
  case_match; [case_match|]; try apply frame0_raise. apply (mkdirs_from_frame0 [d] rest).
Qed.

Lemma assemble_exe_inr sp zp op fs fs' :
  normalize sp <> normalize op ->
  assemble_exe sp zp op fs = (fs', inr ()) ->
  exists launcher archive,
    fs !! normalize sp = Some (File launcher) /\
    fs !! normalize zp = Some (File archive) /\
    fs' = <[normalize op := File (launcher ++ archive ++ le64 (Z.of_nat (length archive)) ++
                                  SHA256.digest archive ++ MARKER)]> fs.
Proof.
  intros Hne H. unfold assemble_exe in H.
  apply bind_inr in H as (s1 & archive & Hz & H); cbv beta zeta in H.
  apply read_bytes_inr in Hz as [-> Hz].
  apply bind_inr in H as (s2 & x & Hs & H); cbv beta in H.
  apply read_bytes_inr in Hs as [-> _].
  apply bind_inr in H as (s3 & [] & Ht & H); cbv beta in H.
  apply write_file_inr in Ht as (-> & _ & _).
  apply bind_inr in H as (s4 & launcher & Hs & H); cbv beta in H.
  apply read_bytes_inr in Hs as [-> Hl].
  rewrite lookup_insert_ne in Hl by congruence.
  apply bind_inr in H as (s5 & [] & H1 & H); cbv beta in H.
  apply append_file_inr in H1 as (c1 & Hc1 & ->).
  apply bind_inr in H as (s6 & [] & H2 & H); cbv beta in H.
  apply append_file_inr in H2 as (c2 & Hc2 & ->).
  destruct (pack_Q _) as [le|] eqn:Hq; [|inv_M].
  apply pack_Q_some in Hq. subst le.
  apply bind_inr in H as (s7 & [] & H3 & H); cbv beta in H.
  apply append_file_inr in H3 as (c3 & Hc3 & ->).
  apply bind_inr in H as (s8 & [] & H4 & H); cbv beta in H.
  apply append_file_inr in H4 as (c4 & Hc4 & ->).
  apply append_file_inr in H as (c5 & Hc5 & ->).
  rewrite lookup_insert_eq in Hc5, Hc4, Hc3, Hc2; rewrite lookup_insert_eq in Hc1.
  simplify_eq.
  exists launcher, archive. split; [exact Hl|]. split; [exact Hz|].
  rewrite !insert_insert_eq. f_equal. f_equal. rewrite <- !app_assoc. reflexivity.
Qed.

Lemma zip_members_has fs root rel b :
  rel <> [] -> fs !! (root ++ rel) = Some (File b) -> (arcname rel, b) ∈ zip_members fs root.
Proof.
  intros Hr Hk. unfold zip_members, rglob_all. apply list_elem_of_omap.
  exists (rel, File b). split; [|reflexivity].
  apply list_elem_of_omap. exists (root ++ rel, File b). split.
  - apply elem_of_map_to_list, Hk.
  - simpl. rewrite (proj2 (under_spec root (root ++ rel) rel) (conj eq_refl Hr)). reflexivity.
Qed.

(** X4: when the stripped main destination has no drive and is not rooted and the output lies outside the temporary directory, a successful build leaves at the output path the compiled stub, the zip of the payload tree (which holds the manifest naming the main script), the archive length, its SHA-256 digest and the marker. *)
Theorem build_output_layout (E : env) (a : args) (fs fs' : fsys) :
  normalize (tmp_name E) = tmp_name E ->
  split_drive (strip (main_dest_arg a)) = None -> rooted (strip (main_dest_arg a)) = false ->
  let main_file := expand_resolve E (main_file_arg a) in
  let output_path := output_path_of E a in
  ~ inside (tmp_name E) output_path ->
  build E a fs = (fs', inr ()) ->
  exists stub fz,
    compile_stub_out E = inr stub /\
    (MANIFEST_NAME, String.list_byte_of_string
       (text_mode (String.concat "\" (parts_of (strip (main_dest_arg a)) ++ [name main_file])) +:+ crlf))
      ∈ zip_members fz (child (tmp_name E) "payload") /\
    let archive := zip_encode E (zip_members fz (child (tmp_name E) "payload")) in
    fs' !! output_path =
      Some (File (stub ++ archive ++ le64 (Z.of_nat (length archive)) ++ SHA256.digest archive ++ MARKER)).
Proof.
  intros HT Hsd Hro main_file op Hout H.
  set (tmp := tmp_name E) in *.
  assert (Hop : normalize op = op) by apply output_path_of_normal.
  assert (Htmp : tmp <> []) by (intros Hn; apply Hout; rewrite Hn; reflexivity).
  set (dest := if String.eqb (strip (main_dest_arg a)) "" then "." else strip (main_dest_arg a)).
  assert (Hdest : split_drive (strip dest) = None /\ rooted (strip dest) = false /\
                  parts_of (strip dest) = parts_of (strip (main_dest_arg a))).
  { unfold dest. destruct (String.eqb (strip (main_dest_arg a)) "") eqn:Es.
    - apply String.eqb_eq in Es. rewrite Es. repeat split; reflexivity.
    - rewrite strip_idem. auto. }
  destruct Hdest as (Hsd' & Hro' & Hparts).
  (* the run of the body inside the temporary directory *)
  assert (Hbody : forall pre s s2, build_in_tmp E pre main_file dest (include_arg a) (include_folder_arg a)
                     (icon_arg a) op tmp s = (s2, inr ()) ->
    exists stub fz, compile_stub_out E = inr stub /\
      fz !! (child (child tmp "payload") MANIFEST_NAME) =
        Some (File (String.list_byte_of_string
          (text_mode (String.concat "\" (parts_of (strip (main_dest_arg a)) ++ [name main_file])) +:+ crlf))) /\
      let archive := zip_encode E (zip_members fz (child tmp "payload")) in
      s2 !! op = Some (File (stub ++ archive ++ le64 (Z.of_nat (length archive)) ++
                             SHA256.digest archive ++ MARKER))).
  { intros pre s s2 Hb. unfold build_in_tmp in Hb. cbv zeta in Hb.
    apply bind_inr in Hb as (s1 & [] & _ & Hb).
    apply bind_inr in Hb as (s3 & [] & _ & Hb).
    apply bind_inr in Hb as (s4 & rel & H4 & Hb).
    apply bind_inr in Hb as (s5 & [] & _ & Hb).
    apply bind_inr in Hb as (s6 & [] & _ & Hb).
    apply bind_inr in Hb as (s7 & [] & _ & Hb).
    apply bind_inr in Hb as (s8 & [] & H8 & Hb).
    apply bind_inr in Hb as (s9 & [] & H9 & Hb).
    apply bind_inr in Hb as (s10 & [] & H10 & Hb).
    apply bind_inr in Hb as (s11 & stub_exe & H11 & Hb).
    apply bind_inr in Hb as (s12 & [] & H12 & Hb).
    apply (copy_main_inr _ _ _ _ _ _ Hsd' Hro') in H4. rewrite Hparts in H4. subst rel.
    unfold write_manifest in H8. apply write_text_ascii_inr in H8.
    rewrite text_mode_nl in H8.
    rewrite get_bind in H9. apply bind_inr in H9 as (s8' & [] & H9a & H9).
    apply write_file_inr in H9a as (-> & _ & _).
    apply write_file_inr in H9 as (-> & _ & _).
    assert (Hicon : forall x y u, (match icon_arg a with
                                 | Some i =>
                                     if String.eqb i "" then mret ()
                                     else match convert_icon_out E with
                                          | inl e => raise e | inr _ => mret () end
                                 | None => mret ()
                                 end : M unit) x = (y, inr u) -> y = x)
      by (intros x y u Hx; destruct (icon_arg a) as [ic|];
          [destruct (String.eqb ic ""); [|destruct (convert_icon_out E)]|]; inv_M; reflexivity).
    apply Hicon in H10. subst s10.
    unfold compile_stub in H11. destruct (compile_stub_out E) as [e|stub] eqn:Es; [inv_M|].
    apply bind_inr in H11 as (s11' & [] & H11a & H11).
    apply write_file_inr in H11a as (-> & _ & _). apply ret_inr in H11 as [Hs11 ->].
    assert (Hzip : normalize (child tmp "payload.zip") = tmp ++ ["payload.zip"]).
    { unfold child. rewrite normalize_snoc_good by (auto || reflexivity). rewrite HT. reflexivity. }
    assert (Hstub : normalize (child tmp "stub.exe") = tmp ++ ["stub.exe"]).
    { unfold child. rewrite normalize_snoc_good by (auto || reflexivity). rewrite HT. reflexivity. }
    assert (Hman : normalize (child (child tmp "payload") MANIFEST_NAME) =
                   child (child tmp "payload") MANIFEST_NAME).
    { unfold child. rewrite <- app_assoc. rewrite normalize_app_good; [| exact Htmp | repeat constructor].
      rewrite HT. reflexivity. }
    assert (Hanc : forall n, ~ inside (tmp ++ [n]) op).
    { intros n Hn. apply Hout. eapply inside_trans; [apply inside_app | exact Hn]. }
    assert (H12' : forall k, s12 !! k <> s11 !! k -> inside k op).
    { intros k Hk. pose proof (mkdir_p_frame0 _ _ _ _ H12 k Hk) as Hi.
      eapply inside_trans; [exact Hi|]. rewrite <- Hop at 2. rewrite <- Hop at 1.
      apply parent_normalize_inside. }
    assert (Hne : normalize (child tmp "stub.exe") <> normalize op).
    { rewrite Hstub, Hop. intros Heq. apply (Hanc "stub.exe"). rewrite Heq. apply inside_refl. }
    destruct (assemble_exe_inr _ _ _ _ _ Hne Hb) as (launcher & archive & Hl & Hz & ->).
    assert (E12 : forall n, s12 !! (tmp ++ [n]) = s11 !! (tmp ++ [n])).
    { intros n. destruct (decide (s12 !! (tmp ++ [n]) = s11 !! (tmp ++ [n]))) as [Heq|Hd]; [exact Heq|].
      exfalso. exact (Hanc n (H12' _ Hd)). }
    rewrite Hstub in Hs11.
    rewrite Hstub, E12, Hs11, lookup_insert_eq in Hl.
    rewrite Hzip, E12, Hs11, lookup_insert_ne in Hz
      by (intros Heq; apply app_inj_tail in Heq as [_ Heq]; discriminate).
    rewrite Hzip, lookup_insert_eq in Hz.
    injection Hl as Hl. injection Hz as Hz. subst launcher archive.
    exists stub, s8. split; [reflexivity|]. split; [rewrite <- Hman; exact H8|].
    cbv zeta. rewrite Hop, lookup_insert_eq. reflexivity. }
  assert (Htail : forall pre,
    (fs0 ← get;
     if negb (path_exists fs0 main_file) || negb (is_file fs0 main_file)
     then raise (BuildError ("Main script not found: " +:+ str_abs main_file))
     else with_tempdir E (build_in_tmp E pre main_file dest
            (include_arg a) (include_folder_arg a) (icon_arg a) op)) fs = (fs', inr ()) ->
    exists stub fz,
      compile_stub_out E = inr stub /\
      (MANIFEST_NAME, String.list_byte_of_string
         (text_mode (String.concat "\" (parts_of (strip (main_dest_arg a)) ++ [name main_file])) +:+ crlf))
        ∈ zip_members fz (child tmp "payload") /\
      let archive := zip_encode E (zip_members fz (child tmp "payload")) in
      fs' !! op =
        Some (File (stub ++ archive ++ le64 (Z.of_nat (length archive)) ++ SHA256.digest archive ++ MARKER))).
  { intros pre H0. rewrite get_bind in H0.
    destruct (_ || _); [apply raise_inr in H0; contradiction|].
    unfold with_tempdir in H0. cbv zeta in H0. fold tmp in H0.
    destruct (mkdir_one tmp fs) as [fs1 [e|u]]; [inversion H0|].
    destruct (build_in_tmp E pre main_file dest (include_arg a) (include_folder_arg a) (icon_arg a) op tmp fs1)
      as [fs2 r] eqn:Eb.
    injection H0 as <- ->.
    destruct (Hbody _ _ _ Eb) as (stub & fz & Hs & Hm & Ho).
    exists stub, fz. split; [exact Hs|]. split.
    - change MANIFEST_NAME with (arcname [MANIFEST_NAME]) at 1.
      apply zip_members_has; [discriminate | exact Hm].
    - unfold remove_tree. apply map_lookup_filter_Some_2; [exact Ho|].
      simpl. rewrite HT. exact Hout. }
  unfold build in H. destruct (negb (is_nt E)); [apply raise_inr in H; contradiction|].
  destruct (pre_exe_arg a) as [p|].
  - rewrite ret_bind in H. exact (Htail _ H).
  - destruct (which_prefix E) as [found|].
    + rewrite ret_bind in H. exact (Htail _ H).
    + rewrite raise_bind in H. discriminate.
Qed.

Lemma find_csc_none_witness :
  (find_csc ex_env None ex_nocsc_fs = (ex_nocsc_fs, inr None) /\
   forall fr n v, fr = "Framework64" \/ fr = "Framework" ->
     path_exists ex_nocsc_fs (csc_base ex_env None fr) = true ->
     ex_nocsc_fs !! (normalize (csc_base ex_env None fr) ++ [n]) = Some v ->
     path_exists ex_nocsc_fs (csc_base ex_env None fr ++ [n; "csc.exe"]) = false) /\
  ~ (forall fr n v, fr = "Framework64" \/ fr = "Framework" ->
     path_exists ex_dotnet_fs (csc_base ex_env None fr) = true ->
     ex_dotnet_fs !! (normalize (csc_base ex_env None fr) ++ [n]) = Some v ->
     path_exists ex_dotnet_fs (csc_base ex_env None fr ++ [n; "csc.exe"]) = false).
Proof.
  split.
  - assert (H : find_csc ex_env None ex_nocsc_fs = (ex_nocsc_fs, inr None)).
    { destruct (find_csc ex_env None ex_nocsc_fs) as [f r] eqn:Ef.
      assert (Hr : (find_csc ex_env None ex_nocsc_fs).2 = inr None) by (vm_compute; reflexivity).
      rewrite Ef in Hr. simpl in Hr. subst r.
      apply find_csc_run in Ef as [-> _]. reflexivity. }
    split; [exact H|].
    apply (find_csc_none ex_env None ex_nocsc_fs); [vm_compute; reflexivity .. | exact H].
  - intros Hall.
    pose proof (proj2 (find_csc_none ex_env None ex_dotnet_fs
                         ltac:(vm_compute; reflexivity) ltac:(vm_compute; reflexivity)) Hall) as H.
    apply (f_equal snd) in H. cbn [snd] in H. vm_compute in H. discriminate H.
Defined.


Lemma build_writes_only_output_witness :
  (build ex_env ex_build_args ex_fs).1 !! ["C:"; "src"; "main.x"] = ex_fs !! ["C:"; "src"; "main.x"].
Proof.
  assert (Hwf : wf ex_fs).
  { assert (H : map_Forall (fun k (_ : node) => k <> [] /\ good_parts (tail k)) ex_fs)
      by (apply (bool_decide_unpack _); vm_compute; reflexivity).
    exact H. }
  assert (Hdrv : forall d b, ex_fs !! [d] <> Some (File b)).
  { assert (H : map_Forall (fun k (v : node) => length k = 1%nat -> v = Dir) ex_fs)
      by (apply (bool_decide_unpack _); vm_compute; reflexivity).
    intros d b Hb. specialize (H [d] _ Hb eq_refl). discriminate H. }
  assert (Hch : chain (normalize (tmp_name ex_env)) ex_fs).
  { intros i Hi. vm_compute in Hi. destruct i as [|[|[|i]]]; try lia; vm_compute; reflexivity. }
  assert (Hfree : forall k, inside (normalize (tmp_name ex_env)) k -> ex_fs !! k = None).
  { assert (H : map_Forall (fun k (_ : node) =>
                  take (length (normalize (tmp_name ex_env))) k <> normalize (tmp_name ex_env)) ex_fs)
      by (apply (bool_decide_unpack _); vm_compute; reflexivity).
    intros k Hk. destruct (ex_fs !! k) as [v|] eqn:Ev; [|reflexivity].
    exfalso. exact (H k v Ev Hk). }
  destruct (decide ((build ex_env ex_build_args ex_fs).1 !! ["C:"; "src"; "main.x"] =
                    ex_fs !! ["C:"; "src"; "main.x"])) as [Heq|Hne]; [exact Heq|exfalso].
  pose proof (build_writes_only_output ex_env ex_build_args ex_fs Hwf Hdrv Hch Hfree
                ltac:(vm_compute; reflexivity) ltac:(repeat constructor) ltac:(repeat constructor)
                _ Hne) as H.
  vm_compute in H. discriminate H.
Defined.

Lemma build_output_layout_witness :
  let fs' := (build ex_env ex_build_args ex_fs).1 in
  let main_file := expand_resolve ex_env (main_file_arg ex_build_args) in
  build ex_env ex_build_args ex_fs = (fs', inr ()) /\
  exists stub fz,
    compile_stub_out ex_env = inr stub /\
    (MANIFEST_NAME, String.list_byte_of_string
       (text_mode (String.concat "\" (parts_of (strip (main_dest_arg ex_build_args)) ++ [name main_file]))
        +:+ crlf))
      ∈ zip_members fz (child (tmp_name ex_env) "payload") /\
    let archive := zip_encode ex_env (zip_members fz (child (tmp_name ex_env) "payload")) in
    fs' !! ["C:"; "w"; "main.exe"] =
      Some (File (stub ++ archive ++ le64 (Z.of_nat (length archive)) ++ SHA256.digest archive ++ MARKER)).
Proof.
  intros fs' main_file.
  assert (H : build ex_env ex_build_args ex_fs = (fs', inr ())) by (apply run_snd; vm_compute; reflexivity).
  split; [exact H|].
  apply (build_output_layout ex_env ex_build_args ex_fs fs'); [vm_compute; reflexivity ..| |exact H].
  vm_compute. intros Hn. discriminate Hn.
Defined.

Lemma split_once_first c a b :
  str_has c a = false -> split_once c (a +:+ String c b) = Some (a, b).
Proof.
  induction a as [|x a IH]; intros Ha; simpl.
  - rewrite Ascii.eqb_refl. reflexivity.
  - unfold str_has in Ha. simpl in Ha. apply orb_false_iff in Ha as [Hx Ha].
    rewrite Hx, IH by exact Ha. reflexivity.
Qed.

(** X7: parse_mapping splits a mapping at its first ';': the source is the text before it, and the destination is the rest, stripped, so it may itself contain ';'. *)
Theorem parse_mapping_first_semicolon E a b fs :
  str_has ";" a = false -> path_exists fs (expand_resolve E a) = true ->
  parse_mapping E (a +:+ ";" +:+ b) fs =
    (fs, inr (expand_resolve E a, if String.eqb (strip b) "" then "." else strip b)).
Proof.
  intros Ha Hp. apply parse_mapping_ok; [|exact Hp].
  apply split_once_first. exact Ha.
Qed.

Lemma parse_mapping_first_semicolon_witness :
  let b := " " +:+ String (ascii_of_nat 28) ("lib;v2" +:+ String (ascii_of_nat 194) (String (ascii_of_nat 160) "")) in
  parse_mapping ex_env ("C:\a\x" +:+ ";" +:+ b) ex_fs =
    (ex_fs, inr (["C:"; "a"; "x"], "lib;v2")).
Proof.
  intros b. apply (parse_mapping_first_semicolon ex_env "C:\a\x" b ex_fs);
    vm_compute; reflexivity.
Defined.
